(** * Chat history store of the Blinkey IDE: codec, key derivation and
      two-file persistence, embedded from the TypeScript sources

    - [chat-encoding.ts]   (base64 codec: [encodeChatData], [decodeChatData],
                            [isEncoded])
    - [chat-encryption.ts] (AES-256-GCM codec: [deriveKey], [encryptChatData],
                            [decryptChatData], [isEncrypted])
    - [chat-history-service-impl.ts], in its two revisions: the one that
      stores base64 text (module [Encoded]) and the one that stores
      authenticated ciphertext (module [Encrypted]).
    - [chat-history-service.ts] of the browser (module [Client]): the
      client that calls the store through a proxy and keeps the thread list
      and the active thread of the window.
    - [chat-widget.tsx]: the rolling buffer of serial monitor messages
      (module [ChatWidget]).

    JavaScript strings are sequences of UTF-16 code units ([list N]); Node
    buffers are sequences of bytes ([list N]).  The built-ins that the code
    calls on strings and buffers ([split], [trim], [startsWith],
    [Buffer.from(_, 'base64')], [toString('utf8')], ...) are written out as
    executable functions.  The cryptographic primitives are taken through
    the class [Crypto] with their laws; the file system, [JSON], [path], the
    clock and the sources of randomness through the class [Host], without
    any law.  A computation of the store is a function from a world (disk,
    trace of effects, tick) to a result or a thrown error and a new world.

    The file has four parts: the model, the vocabulary of the statements,
    two instances to run the model on, and the properties. *)

From Stdlib Require Import NArith ZArith List String Ascii Lia Bool Arith Sorted.
From stdpp Require Import base option list gmap.
Import ListNotations.

Local Open Scope N_scope.

(** ** JavaScript strings *)

Module JS.

Abbreviation jsstring := (list N).
Abbreviation bytes := (list N).

(** A Rocq string literal read as a JavaScript string (one code unit per
    character; the literals of the sources are ASCII). *)
Definition lit (s : string) : jsstring :=
  map N_of_ascii (list_ascii_of_string s).

Definition str_eqb (a b : jsstring) : bool := bool_decide (a = b).

(** [String.prototype.split(sep)] for a one-character separator: the
    empty string splits into one empty segment. *)
Fixpoint split (sep : N) (s : jsstring) : list jsstring :=
  match s with
  | [] => [[]]
  | c :: s' =>
      if c =? sep then [] :: split sep s'
      else match split sep s' with
           | [] => [[c]]
           | p :: ps => (c :: p) :: ps
           end
  end.

(** WhiteSpace and LineTerminator code points of ECMAScript: what [trim]
    strips and what the regular expression class [\s] matches. *)
Definition is_space (c : N) : bool :=
  (c =? 9) || (c =? 10) || (c =? 11) || (c =? 12) || (c =? 13) ||
  (c =? 32) || (c =? 160) || (c =? 5760) ||
  ((8192 <=? c) && (c <=? 8202)) ||
  (c =? 8232) || (c =? 8233) || (c =? 8239) || (c =? 8287) ||
  (c =? 12288) || (c =? 65279).

Fixpoint trimStart (s : jsstring) : jsstring :=
  match s with
  | c :: s' => if is_space c then trimStart s' else s
  | [] => []
  end.

Definition trimEnd (s : jsstring) : jsstring := rev (trimStart (rev s)).

Definition trim (s : jsstring) : jsstring := trimEnd (trimStart s).

Fixpoint startsWith (s prefix : jsstring) : bool :=
  match prefix, s with
  | [], _ => true
  | p :: prefix', c :: s' => (c =? p) && startsWith s' prefix'
  | _ :: _, [] => false
  end.

(** [String.prototype.includes]. *)
Fixpoint includes (s needle : jsstring) : bool :=
  startsWith s needle ||
  match s with
  | [] => false
  | _ :: s' => includes s' needle
  end.

(** [s.substring(0, n)] for a non-negative [n]. *)
Definition substring0 (n : nat) (s : jsstring) : jsstring := firstn n s.

Definition count (c : N) (s : jsstring) : nat :=
  length (filter (fun x => x = c) s).

End JS.
Import JS.

(** ** Node buffers: base64, hex and UTF-8 *)

Module Buffer.

Definition base64_alphabet : jsstring :=
  lit "ABCDEFGHIJKLMNOPQRSTUVWXYZabcdefghijklmnopqrstuvwxyz0123456789+/".

Definition pad : N := 61.   (* '=' *)

Definition base64_char (v : N) : N :=
  nth (N.to_nat (v mod 64)) base64_alphabet 65.

(** [buf.toString('base64')]: three bytes give four characters, the last
    group is padded with ['=']. *)
Fixpoint toString_base64 (b : bytes) : jsstring :=
  match b with
  | [] => []
  | [x] => [base64_char (x / 4); base64_char ((x mod 4) * 16); pad; pad]
  | [x; y] =>
      [base64_char (x / 4); base64_char ((x mod 4) * 16 + y / 16);
       base64_char ((y mod 16) * 4); pad]
  | x :: y :: z :: rest =>
      base64_char (x / 4) :: base64_char ((x mod 4) * 16 + y / 16) ::
      base64_char ((y mod 16) * 4 + z / 64) :: base64_char (z mod 64) ::
      toString_base64 rest
  end.

(** The decoder's table: both the standard and the URL-safe alphabet are
    legal. *)
Definition unbase64 (c : N) : option N :=
  if (65 <=? c) && (c <=? 90) then Some (c - 65)
  else if (97 <=? c) && (c <=? 122) then Some (c - 71)
  else if (48 <=? c) && (c <=? 57) then Some (c + 4)
  else if (c =? 43) || (c =? 45) then Some 62
  else if (c =? 47) || (c =? 95) then Some 63
  else None.

(** The legal characters of the input up to the first ['=']: Node's
    decoder reads the low byte of every code unit, skips what is not a
    legal character and stops at the padding. *)
Fixpoint sextets (s : jsstring) : list N :=
  match s with
  | [] => []
  | c :: s' =>
      let b := c mod 256 in
      if b =? pad then []
      else match unbase64 b with
           | Some v => v :: sextets s'
           | None => sextets s'
           end
  end.

Fixpoint decode_sextets (l : list N) : bytes :=
  match l with
  | a :: b :: c :: d :: rest =>
      (a * 4 + b / 16) :: ((b mod 16) * 16 + c / 4) :: ((c mod 4) * 64 + d) ::
      decode_sextets rest
  | [a; b; c] => [a * 4 + b / 16; (b mod 16) * 16 + c / 4]
  | [a; b] => [a * 4 + b / 16]
  | _ => []
  end.

(** [Buffer.from(s, 'base64')]: total, it never throws on a string. *)
Definition from_base64 (s : jsstring) : bytes := decode_sextets (sextets s).

Definition hex_digit (v : N) : N :=
  nth (N.to_nat (v mod 16)) (lit "0123456789abcdef") 48.

(** [buf.toString('hex')]. *)
Definition toString_hex (b : bytes) : jsstring :=
  flat_map (fun x => [hex_digit (x / 16); hex_digit x]) b.

Definition is_high_surrogate (u : N) : bool := (55296 <=? u) && (u <=? 56319).
Definition is_low_surrogate (u : N) : bool := (56320 <=? u) && (u <=? 57343).

Definition replacement_bytes : bytes := [239; 191; 189].   (* U+FFFD *)

(** [Buffer.from(s, 'utf8')]: a surrogate pair gives four bytes, a lone
    surrogate is replaced by U+FFFD. *)
Fixpoint from_utf8 (s : jsstring) : bytes :=
  match s with
  | [] => []
  | u :: s' =>
      if u <? 128 then u :: from_utf8 s'
      else if u <? 2048 then (192 + u / 64) :: (128 + u mod 64) :: from_utf8 s'
      else if is_high_surrogate u then
        match s' with
        | v :: s'' =>
            if is_low_surrogate v then
              let cp := 65536 + (u - 55296) * 1024 + (v - 56320) in
              (240 + cp / 262144) :: (128 + (cp / 4096) mod 64) ::
              (128 + (cp / 64) mod 64) :: (128 + cp mod 64) :: from_utf8 s''
            else replacement_bytes ++ from_utf8 s'
        | [] => replacement_bytes
        end
      else if is_low_surrogate u then replacement_bytes ++ from_utf8 s'
      else if u <? 65536 then
        (224 + u / 4096) :: (128 + (u / 64) mod 64) :: (128 + u mod 64) ::
        from_utf8 s'
      else replacement_bytes ++ from_utf8 s'
  end.

(** The decoder of [buf.toString('utf8')], the one of the Encoding
    standard: a pending sequence is the code point read so far, the number
    of continuation bytes still needed and the range the next byte must
    lie in. *)
Record pending := Pending { cp : N; needed : nat; lower : N; upper : N }.

Definition units_of_code_point (c : N) : jsstring :=
  if c <? 65536 then [c]
  else [55296 + (c - 65536) / 1024; 56320 + (c - 65536) mod 1024].

Definition lead (b : N) : jsstring * option pending :=
  if b <? 128 then ([b], None)
  else if (194 <=? b) && (b <=? 223) then
    ([], Some (Pending (b mod 32) 0 128 191))
  else if (224 <=? b) && (b <=? 239) then
    ([], Some (Pending (b mod 16) 1
                 (if b =? 224 then 160 else 128)
                 (if b =? 237 then 159 else 191)))
  else if (240 <=? b) && (b <=? 244) then
    ([], Some (Pending (b mod 8) 2
                 (if b =? 240 then 144 else 128)
                 (if b =? 244 then 143 else 191)))
  else ([65533], None).

(** [needed p] counts the continuation bytes after the next one. *)
Fixpoint decode_utf8 (st : option pending) (b : bytes) : jsstring :=
  match b with
  | [] => match st with None => [] | Some _ => [65533] end
  | x :: b' =>
      match st with
      | None => let '(out, st') := lead x in out ++ decode_utf8 st' b'
      | Some p =>
          if (lower p <=? x) && (x <=? upper p) then
            let c := cp p * 64 + x mod 64 in
            match needed p with
            | O => units_of_code_point c ++ decode_utf8 None b'
            | S n => decode_utf8 (Some (Pending c n 128 191)) b'
            end
          else
            let '(out, st') := lead x in
            65533 :: out ++ decode_utf8 st' b'
      end
  end.

Definition toString_utf8 (b : bytes) : jsstring := decode_utf8 None b.

End Buffer.

(** ** chat-encoding.ts *)

Module ChatEncoding.

(** The outcome of a call that may throw. *)
Inductive thrown := LegacyEncrypted.

Definition encodeChatData (data : jsstring) : jsstring :=
  Buffer.toString_base64 (Buffer.from_utf8 data).

Definition looks_like_json (s : jsstring) : bool :=
  startsWith (trim s) (lit "{") || startsWith (trim s) (lit "[").

Definition isEncoded (data : jsstring) : bool :=
  let parts := split 58 data in
  if (length parts =? 3)%nat then true
  else if looks_like_json data then false
  else
    (* the [try] block: [Buffer.from] does not throw, the [catch] is
       never entered *)
    let decoded := Buffer.toString_utf8 (Buffer.from_base64 data) in
    looks_like_json decoded.

(** The [try] block of [decodeChatData] cannot throw either, so the
    [catch] branch with its legacy-format error is unreachable and the
    function is total. *)
Definition decodeChatData (encodedData : jsstring) : jsstring + thrown :=
  inl (Buffer.toString_utf8 (Buffer.from_base64 encodedData)).

End ChatEncoding.

(** ** node:crypto *)

(** What [chat-encryption.ts] imports from [node:crypto].  [pbkdf2Sync] is
    called with the digest ['sha256'] only.  [gcm_seal key iv data] is the
    pair (ciphertext, authentication tag) that a cipher created by
    [createCipheriv('aes-256-gcm', key, iv)] produces; [gcm_open key iv tag
    data] is what the matching decipher returns once [final] has checked the
    tag, or the message of the error it throws.  The laws are the ones of
    the primitives: the derived key has the requested length, buffers hold
    bytes, and opening what was sealed under the same 32-byte key and
    16-byte nonce gives the data back. *)
Class Crypto := {
  pbkdf2Sync : jsstring -> jsstring -> N -> nat -> bytes;
  gcm_seal : bytes -> bytes -> bytes -> bytes * bytes;
  gcm_open : bytes -> bytes -> bytes -> bytes -> bytes + jsstring;
  pbkdf2Sync_length : forall password salt iterations keylen,
    length (pbkdf2Sync password salt iterations keylen) = keylen;
  gcm_open_seal : forall key iv data,
    length key = 32%nat -> length iv = 16%nat ->
    Forall (fun x => x < 256) key -> Forall (fun x => x < 256) iv ->
    Forall (fun x => x < 256) data ->
    gcm_open key iv (snd (gcm_seal key iv data)) (fst (gcm_seal key iv data))
    = inl data;
  pbkdf2Sync_bytes : forall password salt iterations keylen,
    Forall (fun x => x < 256) (pbkdf2Sync password salt iterations keylen);
  gcm_seal_bytes : forall key iv data,
    Forall (fun x => x < 256) (fst (gcm_seal key iv data)) /\
    Forall (fun x => x < 256) (snd (gcm_seal key iv data))
}.

(** ** chat-encryption.ts *)

Module ChatEncryption.
Section WithCrypto.
Context `{Crypto}.

Definition KEY_LENGTH : nat := 32.
Definition IV_LENGTH : nat := 16.
Definition SALT_LENGTH : nat := 32.
Definition ITERATIONS : N := 100000.

Definition deriveKey (projectRoot : jsstring) : bytes :=
  let salt :=
    pbkdf2Sync projectRoot (lit "blinky-chat-encryption-salt") 1000 SALT_LENGTH in
  pbkdf2Sync projectRoot (Buffer.toString_hex salt) ITERATIONS KEY_LENGTH.

(** [iv] is the value of [randomBytes(IV_LENGTH)].  The base64 text of
    [update] and [final] is produced through one string decoder, so their
    concatenation is the base64 text of the whole ciphertext. *)
Definition encryptChatData (iv : bytes) (data projectRoot : jsstring) : jsstring :=
  let key := deriveKey projectRoot in
  let '(encrypted, tag) := gcm_seal key iv (Buffer.from_utf8 data) in
  Buffer.toString_base64 iv ++ [58] ++ Buffer.toString_base64 tag ++ [58] ++
  Buffer.toString_base64 encrypted.

(** [inr message]: the call throws an [Error] with that message.  The text
    of [update] and [final] comes out of one string decoder as well: it is
    the UTF-8 reading of the whole plaintext, and it is returned only when
    [final] has not thrown. *)
Definition decryptChatData (encryptedData projectRoot : jsstring)
  : jsstring + jsstring :=
  match split 58 encryptedData with
  | [ivBase64; tagBase64; encrypted] =>
      let iv := Buffer.from_base64 ivBase64 in
      let tag := Buffer.from_base64 tagBase64 in
      let key := deriveKey projectRoot in
      match gcm_open key iv tag (Buffer.from_base64 encrypted) with
      | inl decrypted => inl (Buffer.toString_utf8 decrypted)
      | inr message => inr message
      end
  | _ => inr (lit "Invalid encrypted data format")
  end.

End WithCrypto.

(** The callback of [parts.every]: [Buffer.from] in a [try] block. *)
Definition decodes_as_base64 (part : jsstring) : bool :=
  match (inl (Buffer.from_base64 part) : bytes + jsstring) with
  | inl _ => true
  | inr _ => false
  end.

Definition isEncrypted (data : jsstring) : bool :=
  let parts := split 58 data in
  (length parts =? 3)%nat && forallb decodes_as_base64 parts.

End ChatEncryption.

(** ** common/protocol/chat-history-service.ts *)

Module Protocol.

Inductive role := user | assistant | system.
Inductive status := active | archived.

(** A value of type [unknown] that the store only carries along, kept as
    its JSON text. *)
Definition opaque := jsstring.

Record ChatMessage := mkChatMessage {
  msg_id : jsstring;
  msg_role : role;
  msg_content : jsstring;
  msg_createdAt : jsstring;
  msg_metadata : option opaque
}.

Record ThreadSummary := mkThreadSummary {
  sum_id : jsstring;
  sum_title : jsstring;
  sum_createdAt : jsstring;
  sum_updatedAt : jsstring;
  sum_status : status;
  sum_lastMessagePreview : option jsstring
}.

Record Thread := mkThread {
  projectRoot : jsstring;
  id : jsstring;
  title : jsstring;
  createdAt : jsstring;
  updatedAt : jsstring;
  thread_status : status;
  messages : list ChatMessage;
  context : option opaque
}.

Record ThreadsIndex := mkThreadsIndex { threads : list ThreadSummary }.

(** The errors the store sees: the errno exceptions of [node:fs], plain
    [Error]s (among them [SyntaxError] and the errors of [node:crypto]),
    and the four [ChatHistoryError]s with their message and data. *)
Inductive error :=
| SystemError (code message : jsstring)
| JsError (message : jsstring)
| NotFound (message threadId : jsstring)
| InvalidProjectRoot (message root : jsstring)
| WriteFailed (message path : jsstring)
| ReadFailed (message path : jsstring).

Definition message_of (e : error) : jsstring :=
  match e with
  | SystemError _ m | JsError m | NotFound m _ | InvalidProjectRoot m _
  | WriteFailed m _ | ReadFailed m _ => m
  end.

(** [(error as NodeJS.ErrnoException).code === 'ENOENT']: the code of a
    [ChatHistoryError] is a number, a plain [Error] has none. *)
Definition is_ENOENT (e : error) : bool :=
  match e with
  | SystemError c _ => str_eqb c (lit "ENOENT")
  | _ => false
  end.

(** [ChatHistoryError.ReadFailed.is(error)]. *)
Definition is_ReadFailed (e : error) : bool :=
  match e with
  | ReadFailed _ _ => true
  | _ => false
  end.

End Protocol.
Import Protocol.

(** ** The host: node:fs, node:path, JSON, the clock and the sources of
       randomness *)

Record errno := mkErrno { err_code : jsstring; err_message : jsstring }.

(** The file system is any state machine with these four operations
    ([mkdir] is the recursive one); an operation that fails reports the
    errno exception it rejects with.  [JSON_parse_*] is [JSON.parse] under
    the type assertion of the call site: [inr message] is the [SyntaxError]
    it throws.  [Date_getTime] is [new Date(s).getTime()], [None] standing
    for [NaN].  [randomUUID], [toISOString_now] and [randomBytes] are read
    at the world's tick, which every call advances.  [currentSketchDir] is
    the directory of the configured sketch, when the configuration has
    one. *)
Class Host := {
  disk : Type;
  readFile : disk -> jsstring -> jsstring + errno;
  writeFile : disk -> jsstring -> jsstring -> disk * option errno;
  unlink : disk -> jsstring -> disk * option errno;
  mkdir : disk -> jsstring -> disk * option errno;
  path_join : list jsstring -> jsstring;
  path_resolve : jsstring -> jsstring;
  JSON_parse_index : jsstring -> ThreadsIndex + jsstring;
  JSON_parse_thread : jsstring -> Thread + jsstring;
  JSON_stringify_index : ThreadsIndex -> jsstring;
  JSON_stringify_thread : Thread -> jsstring;
  Date_getTime : jsstring -> option Z;
  randomUUID : nat -> jsstring;
  toISOString_now : nat -> jsstring;
  randomBytes : nat -> nat -> bytes;
  currentSketchDir : option jsstring
}.

(** ** Effects *)

Module Eff.
Section WithHost.
Context `{Host}.

Inductive level := Error | Warn.

(** What an operation does to the outside, in the order it does it: the
    calls that change the file system, with whether they succeeded, and the
    calls of the logger. *)
Inductive event :=
| EvWriteFile (path data : jsstring) (ok : bool)
| EvUnlink (path : jsstring) (ok : bool)
| EvMkdir (path : jsstring) (ok : bool)
| EvLog (lvl : level) (message : jsstring).

Record World := mkWorld {
  w_disk : disk;
  w_trace : list event;
  w_tick : nat
}.

(** A computation either returns or throws, and leaves a world behind. *)
Definition M (A : Type) : Type := World -> (A + error) * World.

Definition ret {A} (a : A) : M A := fun w => (inl a, w).

Definition throw {A} (e : error) : M A := fun w => (inr e, w).

Definition bind {A B} (m : M A) (k : A -> M B) : M B :=
  fun w =>
    match m w with
    | (inl a, w') => k a w'
    | (inr e, w') => (inr e, w')
    end.

Definition try_catch {A} (m : M A) (handler : error -> M A) : M A :=
  fun w =>
    match m w with
    | (inl a, w') => (inl a, w')
    | (inr e, w') => handler e w'
    end.

Definition emit (e : event) : M unit :=
  fun w => (inl tt, mkWorld (w_disk w) (w_trace w ++ [e]) (w_tick w)).

Definition tick : M nat :=
  fun w => (inl (w_tick w), mkWorld (w_disk w) (w_trace w) (S (w_tick w))).

Definition of_errno (e : errno) : error := SystemError (err_code e) (err_message e).

Definition fs_readFile (path : jsstring) : M jsstring :=
  fun w =>
    match readFile (w_disk w) path with
    | inl content => (inl content, w)
    | inr e => (inr (of_errno e), w)
    end.

Definition fs_effect (op : disk -> disk * option errno) (ev : bool -> event) : M unit :=
  fun w =>
    let '(d, r) := op (w_disk w) in
    match r with
    | None => (inl tt, mkWorld d (w_trace w ++ [ev true]) (w_tick w))
    | Some e => (inr (of_errno e), mkWorld d (w_trace w ++ [ev false]) (w_tick w))
    end.

Definition fs_writeFile (path data : jsstring) : M unit :=
  fs_effect (fun d => writeFile d path data) (EvWriteFile path data).

Definition fs_unlink (path : jsstring) : M unit :=
  fs_effect (fun d => unlink d path) (EvUnlink path).

Definition fs_mkdir (path : jsstring) : M unit :=
  fs_effect (fun d => mkdir d path) (EvMkdir path).

Definition logger_error (message : jsstring) : M unit := emit (EvLog Error message).
Definition logger_warn (message : jsstring) : M unit := emit (EvLog Warn message).

Definition new_Date_toISOString : M jsstring := bind tick (fun t => ret (toISOString_now t)).
Definition crypto_randomUUID : M jsstring := bind tick (fun t => ret (randomUUID t)).
Definition crypto_randomBytes (n : nat) : M bytes := bind tick (fun t => ret (randomBytes t n)).

End WithHost.
End Eff.
Import Eff.

Declare Scope eff_scope.
Delimit Scope eff_scope with eff.
Notation "x <- m ;; k" := (bind m (fun x => k))
  (at level 100, m at next level, k at level 200, right associativity) : eff_scope.
Notation "m ;; k" := (bind m (fun _ => k))
  (at level 100, k at level 200, right associativity) : eff_scope.

(** ** chat-history-service-impl.ts: what the two revisions share *)

Module Store.
Section Ops.
Context `{Host}.
Local Open Scope eff_scope.

(** ['.blinkey'] in the revision that stores base64 text, ['.blinky'] in the
    one that stores ciphertext. *)
Variable CHAT_DIR_NAME : jsstring.

Definition CHAT_HISTORY_DIR : jsstring := lit "chat".
Definition THREADS_INDEX_FILE : jsstring := lit "threads.json".
Definition THREAD_FILE_PREFIX : jsstring := lit "thread-".

Definition resolveProjectRoot (projectRoot : option jsstring) : M jsstring :=
  match projectRoot with
  | Some (c :: r) => ret (path_resolve (c :: r))
  | _ =>
      match currentSketchDir with
      | Some dir => ret dir
      | None =>
          throw (InvalidProjectRoot
                   (lit "Could not determine project root. "
                    ++ lit "Please open a sketch or provide a project root.")
                   (lit "unknown"))
      end
  end.

Definition getChatHistoryDir (projectRoot : jsstring) : jsstring :=
  path_join [projectRoot; CHAT_DIR_NAME; CHAT_HISTORY_DIR].

Definition getThreadsIndexPath (projectRoot : jsstring) : jsstring :=
  path_join [getChatHistoryDir projectRoot; THREADS_INDEX_FILE].

Definition getThreadFilePath (projectRoot threadId : jsstring) : jsstring :=
  path_join [getChatHistoryDir projectRoot;
             THREAD_FILE_PREFIX ++ threadId ++ lit ".json"].

Definition ensureChatHistoryDir (projectRoot : jsstring) : M unit :=
  let chatDir := getChatHistoryDir projectRoot in
  try_catch (fs_mkdir chatDir)
    (fun error =>
       logger_error (lit "Failed to create chat history directory: " ++ chatDir);;
       throw (WriteFailed
                (lit "Failed to create chat history directory: " ++ message_of error)
                chatDir)).

Definition empty_index : ThreadsIndex := mkThreadsIndex [].

Definition parse_index (text : jsstring) : M ThreadsIndex :=
  match JSON_parse_index text with
  | inl index => ret index
  | inr message => throw (JsError message)
  end.

Definition parse_thread (text : jsstring) : M Thread :=
  match JSON_parse_thread text with
  | inl thread => ret thread
  | inr message => throw (JsError message)
  end.

(** The prefix of [text] before the first match of [/[.!?]\s/], that is
    [text.split(/[.!?]\s/)[0]]. *)
Definition is_terminator (c : N) : bool := (c =? 46) || (c =? 33) || (c =? 63).

Fixpoint first_sentence (text : jsstring) : jsstring :=
  match text with
  | [] => []
  | c :: rest =>
      if is_terminator c && match rest with d :: _ => is_space d | [] => false end
      then []
      else c :: first_sentence rest
  end.

Definition generateTitle (firstMessage : ChatMessage) : jsstring :=
  let text := trim (msg_content firstMessage) in
  let firstSentence := first_sentence text in
  if (length firstSentence <=? 60)%nat then firstSentence
  else substring0 57 text ++ lit "...".

(** The comparator of [listThreads]; a [NaN] result counts as [0]. *)
Definition by_updatedAt_desc (a b : ThreadSummary) : Z :=
  match Date_getTime (sum_updatedAt b), Date_getTime (sum_updatedAt a) with
  | Some tb, Some ta => (tb - ta)%Z
  | _, _ => 0%Z
  end.

(** [Array.prototype.sort], which is stable: an insertion sort. *)
Fixpoint insert_sorted {A} (cmp : A -> A -> Z) (x : A) (l : list A) : list A :=
  match l with
  | [] => [x]
  | y :: l' => if (0 <? cmp x y)%Z then y :: insert_sorted cmp x l' else x :: l
  end.

Definition sort {A} (cmp : A -> A -> Z) (l : list A) : list A :=
  foldr (insert_sorted cmp) [] l.

(** [index.threads.find(t => t.id === threadId)] followed by assignments to
    the summary found: the first match is replaced. *)
Fixpoint update_summary (threadId : jsstring) (f : ThreadSummary -> ThreadSummary)
    (l : list ThreadSummary) : list ThreadSummary :=
  match l with
  | [] => []
  | t :: l' =>
      if str_eqb (sum_id t) threadId then f t :: l'
      else t :: update_summary threadId f l'
  end.

Definition DEFAULT_TITLE : jsstring := lit "New Chat".

Definition role_eqb (a b : role) : bool :=
  match a, b with
  | user, user | assistant, assistant | system, system => true
  | _, _ => false
  end.

Definition initial_title (initialMessage : option ChatMessage) : jsstring :=
  match initialMessage with
  | Some m => if role_eqb (msg_role m) user then generateTitle m else DEFAULT_TITLE
  | None => DEFAULT_TITLE
  end.

Variable readThreadsIndex : jsstring -> M ThreadsIndex.
Variable writeThreadsIndex : jsstring -> ThreadsIndex -> M unit.
Variable readThreadFile : jsstring -> jsstring -> M Thread.
Variable writeThreadFile : jsstring -> Thread -> M unit.

Definition listThreads (projectRoot : option jsstring) : M (list ThreadSummary) :=
  resolvedRoot <- resolveProjectRoot projectRoot;;
  try_catch
    (index <- readThreadsIndex resolvedRoot;;
     ret (sort by_updatedAt_desc (threads index)))
    (fun error => if is_ENOENT error then ret [] else throw error).

Definition createThread (root : jsstring) (initialMessage : option ChatMessage)
  : M Thread :=
  resolvedRoot <- resolveProjectRoot (Some root);;
  ensureChatHistoryDir resolvedRoot;;
  threadId <- crypto_randomUUID;;
  now <- new_Date_toISOString;;
  let title := initial_title initialMessage in
  let thread :=
    mkThread resolvedRoot threadId title now now active
      (match initialMessage with Some m => [m] | None => [] end) None in
  writeThreadFile resolvedRoot thread;;
  index <- readThreadsIndex resolvedRoot;;
  let summary :=
    mkThreadSummary threadId title now now active
      (match initialMessage with
       | Some m => Some (substring0 100 (msg_content m))
       | None => None
       end) in
  writeThreadsIndex resolvedRoot (mkThreadsIndex (threads index ++ [summary]));;
  ret thread.

Definition getThread (root threadId : jsstring) : M Thread :=
  resolvedRoot <- resolveProjectRoot (Some root);;
  readThreadFile resolvedRoot threadId.

Definition appendMessage (root threadId : jsstring) (message : ChatMessage)
  : M Thread :=
  resolvedRoot <- resolveProjectRoot (Some root);;
  thread0 <- readThreadFile resolvedRoot threadId;;
  now <- new_Date_toISOString;;
  let thread :=
    mkThread (projectRoot thread0) (id thread0) (title thread0) (createdAt thread0)
      now (thread_status thread0) (messages thread0 ++ [message]) (context thread0) in
  index0 <- readThreadsIndex resolvedRoot;;
  let index :=
    mkThreadsIndex
      (update_summary threadId
         (fun s => mkThreadSummary (sum_id s) (sum_title s) (sum_createdAt s)
                     (updatedAt thread) (sum_status s)
                     (Some (substring0 100 (msg_content message))))
         (threads index0)) in
  writeThreadFile resolvedRoot thread;;
  writeThreadsIndex resolvedRoot index;;
  ret thread.

Definition renameThread (root threadId newTitle : jsstring) : M unit :=
  resolvedRoot <- resolveProjectRoot (Some root);;
  thread0 <- readThreadFile resolvedRoot threadId;;
  now <- new_Date_toISOString;;
  let thread :=
    mkThread (projectRoot thread0) (id thread0) newTitle (createdAt thread0)
      now (thread_status thread0) (messages thread0) (context thread0) in
  index0 <- readThreadsIndex resolvedRoot;;
  let index :=
    mkThreadsIndex
      (update_summary threadId
         (fun s => mkThreadSummary (sum_id s) newTitle (sum_createdAt s)
                     (updatedAt thread) (sum_status s) (sum_lastMessagePreview s))
         (threads index0)) in
  writeThreadFile resolvedRoot thread;;
  writeThreadsIndex resolvedRoot index.

Definition archiveThread (root threadId : jsstring) : M unit :=
  resolvedRoot <- resolveProjectRoot (Some root);;
  thread0 <- readThreadFile resolvedRoot threadId;;
  now <- new_Date_toISOString;;
  let thread :=
    mkThread (projectRoot thread0) (id thread0) (title thread0) (createdAt thread0)
      now archived (messages thread0) (context thread0) in
  index0 <- readThreadsIndex resolvedRoot;;
  let index :=
    mkThreadsIndex
      (update_summary threadId
         (fun s => mkThreadSummary (sum_id s) (sum_title s) (sum_createdAt s)
                     (updatedAt thread) archived (sum_lastMessagePreview s))
         (threads index0)) in
  writeThreadFile resolvedRoot thread;;
  writeThreadsIndex resolvedRoot index.

Definition deleteThread (root threadId : jsstring) : M unit :=
  resolvedRoot <- resolveProjectRoot (Some root);;
  index0 <- readThreadsIndex resolvedRoot;;
  let index :=
    mkThreadsIndex
      (filter (fun t => sum_id t <> threadId) (threads index0)) in
  writeThreadsIndex resolvedRoot index;;
  let threadPath := getThreadFilePath resolvedRoot threadId in
  try_catch (fs_unlink threadPath)
    (fun error =>
       if negb (is_ENOENT error)
       then logger_warn (lit "Failed to delete thread file: " ++ threadPath)
       else ret tt).

Definition clearMessages (root threadId : jsstring) : M Thread :=
  resolvedRoot <- resolveProjectRoot (Some root);;
  thread0 <- readThreadFile resolvedRoot threadId;;
  now <- new_Date_toISOString;;
  let thread :=
    mkThread (projectRoot thread0) (id thread0) (title thread0) (createdAt thread0)
      now (thread_status thread0) [] (context thread0) in
  index0 <- readThreadsIndex resolvedRoot;;
  let index :=
    mkThreadsIndex
      (update_summary threadId
         (fun s => mkThreadSummary (sum_id s) (sum_title s) (sum_createdAt s)
                     (updatedAt thread) (sum_status s) None)
         (threads index0)) in
  writeThreadFile resolvedRoot thread;;
  writeThreadsIndex resolvedRoot index;;
  ret thread.

End Ops.
End Store.

(** ** The revision that stores base64 text (imports chat-encoding) *)

Module Encoded.
Section WithHost.
Context `{Host}.
Local Open Scope eff_scope.

Definition CHAT_DIR_NAME : jsstring := lit ".blinkey".

Definition getThreadsIndexPath := Store.getThreadsIndexPath CHAT_DIR_NAME.
Definition getThreadFilePath := Store.getThreadFilePath CHAT_DIR_NAME.

Definition decode (content : jsstring) : M jsstring :=
  match ChatEncoding.decodeChatData content with
  | inl decoded => ret decoded
  | inr ChatEncoding.LegacyEncrypted =>
      throw (JsError (lit "Legacy encrypted format detected. Please recreate your chats."))
  end.

(** The first stage of [readThreadsIndex] either leaves the function with
    a value ([inl]) or goes on with the decoded content ([inr]). *)
Definition readThreadsIndex (projectRoot : jsstring) : M ThreadsIndex :=
  let indexPath := getThreadsIndexPath projectRoot in
  try_catch
    (content <- fs_readFile indexPath;;
     stage <-
       (if ChatEncoding.isEncoded content then
          try_catch
            (decodedContent <- decode content;; ret (inr decodedContent))
            (fun decodeError =>
               logger_error (lit "Failed to decode threads index: " ++ indexPath);;
               if includes (message_of decodeError) (lit "Legacy encrypted") then
                 logger_warn (lit "Legacy encrypted format detected, starting fresh: "
                              ++ indexPath);;
                 try_catch (fs_unlink indexPath) (fun _ => ret tt);;
                 ret (inl Store.empty_index)
               else
                 throw (ReadFailed
                          (lit "Failed to decode threads index: " ++ message_of decodeError)
                          indexPath))
        else
          try_catch (fs_writeFile indexPath (ChatEncoding.encodeChatData content))
            (fun migrateError =>
               logger_warn (lit "Failed to migrate threads index to base64 format: "
                            ++ indexPath));;
          ret (inr content));;
     match stage with
     | inl early => ret early
     | inr decodedContent =>
         try_catch (Store.parse_index decodedContent)
           (fun parseError =>
              logger_error (lit "Failed to parse threads index JSON: " ++ indexPath);;
              try_catch
                (fs_unlink indexPath;;
                 logger_warn (lit "Deleted corrupted threads index, starting fresh: "
                              ++ indexPath))
                (fun unlinkError =>
                   logger_warn (lit "Failed to delete corrupted threads index: "
                                ++ indexPath));;
              ret Store.empty_index)
     end)
    (fun error =>
       if is_ENOENT error then ret Store.empty_index
       else
         logger_error (lit "Failed to read threads index: " ++ indexPath);;
         if includes (message_of error) (lit "Failed to decode")
            || includes (message_of error) (lit "Failed to read")
         then
           try_catch
             (fs_unlink indexPath;;
              logger_warn (lit "Deleted corrupted threads index after error, starting fresh: "
                           ++ indexPath))
             (fun unlinkError => ret tt);;
           ret Store.empty_index
         else
           throw (ReadFailed (lit "Failed to read threads index: " ++ message_of error)
                    indexPath)).

Definition writeThreadsIndex (projectRoot : jsstring) (index : ThreadsIndex) : M unit :=
  let indexPath := getThreadsIndexPath projectRoot in
  try_catch
    (let jsonContent := JSON_stringify_index index in
     let encoded := ChatEncoding.encodeChatData jsonContent in
     fs_writeFile indexPath encoded)
    (fun error =>
       logger_error (lit "Failed to write threads index: " ++ indexPath);;
       throw (WriteFailed (lit "Failed to write threads index: " ++ message_of error)
                indexPath)).

Definition readThreadFile (projectRoot threadId : jsstring) : M Thread :=
  let threadPath := getThreadFilePath projectRoot threadId in
  try_catch
    (content <- fs_readFile threadPath;;
     decodedContent <-
       (if ChatEncoding.isEncoded content then
          try_catch (decode content)
            (fun decodeError =>
               logger_error (lit "Failed to decode thread file: " ++ threadPath);;
               if includes (message_of decodeError) (lit "Legacy encrypted") then
                 throw (ReadFailed
                          (lit "Legacy encrypted format detected. Please recreate your chats.")
                          threadPath)
               else
                 throw (ReadFailed
                          (lit "Failed to decode thread: " ++ message_of decodeError)
                          threadPath))
        else
          try_catch (fs_writeFile threadPath (ChatEncoding.encodeChatData content))
            (fun migrateError =>
               logger_warn (lit "Failed to migrate thread file to base64 format: "
                            ++ threadPath));;
          ret content);;
     try_catch (Store.parse_thread decodedContent)
       (fun parseError =>
          logger_error (lit "Failed to parse thread JSON: " ++ threadPath);;
          try_catch
            (fs_unlink threadPath;;
             logger_warn (lit "Deleted corrupted thread file: " ++ threadPath))
            (fun unlinkError =>
               logger_warn (lit "Failed to delete corrupted thread file: " ++ threadPath));;
          throw (ReadFailed (lit "Failed to parse thread: " ++ message_of parseError)
                   threadPath)))
    (fun error =>
       if is_ENOENT error then
         throw (NotFound (lit "Thread not found: " ++ threadId) threadId)
       else if is_ReadFailed error then throw error
       else
         logger_error (lit "Failed to read thread file: " ++ threadPath);;
         throw (ReadFailed (lit "Failed to read thread: " ++ message_of error)
                  threadPath)).

Definition writeThreadFile (projectRoot : jsstring) (thread : Thread) : M unit :=
  let threadPath := getThreadFilePath projectRoot (id thread) in
  try_catch
    (let jsonContent := JSON_stringify_thread thread in
     let encoded := ChatEncoding.encodeChatData jsonContent in
     fs_writeFile threadPath encoded)
    (fun error =>
       logger_error (lit "Failed to write thread file: " ++ threadPath);;
       throw (WriteFailed (lit "Failed to write thread: " ++ message_of error)
                threadPath)).

Definition listThreads := Store.listThreads readThreadsIndex.
Definition createThread :=
  Store.createThread CHAT_DIR_NAME readThreadsIndex writeThreadsIndex writeThreadFile.
Definition getThread := Store.getThread readThreadFile.
Definition appendMessage :=
  Store.appendMessage readThreadsIndex writeThreadsIndex readThreadFile writeThreadFile.
Definition renameThread :=
  Store.renameThread readThreadsIndex writeThreadsIndex readThreadFile writeThreadFile.
Definition archiveThread :=
  Store.archiveThread readThreadsIndex writeThreadsIndex readThreadFile writeThreadFile.
Definition deleteThread :=
  Store.deleteThread CHAT_DIR_NAME readThreadsIndex writeThreadsIndex.
Definition clearMessages :=
  Store.clearMessages readThreadsIndex writeThreadsIndex readThreadFile writeThreadFile.

End WithHost.
End Encoded.

(** ** The revision that stores ciphertext (imports chat-encryption); it
       has no [clearMessages] *)

Module Encrypted.
Section WithHost.
Context `{Host} `{Crypto}.
Local Open Scope eff_scope.

Definition CHAT_DIR_NAME : jsstring := lit ".blinky".

Definition getThreadsIndexPath := Store.getThreadsIndexPath CHAT_DIR_NAME.
Definition getThreadFilePath := Store.getThreadFilePath CHAT_DIR_NAME.

Definition encrypt (data projectRoot : jsstring) : M jsstring :=
  iv <- crypto_randomBytes ChatEncryption.IV_LENGTH;;
  ret (ChatEncryption.encryptChatData iv data projectRoot).

Definition decrypt (content projectRoot : jsstring) : M jsstring :=
  match ChatEncryption.decryptChatData content projectRoot with
  | inl decrypted => ret decrypted
  | inr message => throw (JsError message)
  end.

Definition readThreadsIndex (projectRoot : jsstring) : M ThreadsIndex :=
  let indexPath := getThreadsIndexPath projectRoot in
  try_catch
    (content <- fs_readFile indexPath;;
     decryptedContent <-
       (if ChatEncryption.isEncrypted content then
          try_catch (decrypt content projectRoot)
            (fun decryptError =>
               logger_error (lit "Failed to decrypt threads index: " ++ indexPath);;
               throw (ReadFailed
                        (lit "Failed to decrypt threads index: " ++ message_of decryptError)
                        indexPath))
        else
          try_catch
            (encrypted <- encrypt content projectRoot;;
             fs_writeFile indexPath encrypted)
            (fun migrateError =>
               logger_warn (lit "Failed to migrate threads index to encrypted format: "
                            ++ indexPath));;
          ret content);;
     Store.parse_index decryptedContent)
    (fun error =>
       if is_ENOENT error then ret Store.empty_index
       else
         logger_error (lit "Failed to read threads index: " ++ indexPath);;
         throw (ReadFailed (lit "Failed to read threads index: " ++ message_of error)
                  indexPath)).

Definition writeThreadsIndex (projectRoot : jsstring) (index : ThreadsIndex) : M unit :=
  let indexPath := getThreadsIndexPath projectRoot in
  try_catch
    (let jsonContent := JSON_stringify_index index in
     encrypted <- encrypt jsonContent projectRoot;;
     fs_writeFile indexPath encrypted)
    (fun error =>
       logger_error (lit "Failed to write threads index: " ++ indexPath);;
       throw (WriteFailed (lit "Failed to write threads index: " ++ message_of error)
                indexPath)).

Definition readThreadFile (projectRoot threadId : jsstring) : M Thread :=
  let threadPath := getThreadFilePath projectRoot threadId in
  try_catch
    (content <- fs_readFile threadPath;;
     decryptedContent <-
       (if ChatEncryption.isEncrypted content then
          try_catch (decrypt content projectRoot)
            (fun decryptError =>
               logger_error (lit "Failed to decrypt thread file: " ++ threadPath);;
               throw (ReadFailed
                        (lit "Failed to decrypt thread: " ++ message_of decryptError)
                        threadPath))
        else
          try_catch
            (encrypted <- encrypt content projectRoot;;
             fs_writeFile threadPath encrypted)
            (fun migrateError =>
               logger_warn (lit "Failed to migrate thread file to encrypted format: "
                            ++ threadPath));;
          ret content);;
     Store.parse_thread decryptedContent)
    (fun error =>
       if is_ENOENT error then
         throw (NotFound (lit "Thread not found: " ++ threadId) threadId)
       else if is_ReadFailed error then throw error
       else
         logger_error (lit "Failed to read thread file: " ++ threadPath);;
         throw (ReadFailed (lit "Failed to read thread: " ++ message_of error)
                  threadPath)).

Definition writeThreadFile (projectRoot : jsstring) (thread : Thread) : M unit :=
  let threadPath := getThreadFilePath projectRoot (id thread) in
  try_catch
    (let jsonContent := JSON_stringify_thread thread in
     encrypted <- encrypt jsonContent projectRoot;;
     fs_writeFile threadPath encrypted)
    (fun error =>
       logger_error (lit "Failed to write thread file: " ++ threadPath);;
       throw (WriteFailed (lit "Failed to write thread: " ++ message_of error)
                threadPath)).

Definition listThreads := Store.listThreads readThreadsIndex.
Definition createThread :=
  Store.createThread CHAT_DIR_NAME readThreadsIndex writeThreadsIndex writeThreadFile.
Definition getThread := Store.getThread readThreadFile.
Definition appendMessage :=
  Store.appendMessage readThreadsIndex writeThreadsIndex readThreadFile writeThreadFile.
Definition renameThread :=
  Store.renameThread readThreadsIndex writeThreadsIndex readThreadFile writeThreadFile.
Definition archiveThread :=
  Store.archiveThread readThreadsIndex writeThreadsIndex readThreadFile writeThreadFile.
Definition deleteThread :=
  Store.deleteThread CHAT_DIR_NAME readThreadsIndex writeThreadsIndex.

End WithHost.
End Encrypted.

(** ** browser/widgets/chat/chat-history-service.ts *)

(** The client of the browser: it calls the service through a proxy, keeps
    the project root, the thread list and the active thread of the window,
    and tells its listeners about every change.  A call of the proxy is a
    computation on the world of the backend that returns or rejects.  The
    methods are run one at a time.  [renameThread] assigns to the title of
    the active thread, an object that listeners may hold from an earlier
    event; here the renamed thread is the value fired, and what listeners
    hold from before is not modelled. *)

Module Client.
Section WithService.
Context `{Host}.

Record Service := mkService {
  service_listThreads : jsstring -> M (list ThreadSummary);
  service_createThread : jsstring -> option ChatMessage -> M Thread;
  service_getThread : jsstring -> jsstring -> M Thread;
  service_appendMessage : jsstring -> jsstring -> ChatMessage -> M Thread;
  service_renameThread : jsstring -> jsstring -> jsstring -> M unit;
  service_archiveThread : jsstring -> jsstring -> M unit;
  service_deleteThread : jsstring -> jsstring -> M unit
}.

(** What the client lets out: the two emitters and the console. *)
Inductive notice :=
| ThreadsChanged (threads : list ThreadSummary)
| ActiveThreadChanged (thread : option Thread)
| Console (lvl : level) (message : jsstring).

Record State := mkState {
  currentProjectRoot : option jsstring;
  currentThreads : list ThreadSummary;
  activeThread : option Thread;
  notices : list notice
}.

(** A method of the client: it returns or rejects, and leaves a state of
    the client and a world of the backend behind. *)
Definition C (A : Type) : Type := State -> World -> (A + error) * State * World.

Definition c_ret {A} (a : A) : C A := fun st w => (inl a, st, w).

Definition c_throw {A} (e : error) : C A := fun st w => (inr e, st, w).

Definition c_bind {A B} (m : C A) (k : A -> C B) : C B :=
  fun st w =>
    match m st w with
    | (inl a, st', w') => k a st' w'
    | (inr e, st', w') => (inr e, st', w')
    end.

Definition c_try {A} (m : C A) (handler : error -> C A) : C A :=
  fun st w =>
    match m st w with
    | (inl a, st', w') => (inl a, st', w')
    | (inr e, st', w') => handler e st' w'
    end.

(** [await this.service.method(...)]. *)
Definition call {A} (m : M A) : C A :=
  fun st w => let '(r, w') := m w in (r, st, w').

Definition get : C State := fun st w => (inl st, st, w).

Definition tell (n : notice) : C unit :=
  fun st w =>
    (inl tt,
     mkState (currentProjectRoot st) (currentThreads st) (activeThread st)
       (notices st ++ [n]), w).

Definition set_listed (root : jsstring) (threads : list ThreadSummary) : C unit :=
  fun st w =>
    (inl tt, mkState (Some root) threads (activeThread st) (notices st), w).

Definition set_activeThread (thread : option Thread) : C unit :=
  fun st w =>
    (inl tt,
     mkState (currentProjectRoot st) (currentThreads st) thread (notices st), w).

End WithService.

Declare Scope client_scope.
Delimit Scope client_scope with client.
Notation "x <- m ;; k" := (c_bind m (fun x => k))
  (at level 100, m at next level, k at level 200, right associativity) : client_scope.
Notation "m ;; k" := (c_bind m (fun _ => k))
  (at level 100, k at level 200, right associativity) : client_scope.

Section Methods.
Context `{Host}.
Local Open Scope client_scope.

Variable service : Service.

(** [SketchesService.maybeLoadSketch] followed by [FileUri.fsPath] of the
    sketch it finds. *)
Variable maybeLoadSketch : jsstring -> M (option jsstring).

(** A string that is neither [undefined] nor empty. *)
Definition truthy (s : option jsstring) : option jsstring :=
  match s with
  | Some (c :: r) => Some (c :: r)
  | _ => None
  end.

Definition getCurrentEditorUri : option jsstring := None.

Definition resolveCurrentProjectRoot : C (option jsstring) :=
  c_try
    (match truthy getCurrentEditorUri with
     | Some currentEditor =>
         sketch <- call (maybeLoadSketch currentEditor);;
         match sketch with
         | Some path => c_ret (Some path)
         | None => c_ret None
         end
     | None => c_ret None
     end)
    (fun error =>
       tell (Console Warn (lit "Failed to determine project root:"));;
       c_ret None).

(** [projectRoot || await this.resolveCurrentProjectRoot()]. *)
Definition root_or_current (projectRoot : option jsstring) : C (option jsstring) :=
  match truthy projectRoot with
  | Some root => c_ret (Some root)
  | None => resolveCurrentProjectRoot
  end.

Definition listThreads (projectRoot : option jsstring) : C (list ThreadSummary) :=
  root <- root_or_current projectRoot;;
  match truthy root with
  | None => c_ret []
  | Some root =>
      c_try
        (threads <- call (service_listThreads service root);;
         set_listed root threads;;
         tell (ThreadsChanged threads);;
         c_ret threads)
        (fun error =>
           tell (Console Error (lit "Failed to list threads:"));;
           c_ret [])
  end.

Definition setActiveThread (thread : option Thread) : C unit :=
  set_activeThread thread;;
  tell (ActiveThreadChanged thread).

Definition createThread (projectRoot : option jsstring)
    (initialMessage : option ChatMessage) : C Thread :=
  root <- root_or_current projectRoot;;
  match truthy root with
  | None => c_throw (JsError (lit "Cannot create thread: no project root available"))
  | Some root =>
      thread <- call (service_createThread service root initialMessage);;
      listThreads (Some root);;
      setActiveThread (Some thread);;
      c_ret thread
  end.

Definition getThread (projectRoot threadId : jsstring) : C Thread :=
  call (service_getThread service projectRoot threadId).

(** [this.activeThread?.id === threadId]. *)
Definition is_active (st : State) (threadId : jsstring) : bool :=
  match activeThread st with
  | Some thread => str_eqb (id thread) threadId
  | None => false
  end.

Definition appendMessage (projectRoot threadId : jsstring) (message : ChatMessage)
  : C Thread :=
  thread <- call (service_appendMessage service projectRoot threadId message);;
  st <- get;;
  (if is_active st threadId
   then set_activeThread (Some thread);; tell (ActiveThreadChanged (Some thread))
   else c_ret tt);;
  listThreads (Some projectRoot);;
  c_ret thread.

Definition with_title (newTitle : jsstring) (thread : Thread) : Thread :=
  mkThread (projectRoot thread) (id thread) newTitle (createdAt thread)
    (updatedAt thread) (thread_status thread) (messages thread) (context thread).

Definition renameThread (projectRoot threadId newTitle : jsstring) : C unit :=
  call (service_renameThread service projectRoot threadId newTitle);;
  st <- get;;
  (if is_active st threadId
   then
     let renamed := with_title newTitle <$> activeThread st in
     set_activeThread renamed;; tell (ActiveThreadChanged renamed)
   else c_ret tt);;
  listThreads (Some projectRoot);;
  c_ret tt.

Definition archiveThread (projectRoot threadId : jsstring) : C unit :=
  call (service_archiveThread service projectRoot threadId);;
  st <- get;;
  (if is_active st threadId then setActiveThread None else c_ret tt);;
  listThreads (Some projectRoot);;
  c_ret tt.

Definition deleteThread (projectRoot threadId : jsstring) : C unit :=
  call (service_deleteThread service projectRoot threadId);;
  st <- get;;
  (if is_active st threadId then setActiveThread None else c_ret tt);;
  listThreads (Some projectRoot);;
  c_ret tt.

Definition loadThread (projectRoot threadId : jsstring) : C Thread :=
  thread <- getThread projectRoot threadId;;
  setActiveThread (Some thread);;
  c_ret thread.

Definition getActiveThread (st : State) : option Thread := activeThread st.

Definition getCurrentProjectRoot (st : State) : option jsstring := currentProjectRoot st.

Definition clearState : C unit :=
  fun st w =>
    (inl tt,
     mkState None [] None
       (notices st ++ [ThreadsChanged []; ActiveThreadChanged None]), w).

(** The client as it is constructed. *)
Definition initial : State := mkState None [] None [].

End Methods.
End Client.

(** ** browser/widgets/chat/chat-widget.tsx: the serial monitor buffer

    The widget keeps the messages of the serial monitor in an array and
    cuts it at the front after every batch. *)

Module ChatWidget.
Local Open Scope Z_scope.

Definition SERIAL_BUFFER_MAX_CHARS : Z := 8000.

(** [buffer.reduce((acc, m) => acc + m.length, 0)]. *)
Definition total_length (buffer : list jsstring) : Z :=
  fold_left (fun acc m => acc + Z.of_nat (length m)) buffer 0.

(** The loop of [truncateSerialBuffer]: messages leave at the front while
    there is one and the count is over the limit. *)
Fixpoint shift_while (buffer : list jsstring) (total : Z) : list jsstring :=
  match buffer with
  | [] => []
  | removed :: rest =>
      if SERIAL_BUFFER_MAX_CHARS <? total
      then shift_while rest (total - Z.of_nat (length removed))
      else buffer
  end.

Definition truncateSerialBuffer (buffer : list jsstring) : list jsstring :=
  let total := total_length buffer in
  if SERIAL_BUFFER_MAX_CHARS <? total then shift_while buffer total else buffer.

(** The listener of [onMessagesReceived]. *)
Definition onMessagesReceived (buffer messages : list jsstring) : list jsstring :=
  truncateSerialBuffer (buffer ++ messages).

(** The serial text of [getTerminalContext]. *)
Definition serialText (buffer : list jsstring) : option jsstring :=
  match buffer with
  | [] => None
  | _ => Some (concat buffer)
  end.

End ChatWidget.

(** * The vocabulary of the statements *)

Section Vocabulary.

(** [s.split(':').length === 3]. *)
Definition three_segments (s : jsstring) : bool := (length (split 58 s) =? 3)%nat.

(** The JSON text [{"a":1}]. *)
Definition sample_json : jsstring :=
  lit "{" ++ [34] ++ lit "a" ++ [34] ++ lit ":1}".

(** A well-formed JavaScript string: code units below 65536, every high
    surrogate followed by a low one and no other low surrogate.  These are
    the strings that have a UTF-8 encoding. *)
Fixpoint well_formed (s : jsstring) : bool :=
  match s with
  | [] => true
  | u :: s' =>
      if Buffer.is_high_surrogate u then
        match s' with
        | v :: s'' => Buffer.is_low_surrogate v && well_formed s''
        | [] => false
        end
      else negb (Buffer.is_low_surrogate u) && (u <? 65536) && well_formed s'
  end.

(** The numbers below [n]. *)
Definition below (n : nat) : list N := map N.of_nat (seq 0 n).

(** Whether a file-system call went through. *)
Definition succeeded (r : option errno) : bool :=
  match r with
  | None => true
  | Some _ => false
  end.

(** The events of a write-back: the [writeFile], and a warning when it
    failed. *)
Definition write_back_events (path data warning : jsstring) (r : option errno)
  : list event :=
  EvWriteFile path data (succeeded r) ::
  (if succeeded r then [] else [EvLog Warn warning]).

(** The content of [s] after its leading white space starts with an
    opening brace or bracket. *)
Definition opens_json (s : jsstring) : Prop :=
  exists blank c rest,
    s = blank ++ c :: rest /\ Forall (fun x => is_space x = true) blank /\
    (c = 123 \/ c = 91).

(** At the index [i] of [text] there is a full stop, an exclamation mark or
    a question mark, and white space right after it. *)
Definition sentence_break (text : jsstring) (i : nat) : Prop :=
  exists c d,
    text !! i = Some c /\ text !! S i = Some d /\
    (c = 46 \/ c = 33 \/ c = 63) /\ is_space d = true.

(** [sentence] is the first sentence of [text]: the text up to its first
    sentence break, or all of it when it has none. *)
Definition first_sentence_of (text sentence : jsstring) : Prop :=
  (sentence = text /\ forall i, ~ sentence_break text i) \/
  exists i,
    sentence_break text i /\ (forall j, (j < i)%nat -> ~ sentence_break text j) /\
    sentence = firstn i text.

End Vocabulary.

Section WorldVocabulary.
Context `{Host}.

(** The events a computation adds to the trace of the world it starts in. *)
Definition extends (w w' : World) : Prop :=
  exists evs, w_trace w' = w_trace w ++ evs.

(** The computation returns, leaving the world [w']. *)
Definition returns {A} (m : M A) (w w' : World) : Prop :=
  exists a, m w = (inl a, w').

(** The world after more events, on a possibly changed disk. *)
Definition after (w : World) (d : disk) (evs : list event) : World :=
  mkWorld d (w_trace w ++ evs) (w_tick w).

(** The text that the read functions hand to [JSON.parse]. *)
Definition decoded_text (content : jsstring) : jsstring :=
  if ChatEncoding.isEncoded content
  then Buffer.toString_utf8 (Buffer.from_base64 content)
  else content.

(** The write-back of a plain file: one [writeFile], and a warning when it
    fails. *)
Definition write_back (path content warning : jsstring) (w : World) : World :=
  let data := ChatEncoding.encodeChatData content in
  match writeFile (w_disk w) path data with
  | (d, None) => after w d [EvWriteFile path data true]
  | (d, Some _) => after w d [EvWriteFile path data false; EvLog Warn warning]
  end.

(** The base64 revision's world before parsing: only a plain file is
    written back. *)
Definition migrated (path content warning : jsstring) (w : World) : World :=
  if ChatEncoding.isEncoded content then w else write_back path content warning w.

(** The removal of a file that does not parse: an error in the log, one
    [unlink], and a warning that tells whether it succeeded. *)
Definition discard (path error deleted not_deleted : jsstring) (w : World) : World :=
  let w1 := after w (w_disk w) [EvLog Error error] in
  match unlink (w_disk w1) path with
  | (d, None) => after w1 d [EvUnlink path true; EvLog Warn deleted]
  | (d, Some _) => after w1 d [EvUnlink path false; EvLog Warn not_deleted]
  end.

(** What [readThreadsIndex] does when the read fails otherwise: it depends
    on the text of the error. *)
Definition recovered_index (path : jsstring) (w : World) : World :=
  match unlink (w_disk w) path with
  | (d, None) =>
      after w d
        [EvUnlink path true;
         EvLog Warn (lit "Deleted corrupted threads index after error, starting fresh: "
                     ++ path)]
  | (d, Some _) => after w d [EvUnlink path false]
  end.

(** The events of [w'] beyond those of [w] end with a successful write of a
    thread file, then [between], then a successful write of the index. *)
Definition thread_then_index (CHAT_DIR_NAME root : jsstring) (between : list event)
    (w w' : World) : Prop :=
  exists threadId before threadData indexData,
    w_trace w' = w_trace w ++ before
                 ++ [EvWriteFile (Store.getThreadFilePath CHAT_DIR_NAME root threadId)
                       threadData true]
                 ++ between
                 ++ [EvWriteFile (Store.getThreadsIndexPath CHAT_DIR_NAME root)
                       indexData true].

(** The events of [w'] beyond those of [w] end with a successful write of
    the index, then the [unlink] of the thread file, then at most a
    warning. *)
Definition index_then_unlink (CHAT_DIR_NAME root threadId : jsstring) (w w' : World)
  : Prop :=
  exists before indexData ok rest,
    w_trace w' = w_trace w ++ before
                 ++ [EvWriteFile (Store.getThreadsIndexPath CHAT_DIR_NAME root)
                       indexData true;
                     EvUnlink (Store.getThreadFilePath CHAT_DIR_NAME root threadId) ok]
                 ++ rest
    /\ (rest = [] \/ exists notice, rest = [EvLog Warn notice]).

End WorldVocabulary.

Section SealedVocabulary.
Context `{Host} `{Crypto}.

(** The write-back of a plain file: a nonce is drawn, the ciphertext is
    written, and a warning is logged when the write fails. *)
Definition sealed_back (path content projectRoot warning : jsstring) (w : World)
  : World :=
  let data :=
    ChatEncryption.encryptChatData (randomBytes (w_tick w) ChatEncryption.IV_LENGTH)
      content projectRoot in
  match writeFile (w_disk w) path data with
  | (d, None) => mkWorld d (w_trace w ++ [EvWriteFile path data true]) (S (w_tick w))
  | (d, Some _) =>
      mkWorld d (w_trace w ++ [EvWriteFile path data false; EvLog Warn warning])
        (S (w_tick w))
  end.

(** The text that the ciphertext revision hands to [JSON.parse], or the
    message of the error that decryption throws. *)
Definition decrypted_text (content projectRoot : jsstring) : jsstring + jsstring :=
  if ChatEncryption.isEncrypted content
  then ChatEncryption.decryptChatData content projectRoot
  else inl content.

(** The ciphertext revision's world before parsing. *)
Definition sealed (path content root warning : jsstring) (w : World) : World :=
  if ChatEncryption.isEncrypted content then w
  else sealed_back path content root warning w.

End SealedVocabulary.

(** ** Further vocabulary: codecs, order, rewrites, failures, client *)

Section CodecVocabulary.

(** What the decoder may hold between two bytes of a sequence. *)
Definition pending_ok (p : Buffer.pending) : Prop :=
  128 <= Buffer.lower p /\ Buffer.upper p <= 191 /\
  match Buffer.needed p with
  | 0%nat => 2 <= Buffer.cp p <= 17407 /\ ~ (864 <= Buffer.cp p <= 895)
  | 1%nat =>
      (Buffer.cp p <= 15 /\ (Buffer.cp p = 0 -> 160 <= Buffer.lower p)
       /\ (Buffer.cp p = 13 -> Buffer.upper p <= 159))
      \/ 16 <= Buffer.cp p <= 271
  | 2%nat =>
      Buffer.cp p <= 4 /\ (Buffer.cp p = 0 -> 144 <= Buffer.lower p)
      /\ (Buffer.cp p = 4 -> Buffer.upper p <= 143)
  | _ => False
  end.

(** A code unit that is neither white space nor an opening brace or
    bracket. *)
Definition plain (c : N) : Prop := is_space c = false /\ c <> 123 /\ c <> 91.

End CodecVocabulary.

Section OrderVocabulary.
Context `{Host}.

(** [new Date(s.updatedAt).getTime()]. *)
Definition updated (s : ThreadSummary) : option Z := Date_getTime (sum_updatedAt s).

(** Every [updatedAt] is a date. *)
Definition dated (l : list ThreadSummary) : Prop := Forall (fun s => is_Some (updated s)) l.

Definition not_older (a b : ThreadSummary) : Prop :=
  match updated a, updated b with
  | Some ta, Some tb => (tb <= ta)%Z
  | _, _ => False
  end.

Definition most_recent_first (l : list ThreadSummary) : Prop := StronglySorted not_older l.

(** The summaries updated at the time [t], in the order of [l]. *)
Definition updated_at (t : Z) (l : list ThreadSummary) : list ThreadSummary :=
  filter (fun s => updated s = Some t) l.

(** [l] lists the summaries [stored]: it has the same summaries, and when
    each of them has a date, the most recent comes first and summaries of
    the same date keep the order they are stored in. *)
Definition listing (l stored : list ThreadSummary) : Prop :=
  Permutation l stored /\
  (dated stored ->
   most_recent_first l /\ forall t, updated_at t l = updated_at t stored).

End OrderVocabulary.

Section OpsVocabulary.
Context `{Host}.

(** The world once the clock or a source of randomness has been read. *)
Definition ticked (w : World) : World :=
  mkWorld (w_disk w) (w_trace w) (S (w_tick w)).

(** The computation throws [e], leaving the world [w']. *)
Definition throws {A} (m : M A) (e : error) (w w' : World) : Prop :=
  m w = (inr e, w').

(** How each revision stores a text: its base64 text, or its ciphertext
    under the project root and some nonce. *)
Definition holds_encoded (text data : jsstring) : Prop :=
  data = ChatEncoding.encodeChatData text.

Definition holds_encrypted `{Crypto} (root text data : jsstring) : Prop :=
  exists iv, data = ChatEncryption.encryptChatData iv text root.

(** The event is a [writeFile] of [path] with [text] in stored form. *)
Definition wrote (holds : jsstring -> jsstring -> Prop) (path text : jsstring)
    (ok : bool) (ev : event) : Prop :=
  exists data, holds text data /\ ev = EvWriteFile path data ok.

(** [l'] is [l] with at most one summary replaced: the first one whose id
    is [threadId], by [change] of it. *)
Definition one_summary_changed (threadId : jsstring)
    (change : ThreadSummary -> ThreadSummary) (l l' : list ThreadSummary) : Prop :=
  (Forall (fun s => sum_id s <> threadId) l /\ l' = l) \/
  exists before s after,
    l = before ++ s :: after /\ l' = before ++ change s :: after /\
    Forall (fun s => sum_id s <> threadId) before /\ sum_id s = threadId.

End OpsVocabulary.

Section MutationVocabulary.
Context `{Host}.

(** What no operation changes in a thread. *)
Definition kept (stored thread : Thread) : Prop :=
  projectRoot thread = projectRoot stored /\ id thread = id stored /\
  createdAt thread = createdAt stored /\ context thread = context stored.

(** An operation that reads the thread [threadId] and the index, and then
    writes both: the thread written is the stored one with a new
    [updatedAt] and with [change]; it goes to the file named after the id
    found in the stored thread; the index written is the one read with
    [summary] applied to the first summary of that thread, if there is
    one; the two writes are the last two events. *)
Definition rewritten
    (readThreadFile : jsstring -> jsstring -> M Thread)
    (readThreadsIndex : jsstring -> M ThreadsIndex)
    (holds : jsstring -> jsstring -> Prop) (dir resolved threadId : jsstring)
    (change : Thread -> Thread -> Prop)
    (summary : jsstring -> ThreadSummary -> ThreadSummary) (w w' : World) : Prop :=
  exists stored w1 index0 w2 thread index tev iev,
    readThreadFile resolved threadId w = (inl stored, w1) /\
    readThreadsIndex resolved (ticked w1) = (inl index0, w2) /\
    kept stored thread /\ updatedAt thread = toISOString_now (w_tick w1) /\
    change stored thread /\
    one_summary_changed threadId (summary (updatedAt thread))
      (threads index0) (threads index) /\
    w_trace w' = w_trace w2 ++ [tev; iev] /\
    wrote holds (Store.getThreadFilePath dir resolved (id stored))
      (JSON_stringify_thread thread) true tev /\
    wrote holds (Store.getThreadsIndexPath dir resolved)
      (JSON_stringify_index index) true iev.

(** What each operation changes in the thread it rewrites and in the
    summary of that thread. *)
Definition appended (message : ChatMessage) (returned stored written : Thread) : Prop :=
  written = returned /\ messages written = messages stored ++ [message] /\
  title written = title stored /\ thread_status written = thread_status stored.

Definition appended_summary (message : ChatMessage) (now : jsstring) (s : ThreadSummary)
  : ThreadSummary :=
  mkThreadSummary (sum_id s) (sum_title s) (sum_createdAt s) now (sum_status s)
    (Some (firstn 100 (msg_content message))).

Definition renamed (newTitle : jsstring) (stored written : Thread) : Prop :=
  title written = newTitle /\ messages written = messages stored /\
  thread_status written = thread_status stored.

Definition renamed_summary (newTitle now : jsstring) (s : ThreadSummary) : ThreadSummary :=
  mkThreadSummary (sum_id s) newTitle (sum_createdAt s) now (sum_status s)
    (sum_lastMessagePreview s).

Definition put_away (stored written : Thread) : Prop :=
  thread_status written = archived /\ messages written = messages stored /\
  title written = title stored.

Definition put_away_summary (now : jsstring) (s : ThreadSummary) : ThreadSummary :=
  mkThreadSummary (sum_id s) (sum_title s) (sum_createdAt s) now archived
    (sum_lastMessagePreview s).

Definition cleared (returned stored written : Thread) : Prop :=
  written = returned /\ messages written = [] /\
  title written = title stored /\ thread_status written = thread_status stored.

Definition cleared_summary (now : jsstring) (s : ThreadSummary) : ThreadSummary :=
  mkThreadSummary (sum_id s) (sum_title s) (sum_createdAt s) now (sum_status s) None.

End MutationVocabulary.

Section EdgeVocabulary.
Context `{Host}.

(** The error of an operation that finds no project root. *)
Definition no_project_root : error :=
  InvalidProjectRoot
    (lit "Could not determine project root. Please open a sketch or provide a project root.")
    (lit "unknown").

(** What [deleteThread] logs after the [unlink] of the thread file. *)
Definition unlink_notices (path : jsstring) (r : option errno) : list event :=
  match r with
  | None => []
  | Some e =>
      if is_ENOENT (of_errno e) then []
      else [EvLog Warn (lit "Failed to delete thread file: " ++ path)]
  end.

End EdgeVocabulary.

Section DeleteVocabulary.
Context `{Host}.

(** [deleteThread] on the index [index0]: the index without the summaries
    of [threadId] is written as [data], the thread file is unlinked, and
    the call returns whatever the [unlink] did. *)
Definition removed (deleteThread : M unit) (path data threadPath : jsstring)
    (w1 : World) (w : World) : Prop :=
  snd (writeFile (w_disk w1) path data) = None ->
  let d2 := fst (writeFile (w_disk w1) path data) in
  exists w',
    deleteThread w = (inl tt, w') /\
    w_disk w' = fst (unlink d2 threadPath) /\
    w_trace w' = w_trace w1
                 ++ [EvWriteFile path data true;
                     EvUnlink threadPath (succeeded (snd (unlink d2 threadPath)))]
                 ++ unlink_notices threadPath (snd (unlink d2 threadPath)).

End DeleteVocabulary.

Section CreateVocabulary.
Context `{Host}.

(** The summary that [createThread] adds to the index. *)
Definition summary_of (thread : Thread) (initialMessage : option ChatMessage)
  : ThreadSummary :=
  mkThreadSummary (id thread) (title thread) (createdAt thread) (updatedAt thread) active
    ((fun m => firstn 100 (msg_content m)) <$> initialMessage).

(** [createThread] returned [thread]: a new active thread of the resolved
    root, named and dated by the draws at the two ticks of the call, with
    the initial message if there is one; the directory was made, the thread
    file written, then the index read and written with one more summary at
    its end. *)
Definition created (readThreadsIndex : jsstring -> M ThreadsIndex)
    (holds : jsstring -> jsstring -> Prop) (dir resolved : jsstring)
    (initialMessage : option ChatMessage) (thread : Thread) (w w' : World) : Prop :=
  projectRoot thread = resolved /\ id thread = randomUUID (w_tick w) /\
  createdAt thread = toISOString_now (S (w_tick w)) /\
  updatedAt thread = createdAt thread /\ thread_status thread = active /\
  messages thread = match initialMessage with Some m => [m] | None => [] end /\
  context thread = None /\
  exists tev w1 index0 w2 iev,
    w_trace w1 = w_trace w ++ [EvMkdir (Store.getChatHistoryDir dir resolved) true; tev] /\
    wrote holds (Store.getThreadFilePath dir resolved (id thread))
      (JSON_stringify_thread thread) true tev /\
    readThreadsIndex resolved w1 = (inl index0, w2) /\
    w_trace w' = w_trace w2 ++ [iev] /\
    wrote holds (Store.getThreadsIndexPath dir resolved)
      (JSON_stringify_index
         (mkThreadsIndex (threads index0 ++ [summary_of thread initialMessage])))
      true iev.

End CreateVocabulary.

Section FailureVocabulary.
Context `{Host}.

(** A [WriteFailed] for [path] out of an operation that rewrites a thread
    and the index: either the write of the thread file failed, and that is
    the last the operation did to the disk, or the thread file was written
    and the write of the index failed right after. *)
Definition write_failed (dir resolved path : jsstring) (w w' : World) : Prop :=
  exists before threadId data,
    (path = Store.getThreadFilePath dir resolved threadId /\
     w_trace w' = w_trace w ++ before
                  ++ [EvWriteFile path data false;
                      EvLog Error (lit "Failed to write thread file: " ++ path)]) \/
    (exists written,
        path = Store.getThreadsIndexPath dir resolved /\
        w_trace w' = w_trace w ++ before
                     ++ [EvWriteFile (Store.getThreadFilePath dir resolved threadId)
                           written true;
                         EvWriteFile path data false;
                         EvLog Error (lit "Failed to write threads index: " ++ path)]).

(** The same for [createThread], which makes the directory first and reads
    the index between the two writes. *)
Definition create_failed (dir resolved path : jsstring) (w w' : World) : Prop :=
  let chatDir := Store.getChatHistoryDir dir resolved in
  let threadPath := Store.getThreadFilePath dir resolved (randomUUID (w_tick w)) in
  (path = chatDir /\
   w_trace w' = w_trace w
                ++ [EvMkdir chatDir false;
                    EvLog Error (lit "Failed to create chat history directory: "
                                 ++ chatDir)]) \/
  (exists data,
      path = threadPath /\
      w_trace w' = w_trace w
                   ++ [EvMkdir chatDir true; EvWriteFile path data false;
                       EvLog Error (lit "Failed to write thread file: " ++ path)]) \/
  (exists written between data,
      path = Store.getThreadsIndexPath dir resolved /\
      w_trace w' = w_trace w
                   ++ [EvMkdir chatDir true; EvWriteFile threadPath written true]
                   ++ between
                   ++ [EvWriteFile path data false;
                       EvLog Error (lit "Failed to write threads index: " ++ path)]).

End FailureVocabulary.

Section RoundTripVocabulary.
Context `{Host}.

(** On the disk [d], the file [path] reads as [data] once [data] has been
    written to it. *)
Definition reads_as_written (d : disk) (path data : jsstring) : Prop :=
  readFile (fst (writeFile d path data)) path = inl data.

(** A nonce as [randomBytes(16)] returns it. *)
Definition nonce (iv : bytes) : Prop :=
  length iv = ChatEncryption.IV_LENGTH /\ Forall (fun x => x < 256) iv.

End RoundTripVocabulary.

Section LegacyVocabulary.
Context `{Host}.

(** The messages of the branch that handles a failure of
    [decodeChatData]: the error logs start with [Failed to decode], the
    warning and the error thrown with [Legacy encrypted]. *)
Definition reports_decode_failure (message : jsstring) : bool :=
  startsWith message (lit "Failed to decode")
  || startsWith message (lit "Legacy encrypted").

Definition logs_decode_failure (ev : event) : bool :=
  match ev with
  | EvLog _ message => reports_decode_failure message
  | _ => false
  end.

(** Between [w] and [w'] no decode failure was logged. *)
Definition silent (w w' : World) : Prop :=
  exists evs, w_trace w' = w_trace w ++ evs /\
              forallb (fun ev => negb (logs_decode_failure ev)) evs = true.

(** No decode failure was logged, and none is thrown in [r]. *)
Definition no_decode_failure {A} (r : A + error) (w w' : World) : Prop :=
  silent w w' /\
  forall e, r = inr e -> reports_decode_failure (message_of e) = false.

End LegacyVocabulary.

Section ClientVocabulary.
Context `{Host}.
Import Client.

(** What a listener of the two events has been told last. *)
Definition told_threads (ns : list notice) : list ThreadSummary :=
  fold_left (fun acc n => match n with ThreadsChanged l => l | _ => acc end) ns [].

Definition told_thread (ns : list notice) : option Thread :=
  fold_left (fun acc n => match n with ActiveThreadChanged t => t | _ => acc end) ns None.

(** The client holds what it told its listeners last. *)
Definition in_step (st : State) : Prop :=
  currentThreads st = told_threads (notices st) /\
  activeThread st = told_thread (notices st).

(** The refresh of the list for [projectRoot], from [st1] and [w1]: no call
    without a root, the list of the service when it answers, and the old
    list with a line on the console when it rejects. *)
Definition refreshed (service : Service) (projectRoot : jsstring)
    (st1 : State) (w1 : World) (threads : list ThreadSummary)
    (st' : State) (w' : World) : Prop :=
  activeThread st' = activeThread st1 /\
  match projectRoot with
  | [] => threads = [] /\ st' = st1 /\ w' = w1
  | _ =>
      exists r, service_listThreads service projectRoot w1 = (r, w') /\
        match r with
        | inl listed =>
            threads = listed /\
            currentProjectRoot st' = Some projectRoot /\
            currentThreads st' = listed /\
            notices st' = notices st1 ++ [ThreadsChanged listed]
        | inr _ =>
            threads = [] /\
            currentProjectRoot st' = currentProjectRoot st1 /\
            currentThreads st' = currentThreads st1 /\
            notices st' =
              notices st1 ++ [Console Error (lit "Failed to list threads:")]
        end
  end.

(** The active thread becomes [thread] where the call was about it: the
    listeners are told so, and nothing else of the client changes. *)
Definition active_updated (threadId : jsstring) (thread : option Thread)
    (st st1 : State) : Prop :=
  currentProjectRoot st1 = currentProjectRoot st /\
  currentThreads st1 = currentThreads st /\
  if is_active st threadId
  then activeThread st1 = thread /\
       notices st1 = notices st ++ [ActiveThreadChanged thread]
  else activeThread st1 = activeThread st /\ notices st1 = notices st.

End ClientVocabulary.

(** * Instances to run the model on *)

Ltac Zify.zify_post_hook ::= Z.to_euclidean_division_equations.

(** ** A stand-in for node:crypto

    A byte-wise additive mask with a checksum tag: it satisfies the laws of
    [Crypto] and serves to run the operations on concrete inputs.  The
    theorems below hold for every [Crypto]. *)

Module Sample.

Definition stream (seed : list N) (n : nat) : bytes :=
  map (fun i => nth i seed 0 mod 256) (seq 0 n).

Definition total (l : list N) : N := fold_right N.add 0 l.

Definition mask (key iv : bytes) : N := (total key + total iv) mod 256.

Definition tag_of (key iv encrypted : bytes) : bytes :=
  repeat ((mask key iv + total encrypted) mod 256) 16.

Definition seal (key iv data : bytes) : bytes * bytes :=
  let encrypted := map (fun d => (d + mask key iv) mod 256) data in
  (encrypted, tag_of key iv encrypted).

Definition open (key iv tag encrypted : bytes) : bytes + jsstring :=
  if bool_decide (tag = tag_of key iv encrypted)
  then inl (map (fun c => (c + 256 - mask key iv) mod 256) encrypted)
  else inr (lit "Unsupported state or unable to authenticate data").

#[export] Instance crypto : Crypto.
Proof.
  refine {| pbkdf2Sync password salt iterations keylen := stream (password ++ salt) keylen;
            gcm_seal := seal;
            gcm_open := open;
            pbkdf2Sync_length := _;
            gcm_open_seal := _;
            pbkdf2Sync_bytes := _;
            gcm_seal_bytes := _ |}.
  - intros password salt iterations keylen. unfold stream.
    now rewrite length_map, length_seq.
  - intros key iv data _ _ _ _ Hd. unfold open, seal. cbn [fst snd].
    rewrite bool_decide_eq_true_2 by reflexivity. f_equal.
    rewrite map_map. rewrite <- (map_id data) at 2.
    apply map_ext_Forall. eapply Forall_impl; [exact Hd|].
    intros d Hlt. cbv beta in Hlt |- *. unfold mask.
    set (m := (total key + total iv) mod 256).
    assert (m < 256) by (subst m; apply N.mod_lt; discriminate).
    clearbody m. lia.
  - intros password salt iterations keylen. apply Forall_forall. intros x Hx.
    apply list_elem_of_In, in_map_iff in Hx as (i & <- & _).
    apply N.mod_lt. discriminate.
  - intros key iv data. unfold seal, tag_of. cbn [fst snd]. split.
    + apply Forall_forall. intros x Hx.
      apply list_elem_of_In, in_map_iff in Hx as (d & <- & _).
      apply N.mod_lt. discriminate.
    + apply Forall_forall. intros x Hx.
      apply list_elem_of_In, repeat_spec in Hx. subst x.
      apply N.mod_lt. discriminate.
Defined.

End Sample.

(** ** A host to run the store on

    An in-memory file system (regular files with read and write permission,
    directories), POSIX-style paths that are already normal, and JSON with a
    parser and a printer for the two documents of the store.  A file that is
    not writable cannot be unlinked either.  A JSON text of another shape
    than the document asked for is rejected, where [JSON.parse] would return
    it untyped.  The theorems below hold for every [Host]; this one serves
    to run the operations on concrete inputs. *)

Module SampleHost.

Inductive node :=
| File (content : jsstring) (readable writable : bool)
| Directory.

Definition failure (code description syscall path : jsstring) : errno :=
  mkErrno code
    (code ++ lit ": " ++ description ++ lit ", " ++ syscall ++ lit " '" ++ path ++ lit "'").

Definition ENOENT := failure (lit "ENOENT") (lit "no such file or directory").
Definition EACCES := failure (lit "EACCES") (lit "permission denied").
Definition EISDIR := failure (lit "EISDIR") (lit "illegal operation on a directory").
Definition EPERM := failure (lit "EPERM") (lit "operation not permitted").
Definition EEXIST := failure (lit "EEXIST") (lit "file already exists").

Fixpoint drop_segment (reversed : jsstring) : jsstring :=
  match reversed with
  | [] => []
  | c :: r => if c =? 47 then r else drop_segment r
  end.

Definition dirname (path : jsstring) : jsstring := rev (drop_segment (rev path)).

Definition sample_readFile (d : gmap (list N) node) (path : jsstring) : jsstring + errno :=
  match d !! path with
  | None => inr (ENOENT (lit "open") path)
  | Some Directory => inr (EISDIR (lit "read") path)
  | Some (File content readable _) =>
      if readable then inl content else inr (EACCES (lit "open") path)
  end.

Definition sample_writeFile (d : gmap (list N) node) (path data : jsstring)
  : gmap (list N) node * option errno :=
  match d !! path with
  | Some Directory => (d, Some (EISDIR (lit "open") path))
  | Some (File _ readable writable) =>
      if writable then (<[path := File data readable writable]> d, None)
      else (d, Some (EACCES (lit "open") path))
  | None =>
      match d !! dirname path with
      | Some Directory => (<[path := File data true true]> d, None)
      | _ => (d, Some (ENOENT (lit "open") path))
      end
  end.

Definition sample_unlink (d : gmap (list N) node) (path : jsstring)
  : gmap (list N) node * option errno :=
  match d !! path with
  | None => (d, Some (ENOENT (lit "unlink") path))
  | Some Directory => (d, Some (EPERM (lit "unlink") path))
  | Some (File _ _ writable) =>
      if writable then (delete path d, None)
      else (d, Some (EPERM (lit "unlink") path))
  end.

Definition sample_mkdir (d : gmap (list N) node) (path : jsstring)
  : gmap (list N) node * option errno :=
  match d !! path with
  | Some (File _ _ _) => (d, Some (EEXIST (lit "mkdir") path))
  | _ => (<[path := Directory]> d, None)
  end.

Fixpoint join (sep : jsstring) (parts : list jsstring) : jsstring :=
  match parts with
  | [] => []
  | [p] => p
  | p :: rest => p ++ sep ++ join sep rest
  end.

(** *** JSON *)

Set Warnings "-register-all".

Inductive json :=
| JNull
| JBool (b : bool)
| JNumber (text : jsstring)
| JString (s : jsstring)
| JArray (items : list json)
| JObject (members : list (jsstring * json)).

Definition is_json_space (c : N) : bool :=
  (c =? 32) || (c =? 9) || (c =? 10) || (c =? 13).

Fixpoint skip_space (s : jsstring) : jsstring :=
  match s with
  | c :: r => if is_json_space c then skip_space r else s
  | [] => []
  end.

Definition hex_value (c : N) : option N :=
  if (48 <=? c) && (c <=? 57) then Some (c - 48)
  else if (97 <=? c) && (c <=? 102) then Some (c - 87)
  else if (65 <=? c) && (c <=? 70) then Some (c - 55)
  else None.

Definition hex4 (a b c d : N) : option N :=
  match hex_value a, hex_value b, hex_value c, hex_value d with
  | Some x, Some y, Some z, Some t => Some (((x * 16 + y) * 16 + z) * 16 + t)
  | _, _, _, _ => None
  end.

Definition unescape (c : N) : option N :=
  if (c =? 34) || (c =? 92) || (c =? 47) then Some c
  else if c =? 98 then Some 8
  else if c =? 102 then Some 12
  else if c =? 110 then Some 10
  else if c =? 114 then Some 13
  else if c =? 116 then Some 9
  else None.

(** The rest of a string literal after its opening quote. *)
Fixpoint string_body (s acc : jsstring) : option (jsstring * jsstring) :=
  match s with
  | [] => None
  | c :: r =>
      if c =? 34 then Some (rev acc, r)
      else if c =? 92 then
        match r with
        | e :: r' =>
            if e =? 117 then
              match r' with
              | h1 :: h2 :: h3 :: h4 :: r'' =>
                  match hex4 h1 h2 h3 h4 with
                  | Some u => string_body r'' (u :: acc)
                  | None => None
                  end
              | _ => None
              end
            else
              match unescape e with
              | Some u => string_body r' (u :: acc)
              | None => None
              end
        | [] => None
        end
      else if c <? 32 then None
      else string_body r (c :: acc)
  end.

Definition is_digit (c : N) : bool := (48 <=? c) && (c <=? 57).

Fixpoint digits (s : jsstring) : jsstring * jsstring :=
  match s with
  | c :: r => if is_digit c then let '(d, r') := digits r in (c :: d, r') else ([], s)
  | [] => ([], [])
  end.

Definition number (s : jsstring) : option (jsstring * jsstring) :=
  let '(sign, s1) := match s with 45 :: r => ([45], r) | _ => ([], s) end in
  let '(whole, s2) := digits s1 in
  match whole with
  | [] => None
  | 48 :: _ :: _ => None
  | _ =>
      let fraction :=
        match s2 with
        | 46 :: r => let '(f, r') := digits r in
                     match f with [] => None | _ => Some (46 :: f, r') end
        | _ => Some ([], s2)
        end in
      match fraction with
      | None => None
      | Some (f, s3) =>
          match s3 with
          | e :: r =>
              if (e =? 101) || (e =? 69) then
                let '(esign, r1) :=
                  match r with
                  | c :: r' => if (c =? 43) || (c =? 45) then ([c], r') else ([], r)
                  | [] => ([], r)
                  end in
                let '(x, r2) := digits r1 in
                match x with
                | [] => None
                | _ => Some (sign ++ whole ++ f ++ [e] ++ esign ++ x, r2)
                end
              else Some (sign ++ whole ++ f, s3)
          | [] => Some (sign ++ whole ++ f, s3)
          end
      end
  end.

Fixpoint value (fuel : nat) (s : jsstring) : option (json * jsstring) :=
  match fuel with
  | O => None
  | S fuel =>
      match skip_space s with
      | 110 :: 117 :: 108 :: 108 :: r => Some (JNull, r)
      | 116 :: 114 :: 117 :: 101 :: r => Some (JBool true, r)
      | 102 :: 97 :: 108 :: 115 :: 101 :: r => Some (JBool false, r)
      | 34 :: r =>
          match string_body r [] with
          | Some (text, r') => Some (JString text, r')
          | None => None
          end
      | 91 :: r =>
          match skip_space r with
          | 93 :: r' => Some (JArray [], r')
          | _ => elements fuel r []
          end
      | 123 :: r =>
          match skip_space r with
          | 125 :: r' => Some (JObject [], r')
          | _ => members fuel r []
          end
      | rest =>
          match number rest with
          | Some (text, r) => Some (JNumber text, r)
          | None => None
          end
      end
  end
with elements (fuel : nat) (s : jsstring) (acc : list json) : option (json * jsstring) :=
  match fuel with
  | O => None
  | S fuel =>
      match value fuel s with
      | Some (v, r) =>
          match skip_space r with
          | 44 :: r' => elements fuel r' (v :: acc)
          | 93 :: r' => Some (JArray (rev (v :: acc)), r')
          | _ => None
          end
      | None => None
      end
  end
with members (fuel : nat) (s : jsstring) (acc : list (jsstring * json))
  : option (json * jsstring) :=
  match fuel with
  | O => None
  | S fuel =>
      match skip_space s with
      | 34 :: r =>
          match string_body r [] with
          | Some (key, r1) =>
              match skip_space r1 with
              | 58 :: r2 =>
                  match value fuel r2 with
                  | Some (v, r3) =>
                      match skip_space r3 with
                      | 44 :: r4 => members fuel r4 ((key, v) :: acc)
                      | 125 :: r4 => Some (JObject (rev ((key, v) :: acc)), r4)
                      | _ => None
                      end
                  | None => None
                  end
              | _ => None
              end
          | None => None
          end
      | _ => None
      end
  end.

Definition parse (text : jsstring) : option json :=
  match value (S (length text)) text with
  | Some (v, rest) => match skip_space rest with [] => Some v | _ => None end
  | None => None
  end.

Definition escape_char (c : N) : jsstring :=
  if c =? 34 then lit "\" ++ [34]
  else if c =? 92 then lit "\\"
  else if c =? 8 then lit "\b"
  else if c =? 12 then lit "\f"
  else if c =? 10 then lit "\n"
  else if c =? 13 then lit "\r"
  else if c =? 9 then lit "\t"
  else if c <? 32 then lit "\u00" ++ [Buffer.hex_digit (c / 16); Buffer.hex_digit c]
  else [c].

Definition quoted (s : jsstring) : jsstring := [34] ++ flat_map escape_char s ++ [34].

(** The text of a value without white space. *)
Fixpoint compact (v : json) : jsstring :=
  match v with
  | JNull => lit "null"
  | JBool true => lit "true"
  | JBool false => lit "false"
  | JNumber text => text
  | JString s => quoted s
  | JArray items =>
      lit "[" ++
      (fix go (l : list json) : jsstring :=
         match l with
         | [] => []
         | [x] => compact x
         | x :: r => compact x ++ lit "," ++ go r
         end) items ++ lit "]"
  | JObject ms =>
      lit "{" ++
      (fix go (l : list (jsstring * json)) : jsstring :=
         match l with
         | [] => []
         | [(k, x)] => quoted k ++ lit ":" ++ compact x
         | (k, x) :: r => quoted k ++ lit ":" ++ compact x ++ lit "," ++ go r
         end) ms ++ lit "}"
  end.

(** A later member of the same name wins, as in [JSON.parse]. *)
Fixpoint member (key : jsstring) (ms : list (jsstring * json)) : option json :=
  match ms with
  | [] => None
  | (k, v) :: rest =>
      match member key rest with
      | Some later => Some later
      | None => if str_eqb k key then Some v else None
      end
  end.

Definition text_member (key : string) (ms : list (jsstring * json)) : option jsstring :=
  match member (lit key) ms with
  | Some (JString s) => Some s
  | _ => None
  end.

Definition status_member (ms : list (jsstring * json)) : option status :=
  match text_member "status" ms with
  | Some s =>
      if str_eqb s (lit "active") then Some active
      else if str_eqb s (lit "archived") then Some archived
      else None
  | None => None
  end.

Definition role_member (ms : list (jsstring * json)) : option role :=
  match text_member "role" ms with
  | Some s =>
      if str_eqb s (lit "user") then Some user
      else if str_eqb s (lit "assistant") then Some assistant
      else if str_eqb s (lit "system") then Some system
      else None
  | None => None
  end.

Definition to_summary (v : json) : option ThreadSummary :=
  match v with
  | JObject ms =>
      match text_member "id" ms, text_member "title" ms, text_member "createdAt" ms,
            text_member "updatedAt" ms, status_member ms with
      | Some i, Some t, Some c, Some u, Some s =>
          Some (mkThreadSummary i t c u s (text_member "lastMessagePreview" ms))
      | _, _, _, _, _ => None
      end
  | _ => None
  end.

Definition to_message (v : json) : option ChatMessage :=
  match v with
  | JObject ms =>
      match text_member "id" ms, role_member ms, text_member "content" ms,
            text_member "createdAt" ms with
      | Some i, Some r, Some c, Some t =>
          Some (mkChatMessage i r c t (compact <$> member (lit "metadata") ms))
      | _, _, _, _ => None
      end
  | _ => None
  end.

Definition to_index (v : json) : option ThreadsIndex :=
  match v with
  | JObject ms =>
      match member (lit "threads") ms with
      | Some (JArray items) => mkThreadsIndex <$> mapM to_summary items
      | _ => None
      end
  | _ => None
  end.

Definition to_thread (v : json) : option Thread :=
  match v with
  | JObject ms =>
      match text_member "projectRoot" ms, text_member "id" ms, text_member "title" ms,
            text_member "createdAt" ms, text_member "updatedAt" ms, status_member ms,
            member (lit "messages") ms with
      | Some p, Some i, Some t, Some c, Some u, Some s, Some (JArray items) =>
          match mapM to_message items with
          | Some msgs =>
              Some (mkThread p i t c u s msgs (compact <$> member (lit "context") ms))
          | None => None
          end
      | _, _, _, _, _, _, _ => None
      end
  | _ => None
  end.

Definition syntax_error : jsstring := lit "Unexpected token in JSON".

Definition sample_parse {A} (convert : json -> option A) (text : jsstring)
  : A + jsstring :=
  match parse text with
  | Some v =>
      match convert v with
      | Some a => inl a
      | None => inr (lit "document of another shape")
      end
  | None => inr syntax_error
  end.

(** The printer: [JSON.stringify(value, null, 2)]. *)
Definition spaces (n : nat) : jsstring := repeat 32 n.

Definition print_object (indent : nat) (fields : list (string * jsstring)) : jsstring :=
  match fields with
  | [] => lit "{}"
  | _ =>
      lit "{" ++ [10] ++
      join (lit "," ++ [10])
        (map (fun '(k, v) => spaces (indent + 2) ++ quoted (lit k) ++ lit ": " ++ v)
           fields)
      ++ [10] ++ spaces indent ++ lit "}"
  end.

Definition print_array (indent : nat) (items : list jsstring) : jsstring :=
  match items with
  | [] => lit "[]"
  | _ =>
      lit "[" ++ [10] ++
      join (lit "," ++ [10]) (map (fun v => spaces (indent + 2) ++ v) items)
      ++ [10] ++ spaces indent ++ lit "]"
  end.

Definition field (key : string) (v : jsstring) : string * jsstring := (key, v).

Definition optional (key : string) (v : option jsstring) : list (string * jsstring) :=
  match v with
  | Some text => [(key, text)]
  | None => []
  end.

Definition print_status (s : status) : jsstring :=
  quoted (lit match s with active => "active" | archived => "archived" end).

Definition print_role (r : role) : jsstring :=
  quoted (lit match r with
              | user => "user" | assistant => "assistant" | system => "system"
              end).

Definition print_summary (indent : nat) (s : ThreadSummary) : jsstring :=
  print_object indent
    ([field "id" (quoted (sum_id s)); field "title" (quoted (sum_title s));
      field "createdAt" (quoted (sum_createdAt s)); field "updatedAt" (quoted (sum_updatedAt s));
      field "status" (print_status (sum_status s))]
     ++ optional "lastMessagePreview" (quoted <$> sum_lastMessagePreview s)).

Definition print_message (indent : nat) (m : ChatMessage) : jsstring :=
  print_object indent
    ([field "id" (quoted (msg_id m)); field "role" (print_role (msg_role m));
      field "content" (quoted (msg_content m)); field "createdAt" (quoted (msg_createdAt m))]
     ++ optional "metadata" (msg_metadata m)).

Definition print_index (index : ThreadsIndex) : jsstring :=
  print_object 0 [field "threads" (print_array 2 (map (print_summary 4) (threads index)))].

Definition print_thread (t : Thread) : jsstring :=
  print_object 0
    ([field "projectRoot" (quoted (projectRoot t)); field "id" (quoted (id t));
      field "title" (quoted (title t)); field "createdAt" (quoted (createdAt t));
      field "updatedAt" (quoted (updatedAt t)); field "status" (print_status (thread_status t));
      field "messages" (print_array 2 (map (print_message 4) (messages t)))]
     ++ optional "context" (context t)).

(** Timestamps of the form [2026-01-01T00:00:NN.000Z], identifiers of the
    form [thread-N], and nonces that count up from the tick. *)
Definition two_digits (n : nat) : jsstring :=
  [48 + N.of_nat (n / 10 mod 10); 48 + N.of_nat (n mod 10)].

Definition seconds_of (stamp : jsstring) : option Z :=
  match skipn 17 stamp with
  | a :: b :: _ =>
      if is_digit a && is_digit b then Some (Z.of_N ((a - 48) * 10 + (b - 48))) else None
  | _ => None
  end.

#[export] Instance host : Host := {|
  disk := gmap (list N) node;
  readFile := sample_readFile;
  writeFile := sample_writeFile;
  unlink := sample_unlink;
  mkdir := sample_mkdir;
  path_join := join (lit "/");
  path_resolve p := p;
  JSON_parse_index := sample_parse to_index;
  JSON_parse_thread := sample_parse to_thread;
  JSON_stringify_index := print_index;
  JSON_stringify_thread := print_thread;
  Date_getTime := seconds_of;
  randomUUID t := lit "uuid-" ++ two_digits t;
  toISOString_now t := lit "2026-01-01T00:00:" ++ two_digits t ++ lit ".000Z";
  randomBytes t n := map (fun i => N.of_nat (t + i) mod 256) (seq 0 n);
  currentSketchDir := None
|}.

End SampleHost.

(** ** The project of the examples *)

Module Scenario.
Import SampleHost.

Definition host : Host := SampleHost.host.
Definition crypto : Crypto := Sample.crypto.

Definition root : jsstring := lit "/home/me/sketch".

Definition world (files : list (jsstring * node)) : World (H := host) :=
  mkWorld (H := host) (list_to_map ((root, Directory) :: files)) [] 0.

(** A project without chat history. *)
Definition fresh : World (H := host) := world [].

Definition question : ChatMessage :=
  mkChatMessage (lit "m1") user
    (lit "Fix my blink sketch, it never stops blinking")
    (lit "2026-01-01T00:00:00.000Z") None.

Definition long_question : ChatMessage :=
  mkChatMessage (lit "m2") user
    (lit "  My sketch compiles but the board resets whenever the servo starts "
     ++ lit "moving and I do not know why. Any idea?")
    (lit "2026-01-01T00:00:00.000Z") None.

Definition two_sentences : ChatMessage :=
  mkChatMessage (lit "m4") user (lit "My servo jitters. What can I do?")
    (lit "2026-01-01T00:00:00.000Z") None.

Definition answer : ChatMessage :=
  mkChatMessage (lit "m3") assistant (lit "Power the servo separately.")
    (lit "2026-01-01T00:00:05.000Z") None.

(** The project after [createThread] with [question] in the base64
    revision. *)
Definition started_encoded : World (H := host) :=
  snd (Encoded.createThread (H := host) root (Some question) fresh).

Definition encoded_chat : jsstring := root ++ lit "/.blinkey/chat".
Definition encrypted_chat : jsstring := root ++ lit "/.blinky/chat".
Definition index_text : jsstring := lit "{ " ++ [34] ++ lit "threads" ++ [34] ++ lit ": [] }".

Definition encoded_index : jsstring := encoded_chat ++ lit "/threads.json".
Definition encrypted_index : jsstring := encrypted_chat ++ lit "/threads.json".

(** The summary and the thread that [createThread] with the message [m]
    makes at the tick [t]. *)
Definition summary_at (t : nat) (m : ChatMessage) : ThreadSummary :=
  mkThreadSummary (randomUUID (Host := host) t) (Store.initial_title (Some m))
    (toISOString_now (Host := host) (S t)) (toISOString_now (Host := host) (S t)) active
    (Some (firstn 100 (msg_content m))).

Definition thread_at (t : nat) (m : ChatMessage) : Thread :=
  mkThread root (randomUUID (Host := host) t) (Store.initial_title (Some m))
    (toISOString_now (Host := host) (S t)) (toISOString_now (Host := host) (S t)) active
    [m] None.

(** The project after a second [createThread], with [long_question]. *)
Definition two_threads : World (H := host) :=
  snd (Encoded.createThread (H := host) root (Some long_question) started_encoded).

(** The project after [createThread] with [question] in the ciphertext
    revision. *)
Definition started_encrypted : World (H := host) :=
  snd (Encrypted.createThread (H := host) (H0 := crypto) root (Some question) fresh).

(** [started_encoded] with an index that cannot be written. *)
Definition locked_index : World (H := host) :=
  mkWorld (H := host)
    (<[encoded_index :=
         File (ChatEncoding.encodeChatData
                 (print_index (mkThreadsIndex [summary_at 0 question])))
           true false]> (w_disk started_encoded))
    (w_trace started_encoded) (w_tick started_encoded).

(** A project with a file where the chat directory goes. *)
Definition blocked : World (H := host) := world [(encoded_chat, File [] true true)].

End Scenario.

(** * Properties *)

(** ** Strings *)

Section StringFacts.

Lemma split_not_nil sep s : split sep s <> [].
Proof.
  destruct s as [|c s]; simpl; [easy|].
  destruct (c =? sep); [easy|]. now destruct (split sep s).
Qed.

Lemma count_cons c x s :
  count c (x :: s) = if x =? c then S (count c s) else count c s.
Proof.
  unfold count. rewrite filter_cons.
  destruct (N.eqb_spec x c); case_decide; simpl; congruence.
Qed.

Lemma split_length sep s : length (split sep s) = S (count sep s).
Proof.
  induction s as [|c s IH]; [reflexivity|].
  rewrite count_cons. simpl. destruct (c =? sep); simpl; [now rewrite IH|].
  pose proof (split_not_nil sep s). destruct (split sep s); [easy|]. exact IH.
Qed.

Lemma split_no_sep sep s : Forall (fun c => c <> sep) s -> split sep s = [s].
Proof.
  induction 1 as [|c s Hc _ IH]; [reflexivity|].
  simpl. rewrite IH. destruct (N.eqb_spec c sep); [easy|reflexivity].
Qed.

Lemma split_app_sep sep a r :
  Forall (fun c => c <> sep) a -> split sep (a ++ sep :: r) = a :: split sep r.
Proof.
  induction 1 as [|c s Hc _ IH]; simpl.
  - now rewrite N.eqb_refl.
  - rewrite IH. destruct (N.eqb_spec c sep); [easy|reflexivity].
Qed.

End StringFacts.

(** ** Base64 *)

Section Base64Facts.

Lemma in_below n v : v < N.of_nat n -> In v (below n).
Proof.
  intros Hv. unfold below. apply in_map_iff. exists (N.to_nat v). split; [lia|].
  apply in_seq. lia.
Qed.

Lemma base64_char_table :
  forallb (fun v => match Buffer.unbase64 (Buffer.base64_char v) with
                    | Some w => (w =? v) && negb (Buffer.base64_char v =? Buffer.pad)
                                && negb (Buffer.base64_char v =? 58)
                    | None => false
                    end) (below 64) = true.
Proof. vm_compute. reflexivity. Qed.

Lemma base64_char_mod v : Buffer.base64_char v = Buffer.base64_char (v mod 64).
Proof. unfold Buffer.base64_char. now rewrite N.Div0.mod_mod. Qed.

Lemma base64_char_spec v :
  Buffer.unbase64 (Buffer.base64_char v) = Some (v mod 64) /\
  Buffer.base64_char v <> Buffer.pad /\ Buffer.base64_char v <> 58.
Proof.
  rewrite base64_char_mod.
  assert (Hin : In (v mod 64) (below 64)) by (apply in_below; lia).
  pose proof (proj1 (forallb_forall _ _) base64_char_table _ Hin) as Ht.
  simpl in Ht. destruct (Buffer.unbase64 _) as [w|]; [|discriminate].
  apply andb_true_iff in Ht as [Ht H58]. apply andb_true_iff in Ht as [Hw Hp].
  apply N.eqb_eq in Hw. apply negb_true_iff in Hp, H58.
  apply N.eqb_neq in Hp, H58. now subst w.
Qed.

Lemma list_ind3 {A} (P : list A -> Prop) :
  P [] -> (forall x, P [x]) -> (forall x y, P [x; y]) ->
  (forall x y z l, P l -> P (x :: y :: z :: l)) ->
  forall l, P l.
Proof.
  intros H0 H1 H2 H3.
  fix IH 1.
  intros [|x [|y [|z l]]]; [exact H0 | apply H1 | apply H2 | apply H3, IH].
Qed.

Lemma base64_char_bytes :
  forallb (fun v => Buffer.base64_char v <? 256) (below 64) = true.
Proof. vm_compute. reflexivity. Qed.

Lemma base64_char_byte v : Buffer.base64_char v mod 256 = Buffer.base64_char v.
Proof.
  rewrite base64_char_mod.
  assert (Hin : In (v mod 64) (below 64)) by (apply in_below; lia).
  pose proof (proj1 (forallb_forall _ _) base64_char_bytes _ Hin) as Ht.
  cbv beta in Ht. apply N.ltb_lt in Ht. now apply N.mod_small.
Qed.

Lemma sextets_char v s :
  Buffer.sextets (Buffer.base64_char v :: s) = v mod 64 :: Buffer.sextets s.
Proof.
  destruct (base64_char_spec v) as (Hu & Hp & _).
  cbn [Buffer.sextets]. cbv zeta. rewrite base64_char_byte.
  apply N.eqb_neq in Hp. now rewrite Hp, Hu.
Qed.

Lemma sextets_pad s : Buffer.sextets (Buffer.pad :: s) = [].
Proof. reflexivity. Qed.

Lemma toString_base64_no_colon b :
  Forall (fun c => c <> 58) (Buffer.toString_base64 b).
Proof.
  induction b as [|x|x y|x y z l IH] using list_ind3; simpl;
    repeat (apply Forall_cons; split);
    try apply base64_char_spec; try apply Forall_nil; try easy.
Qed.

Lemma from_base64_toString b :
  Forall (fun x => x < 256) b ->
  Buffer.from_base64 (Buffer.toString_base64 b) = b.
Proof.
  unfold Buffer.from_base64.
  induction b as [|x|x y|x y z l IH] using list_ind3; intros Hb.
  - reflexivity.
  - apply Forall_cons in Hb as [Hx _]. simpl Buffer.toString_base64.
    rewrite !sextets_char, sextets_pad. simpl. f_equal. lia.
  - apply Forall_cons in Hb as [Hx Hb]. apply Forall_cons in Hb as [Hy _].
    simpl Buffer.toString_base64.
    rewrite !sextets_char, sextets_pad. simpl. repeat f_equal; lia.
  - apply Forall_cons in Hb as [Hx Hb]. apply Forall_cons in Hb as [Hy Hb].
    apply Forall_cons in Hb as [Hz Hb].
    simpl Buffer.toString_base64. rewrite !sextets_char. simpl.
    rewrite (IH Hb). repeat f_equal; lia.
Qed.

End Base64Facts.

(** ** UTF-8 *)

Section Utf8Facts.

Ltac decide_tests :=
  repeat match goal with
         | |- context [?a <=? ?b] => destruct (N.leb_spec a b); try lia
         | |- context [?a <? ?b] => destruct (N.ltb_spec a b); try lia
         | |- context [?a =? ?b] => destruct (N.eqb_spec a b); try lia
         end; simpl.

Lemma lead_1 b : b < 128 -> Buffer.lead b = ([b], None).
Proof. intros. unfold Buffer.lead. now decide_tests. Qed.

Lemma lead_2 b :
  194 <= b <= 223 -> Buffer.lead b = ([], Some (Buffer.Pending (b mod 32) 0 128 191)).
Proof. intros. unfold Buffer.lead. now decide_tests. Qed.

Lemma lead_3 b :
  224 <= b <= 239 ->
  Buffer.lead b = ([], Some (Buffer.Pending (b mod 16) 1
                               (if b =? 224 then 160 else 128)
                               (if b =? 237 then 159 else 191))).
Proof.
  intros. unfold Buffer.lead.
  destruct (N.ltb_spec b 128); [lia|].
  destruct (N.leb_spec 194 b); [|lia]. destruct (N.leb_spec b 223); [lia|].
  destruct (N.leb_spec 224 b); [|lia]. destruct (N.leb_spec b 239); [|lia].
  reflexivity.
Qed.

Lemma lead_4 b :
  240 <= b <= 244 ->
  Buffer.lead b = ([], Some (Buffer.Pending (b mod 8) 2
                               (if b =? 240 then 144 else 128)
                               (if b =? 244 then 143 else 191))).
Proof.
  intros. unfold Buffer.lead.
  destruct (N.ltb_spec b 128); [lia|].
  destruct (N.leb_spec 194 b); [|lia]. destruct (N.leb_spec b 223); [lia|].
  destruct (N.leb_spec 224 b); [|lia]. destruct (N.leb_spec b 239); [lia|].
  destruct (N.leb_spec 240 b); [|lia]. destruct (N.leb_spec b 244); [|lia].
  reflexivity.
Qed.

Lemma decode_utf8_lead x b' :
  Buffer.decode_utf8 None (x :: b')
  = fst (Buffer.lead x) ++ Buffer.decode_utf8 (snd (Buffer.lead x)) b'.
Proof. simpl. now destruct (Buffer.lead x). Qed.

Lemma decode_utf8_continue c n lo hi x b' :
  lo <= x <= hi ->
  Buffer.decode_utf8 (Some (Buffer.Pending c n lo hi)) (x :: b')
  = match n with
    | O => Buffer.units_of_code_point (c * 64 + x mod 64) ++ Buffer.decode_utf8 None b'
    | S m => Buffer.decode_utf8 (Some (Buffer.Pending (c * 64 + x mod 64) m 128 191)) b'
    end.
Proof.
  intros Hx. simpl.
  destruct (N.leb_spec lo x); [|lia]. destruct (N.leb_spec x hi); [|lia].
  reflexivity.
Qed.

Lemma units_of_bmp c : c < 65536 -> Buffer.units_of_code_point c = [c].
Proof. intros. unfold Buffer.units_of_code_point. now destruct (N.ltb_spec c 65536); [|lia]. Qed.

Lemma decode_utf8_1 u r :
  u < 128 -> Buffer.decode_utf8 None (u :: r) = u :: Buffer.decode_utf8 None r.
Proof. intros Hu. now rewrite decode_utf8_lead, lead_1. Qed.

Lemma decode_utf8_2 u r :
  128 <= u < 2048 ->
  Buffer.decode_utf8 None ((192 + u / 64) :: (128 + u mod 64) :: r)
  = u :: Buffer.decode_utf8 None r.
Proof.
  intros Hu.
  rewrite decode_utf8_lead, lead_2 by lia. cbn [fst snd app].
  rewrite decode_utf8_continue by lia.
  rewrite units_of_bmp by lia. simpl. f_equal. lia.
Qed.

Lemma decode_utf8_3 u r :
  2048 <= u < 65536 ->
  Buffer.is_high_surrogate u = false -> Buffer.is_low_surrogate u = false ->
  Buffer.decode_utf8 None
    ((224 + u / 4096) :: (128 + (u / 64) mod 64) :: (128 + u mod 64) :: r)
  = u :: Buffer.decode_utf8 None r.
Proof.
  intros Hu Hh Hl.
  assert (Hs : u < 55296 \/ 57343 < u).
  { unfold Buffer.is_high_surrogate, Buffer.is_low_surrogate in *.
    apply andb_false_iff in Hh, Hl. rewrite !N.leb_gt in Hh, Hl. lia. }
  clear Hh Hl.
  rewrite decode_utf8_lead, lead_3 by lia. cbn [fst snd app].
  rewrite decode_utf8_continue.
  2:{ destruct (N.eqb_spec (224 + u / 4096) 224);
      destruct (N.eqb_spec (224 + u / 4096) 237); lia. }
  rewrite decode_utf8_continue by lia.
  rewrite units_of_bmp by lia. simpl. f_equal. lia.
Qed.

Lemma decode_utf8_4 u v r :
  Buffer.is_high_surrogate u = true -> Buffer.is_low_surrogate v = true ->
  let c := 65536 + (u - 55296) * 1024 + (v - 56320) in
  Buffer.decode_utf8 None
    ((240 + c / 262144) :: (128 + (c / 4096) mod 64) ::
     (128 + (c / 64) mod 64) :: (128 + c mod 64) :: r)
  = u :: v :: Buffer.decode_utf8 None r.
Proof.
  intros Hh Hl c.
  assert (Hu : 55296 <= u <= 56319).
  { unfold Buffer.is_high_surrogate in Hh. apply andb_true_iff in Hh.
    rewrite !N.leb_le in Hh. lia. }
  assert (Hv : 56320 <= v <= 57343).
  { unfold Buffer.is_low_surrogate in Hl. apply andb_true_iff in Hl.
    rewrite !N.leb_le in Hl. lia. }
  assert (Hc : 65536 <= c < 1114112) by (subst c; lia).
  assert (Hu' : u = 55296 + (c - 65536) / 1024) by (subst c; lia).
  assert (Hv' : v = 56320 + (c - 65536) mod 1024) by (subst c; lia).
  clearbody c. clear Hh Hl Hu Hv. subst u v.
  rewrite decode_utf8_lead, lead_4 by lia. cbn [fst snd app].
  rewrite decode_utf8_continue.
  2:{ destruct (N.eqb_spec (240 + c / 262144) 240);
      destruct (N.eqb_spec (240 + c / 262144) 244); lia. }
  rewrite decode_utf8_continue by lia.
  rewrite decode_utf8_continue by lia.
  match goal with
  | |- Buffer.units_of_code_point ?e ++ _ = _ => replace e with c by lia
  end.
  unfold Buffer.units_of_code_point.
  destruct (N.ltb_spec c 65536); [lia|]. reflexivity.
Qed.

Lemma toString_utf8_from_utf8 s :
  well_formed s = true -> Buffer.toString_utf8 (Buffer.from_utf8 s) = s.
Proof.
  unfold Buffer.toString_utf8.
  revert s. fix IH 1. intros [|u s] Hwf; [reflexivity|].
  simpl in Hwf. simpl Buffer.from_utf8.
  destruct (N.ltb_spec u 128) as [H1|H1].
  { destruct (Buffer.is_high_surrogate u) eqn:Hh.
    - unfold Buffer.is_high_surrogate in Hh. apply andb_true_iff in Hh.
      rewrite !N.leb_le in Hh. lia.
    - apply andb_true_iff in Hwf as [_ Hwf].
      rewrite decode_utf8_1 by assumption. f_equal. now apply IH. }
  destruct (N.ltb_spec u 2048) as [H2|H2].
  { destruct (Buffer.is_high_surrogate u) eqn:Hh.
    - unfold Buffer.is_high_surrogate in Hh. apply andb_true_iff in Hh.
      rewrite !N.leb_le in Hh. lia.
    - apply andb_true_iff in Hwf as [_ Hwf].
      rewrite decode_utf8_2 by lia. f_equal. now apply IH. }
  destruct (Buffer.is_high_surrogate u) eqn:Hh.
  - destruct s as [|v s]; [discriminate|].
    apply andb_true_iff in Hwf as [Hl Hwf]. rewrite Hl.
    cbv zeta. rewrite (decode_utf8_4 u v) by assumption.
    do 2 f_equal. now apply IH.
  - apply andb_true_iff in Hwf as [Hwf Hs]. apply andb_true_iff in Hwf as [Hl Hu].
    apply negb_true_iff in Hl. rewrite Hl. apply N.ltb_lt in Hu.
    destruct (N.ltb_spec u 65536); [|lia].
    rewrite decode_utf8_3 by (assumption || lia). f_equal. now apply IH.
Qed.

End Utf8Facts.

(** ** The two classifiers *)

Section Classifiers.

(** The codecs on a few inputs: the text [€😀], an ill-formed byte
    sequence, and base64 text with characters that the decoder skips. *)
Example base64_of_utf8 :
  Buffer.toString_base64 (Buffer.from_utf8 [8364; 55357; 56832]) = lit "4oKs8J+YgA==".
Proof. reflexivity. Qed.

Example utf8_of_base64 :
  Buffer.toString_utf8 (Buffer.from_base64 (lit "4oKs8J+YgA==")) = [8364; 55357; 56832].
Proof. reflexivity. Qed.

Example utf8_replacement :
  Buffer.toString_utf8 [237; 160; 128; 65; 192; 128; 240; 159]
  = [65533; 65533; 65533; 65; 65533; 65533; 65533].
Proof. reflexivity. Qed.

Example base64_skips :
  Buffer.from_base64 (lit "QU JD:RA=") = [65; 66; 67; 68] /\
  Buffer.from_base64 (lit "QUJD=RA") = [65; 66; 67].
Proof. split; reflexivity. Qed.

Lemma decodes_as_base64_total part : ChatEncryption.decodes_as_base64 part = true.
Proof. reflexivity. Qed.

Lemma isEncrypted_three_segments s : ChatEncryption.isEncrypted s = three_segments s.
Proof.
  unfold ChatEncryption.isEncrypted, three_segments.
  replace (forallb ChatEncryption.decodes_as_base64 (split 58 s)) with true.
  - apply andb_true_r.
  - symmetry. apply forallb_forall. intros; apply decodes_as_base64_total.
Qed.

Lemma trimStart_blank blank c rest :
  Forall (fun x => is_space x = true) blank -> is_space c = false ->
  trimStart (blank ++ c :: rest) = c :: rest.
Proof.
  intros Hb Hc. induction Hb as [|x blank Hx _ IH]; cbn [trimStart app].
  - now rewrite Hc.
  - now rewrite Hx.
Qed.

Lemma trimStart_split s :
  exists blank,
    s = blank ++ trimStart s /\ Forall (fun x => is_space x = true) blank /\
    match trimStart s with c :: _ => is_space c = false | [] => True end.
Proof.
  induction s as [|x s IH]; [exists []; repeat split; constructor|].
  cbn [trimStart]. destruct (is_space x) eqn:Hx.
  - destruct IH as (blank & Hs & Hb & Hhead).
    exists (x :: blank). split; [cbn [app]; now f_equal|]. split; [now constructor|].
    exact Hhead.
  - exists []. repeat split; [constructor|exact Hx].
Qed.

Lemma trimStart_snoc l c :
  is_space c = false -> exists l', trimStart (l ++ [c]) = l' ++ [c].
Proof.
  intros Hc. induction l as [|x l IH]; cbn [trimStart app].
  - rewrite Hc. now exists [].
  - destruct (is_space x); [exact IH|]. now exists (x :: l).
Qed.

Lemma trimEnd_head c rest :
  is_space c = false -> exists rest', trimEnd (c :: rest) = c :: rest'.
Proof.
  intros Hc. unfold trimEnd. cbn [rev].
  destruct (trimStart_snoc (rev rest) c Hc) as (l' & ->).
  exists (rev l'). now rewrite rev_app_distr.
Qed.

Lemma startsWith_unit s p :
  startsWith s [p] = true <-> exists rest, s = p :: rest.
Proof.
  destruct s as [|c s]; cbn [startsWith].
  - split; [discriminate|now intros (rest & ?)].
  - replace (startsWith s []) with true by (destruct s; reflexivity).
    rewrite andb_true_r. split.
    + intros Hc. apply N.eqb_eq in Hc. subst c. now exists s.
    + intros (rest & [= -> _]). apply N.eqb_refl.
Qed.

Lemma trim_head s :
  match trimStart s with
  | c :: _ => exists rest', trim s = c :: rest'
  | [] => trim s = []
  end.
Proof.
  destruct (trimStart_split s) as (blank & _ & _ & Hhead). unfold trim.
  destruct (trimStart s) as [|c r]; [reflexivity|].
  now apply trimEnd_head.
Qed.

Lemma looks_like_json_opens s :
  ChatEncoding.looks_like_json s = true <-> opens_json s.
Proof.
  unfold ChatEncoding.looks_like_json.
  change (lit "{") with [123]. change (lit "[") with [91].
  rewrite orb_true_iff, !startsWith_unit. split.
  - intros Hstart.
    assert (Hc : exists c rest, trim s = c :: rest /\ (c = 123 \/ c = 91)).
    { destruct Hstart as [(rest & Ht)|(rest & Ht)]; eauto. }
    destruct Hc as (c & rest & Ht & Hc).
    destruct (trimStart_split s) as (blank & Hs & Hb & _).
    pose proof (trim_head s) as Hhead.
    destruct (trimStart s) as [|c0 r]; [rewrite Hhead in Ht; discriminate|].
    destruct Hhead as (rest' & Hhead). rewrite Hhead in Ht.
    injection Ht as -> _. now exists blank, c, r.
  - intros (blank & c & rest & -> & Hb & Hc).
    assert (Hsp : is_space c = false) by (destruct Hc as [-> | ->]; reflexivity).
    pose proof (trim_head (blank ++ c :: rest)) as Hhead.
    rewrite (trimStart_blank _ _ _ Hb Hsp) in Hhead.
    destruct Hhead as (rest' & ->).
    destruct Hc as [-> | ->]; [left|right]; now exists rest'.
Qed.

(** C4: a string of exactly three colon-delimited segments, that is with
    two colons, is classified as generation 3: [isEncrypted] and [isEncoded]
    both answer [true].  Any other string is not encrypted for
    [isEncrypted]; [isEncoded] answers [false] when its content after the
    leading white space starts with an opening brace or bracket
    (generation 1), and otherwise answers [true] exactly when that holds of
    its base64-decoded content (generation 2).  The base64 text of
    [{"a":1}] is classified as encoded, the JSON text itself is not, a
    triple of base64 texts is generation 3, and of a code unit above 255
    the decoder reads the low byte. *)
Theorem isEncoded_classification (s : jsstring) :
  (count 58 s = 2%nat ->
   ChatEncoding.isEncoded s = true /\ ChatEncryption.isEncrypted s = true) /\
  (count 58 s <> 2%nat ->
   ChatEncryption.isEncrypted s = false /\
   (opens_json s -> ChatEncoding.isEncoded s = false) /\
   (~ opens_json s ->
    (ChatEncoding.isEncoded s = true
     <-> opens_json (Buffer.toString_utf8 (Buffer.from_base64 s))))) /\
  ChatEncoding.encodeChatData sample_json = lit "eyJhIjoxfQ==" /\
  ChatEncoding.isEncoded (ChatEncoding.encodeChatData sample_json) = true /\
  ChatEncoding.isEncoded sample_json = false /\
  ChatEncoding.isEncoded (lit "q83v:EjRW:3q2+") = true /\
  ChatEncryption.isEncrypted (lit "q83v:EjRW:3q2+") = true /\
  ChatEncoding.isEncoded (357 :: lit "30=") = true /\
  ChatEncoding.isEncoded (321 :: lit "e30=") = false /\
  ChatEncoding.isEncoded (357 :: lit "yJ0aHJlYWRzIjpbXX0=") = true.
Proof.
  assert (Hseg : three_segments s = (count 58 s =? 2)%nat).
  { unfold three_segments. now rewrite split_length. }
  assert (Hencoded : ChatEncoding.isEncoded s
                     = if three_segments s then true
                       else if ChatEncoding.looks_like_json s then false
                       else ChatEncoding.looks_like_json
                              (Buffer.toString_utf8 (Buffer.from_base64 s)))
    by reflexivity.
  rewrite Hencoded, isEncrypted_three_segments, Hseg. clear Hencoded Hseg.
  split; [|split].
  - intros ->. split; reflexivity.
  - intros Hcount. apply Nat.eqb_neq in Hcount. rewrite Hcount.
    split; [reflexivity|]. split.
    + intros Hopen. apply looks_like_json_opens in Hopen. now rewrite Hopen.
    + intros Hclosed.
      destruct (ChatEncoding.looks_like_json s) eqn:Hlooks.
      * apply looks_like_json_opens in Hlooks. contradiction.
      * apply looks_like_json_opens.
  - repeat split; vm_compute; reflexivity.
Qed.

(** C9: [isEncrypted] is exactly the test for three segments, that is for
    two colons: the base64 check accepts every segment. *)
Theorem isEncrypted_iff_two_colons (s : jsstring) :
  (ChatEncryption.isEncrypted s = true <-> length (split 58 s) = 3%nat)
  /\ forallb ChatEncryption.decodes_as_base64 (split 58 s) = true
  /\ ChatEncryption.isEncrypted s = (count 58 s =? 2)%nat.
Proof.
  rewrite isEncrypted_three_segments. unfold three_segments.
  split; [apply Nat.eqb_eq|]. split.
  - apply forallb_forall. intros; apply decodes_as_base64_total.
  - now rewrite split_length.
Qed.

End Classifiers.

(** ** Encryption *)

Section EncryptionFacts.
Context `{Crypto}.

Lemma split_encrypted (a b c : bytes) :
  split 58 (Buffer.toString_base64 a ++ [58] ++ Buffer.toString_base64 b ++ [58]
            ++ Buffer.toString_base64 c)
  = [Buffer.toString_base64 a; Buffer.toString_base64 b; Buffer.toString_base64 c].
Proof.
  simpl. rewrite split_app_sep by apply toString_base64_no_colon.
  rewrite split_app_sep by apply toString_base64_no_colon.
  now rewrite split_no_sep by apply toString_base64_no_colon.
Qed.

Lemma encryptChatData_segments (iv : bytes) (data root : jsstring) :
  ChatEncryption.isEncrypted (ChatEncryption.encryptChatData iv data root) = true
  /\ split 58 (ChatEncryption.encryptChatData iv data root)
     = [Buffer.toString_base64 iv;
        Buffer.toString_base64
          (snd (gcm_seal (ChatEncryption.deriveKey root) iv (Buffer.from_utf8 data)));
        Buffer.toString_base64
          (fst (gcm_seal (ChatEncryption.deriveKey root) iv (Buffer.from_utf8 data)))].
Proof.
  assert (Hs : split 58 (ChatEncryption.encryptChatData iv data root)
     = [Buffer.toString_base64 iv;
        Buffer.toString_base64
          (snd (gcm_seal (ChatEncryption.deriveKey root) iv (Buffer.from_utf8 data)));
        Buffer.toString_base64
          (fst (gcm_seal (ChatEncryption.deriveKey root) iv (Buffer.from_utf8 data)))]).
  { unfold ChatEncryption.encryptChatData.
    destruct (gcm_seal _ _ _) as [encrypted tag]. apply split_encrypted. }
  split; [|exact Hs].
  rewrite isEncrypted_three_segments. unfold three_segments. now rewrite Hs.
Qed.

Lemma from_utf8_bytes s : Forall (fun x => x < 256) (Buffer.from_utf8 s).
Proof.
  assert (Hn : forall n s, (length s <= n)%nat ->
                           Forall (fun x => x < 256) (Buffer.from_utf8 s)).
  { clear s. induction n as [|n IH]; intros [|u s] Hlen; try constructor;
      simpl in Hlen; [lia|].
    assert (Hs : Forall (fun x => x < 256) (Buffer.from_utf8 s)) by (apply IH; lia).
    simpl.
    destruct (N.ltb_spec u 128); [constructor; [lia|exact Hs]|].
    destruct (N.ltb_spec u 2048); [repeat (constructor; [lia|]); exact Hs|].
    destruct (Buffer.is_high_surrogate u) eqn:Hh.
    - destruct s as [|v s]; [repeat constructor|].
      destruct (Buffer.is_low_surrogate v) eqn:Hl.
      + unfold Buffer.is_high_surrogate in Hh. unfold Buffer.is_low_surrogate in Hl.
        apply andb_true_iff in Hh, Hl. rewrite !N.leb_le in Hh, Hl.
        cbv zeta. repeat (constructor; [lia|]). apply IH. simpl in Hlen. lia.
      + repeat (constructor; [lia|]). exact Hs.
    - destruct (Buffer.is_low_surrogate u); [repeat (constructor; [lia|]); exact Hs|].
      destruct (N.ltb_spec u 65536); repeat (constructor; [lia|]); exact Hs. }
  now apply (Hn (length s)).
Qed.

Lemma deriveKey_length root : length (ChatEncryption.deriveKey root) = 32%nat.
Proof. apply pbkdf2Sync_length. Qed.

(** C1: decrypting under a project root what was encrypted under the same
    root gives the text back, for every well-formed text and whatever
    16-byte nonce was drawn; the key is [deriveKey root] on both sides, a
    function of the root alone. *)
Theorem decryptChatData_encryptChatData (iv : bytes) (s root : jsstring) :
  well_formed s = true ->
  length iv = ChatEncryption.IV_LENGTH ->
  Forall (fun x => x < 256) iv ->
  ChatEncryption.decryptChatData (ChatEncryption.encryptChatData iv s root) root
  = inl s.
Proof.
  intros Hwf Hlen Hiv.
  unfold ChatEncryption.decryptChatData.
  rewrite (proj2 (encryptChatData_segments iv s root)).
  pose proof (gcm_seal_bytes (ChatEncryption.deriveKey root) iv (Buffer.from_utf8 s))
    as [Hct Htag].
  rewrite !from_base64_toString by assumption.
  rewrite gcm_open_seal.
  - now rewrite toString_utf8_from_utf8.
  - apply deriveKey_length.
  - exact Hlen.
  - apply pbkdf2Sync_bytes.
  - exact Hiv.
  - apply from_utf8_bytes.
Qed.

(** When the decipher throws, so does [decryptChatData]: no text is
    returned. *)
Lemma decryptChatData_fails_closed (ivBase64 tagBase64 encrypted root message : jsstring) :
  Forall (fun c => c <> 58) ivBase64 -> Forall (fun c => c <> 58) tagBase64 ->
  Forall (fun c => c <> 58) encrypted ->
  gcm_open (ChatEncryption.deriveKey root) (Buffer.from_base64 ivBase64)
    (Buffer.from_base64 tagBase64) (Buffer.from_base64 encrypted) = inr message ->
  ChatEncryption.decryptChatData
    (ivBase64 ++ [58] ++ tagBase64 ++ [58] ++ encrypted) root = inr message.
Proof.
  intros Hi Ht He Hopen. unfold ChatEncryption.decryptChatData. simpl.
  rewrite split_app_sep by assumption. rewrite split_app_sep by assumption.
  rewrite split_no_sep by assumption. now rewrite Hopen.
Qed.

End EncryptionFacts.


(** A run of C1 on the stand-in cipher: the text [héllo 😀] under the root
    [/home/me/sketch] and a fixed nonce. *)
Lemma decryptChatData_encryptChatData_witness :
  let iv := map N.of_nat (seq 1 16) in
  let s := [104; 233; 108; 108; 111; 32; 55357; 56832] in
  let root := lit "/home/me/sketch" in
  well_formed s = true /\ length iv = ChatEncryption.IV_LENGTH /\
  ChatEncryption.decryptChatData (H := Sample.crypto)
    (ChatEncryption.encryptChatData (H := Sample.crypto) iv s root) root = inl s.
Proof.
  intros iv s root.
  split; [reflexivity|]. split; [reflexivity|].
  apply (@decryptChatData_encryptChatData Sample.crypto iv s root);
    [reflexivity | reflexivity |].
  subst iv. repeat (constructor; [reflexivity|]). constructor.
Defined.

(** ** Reasoning about computations *)

Section EffFacts.
Context `{Host}.

Lemma bind_inl {A B} (m : M A) (k : A -> M B) w r w' :
  bind m k w = (inl r, w') ->
  exists a w1, m w = (inl a, w1) /\ k a w1 = (inl r, w').
Proof.
  unfold bind. destruct (m w) as [[a|e] w1]; [eauto|discriminate].
Qed.

Lemma extends_refl w : extends w w.
Proof. exists []. now rewrite app_nil_r. Qed.

Lemma extends_trans w1 w2 w3 : extends w1 w2 -> extends w2 w3 -> extends w1 w3.
Proof.
  intros [e1 H1] [e2 H2]. exists (e1 ++ e2). now rewrite H2, H1, app_assoc.
Qed.

End EffFacts.

Ltac inv_bind H :=
  let a := fresh "a" in
  let w := fresh "w" in
  let H1 := fresh "Hrun" in
  apply bind_inl in H as (a & w & H1 & H).

(** ** Titles *)

Section TitleFacts.
Context `{Host}.

Lemma first_sentence_length text : (length (Store.first_sentence text) <= length text)%nat.
Proof.
  induction text as [|c rest IH]; simpl; [lia|].
  destruct (Store.is_terminator c && _); simpl; lia.
Qed.

Lemma generateTitle_short m :
  (length (Store.first_sentence (trim (msg_content m))) <= 60)%nat ->
  Store.generateTitle m = Store.first_sentence (trim (msg_content m)).
Proof.
  intros Hlen. unfold Store.generateTitle.
  now rewrite (proj2 (Nat.leb_le _ _) Hlen).
Qed.

Lemma generateTitle_long m :
  (60 < length (Store.first_sentence (trim (msg_content m))))%nat ->
  Store.generateTitle m = firstn 57 (trim (msg_content m)) ++ lit "..." /\
  length (Store.generateTitle m) = 60%nat.
Proof.
  intros Hlen. unfold Store.generateTitle.
  rewrite (proj2 (Nat.leb_gt _ _) Hlen). split; [reflexivity|].
  pose proof (first_sentence_length (trim (msg_content m))).
  unfold substring0. rewrite length_app, firstn_length_le by lia. reflexivity.
Qed.

Variable CHAT_DIR_NAME : jsstring.
Variable readThreadsIndex : jsstring -> M ThreadsIndex.
Variable writeThreadsIndex : jsstring -> ThreadsIndex -> M unit.
Variable writeThreadFile : jsstring -> Thread -> M unit.

Lemma createThread_initial_title root initialMessage w thread w' :
  Store.createThread CHAT_DIR_NAME readThreadsIndex writeThreadsIndex writeThreadFile
    root initialMessage w = (inl thread, w') ->
  title thread = Store.initial_title initialMessage.
Proof.
  intros Hrun. unfold Store.createThread in Hrun.
  do 7 inv_bind Hrun. unfold ret in Hrun. now inversion Hrun.
Qed.

End TitleFacts.

(** ** Reading files in the revision that stores base64 text *)

Section EncodedReads.
Context `{Host}.

Lemma write_back_run path content warning w :
  try_catch (fs_writeFile path (ChatEncoding.encodeChatData content))
    (fun _ => logger_warn warning) w
  = (inl tt, write_back path content warning w).
Proof.
  unfold try_catch, fs_writeFile, fs_effect, write_back, logger_warn, emit, after.
  destruct (writeFile _ _ _) as [d [e|]]; simpl; [|reflexivity].
  now rewrite <- app_assoc.
Qed.

Lemma discard_run {A} path error deleted not_deleted (k : M A) w :
  bind (logger_error error)
    (fun _ => bind (try_catch (bind (fs_unlink path) (fun _ => logger_warn deleted))
                      (fun _ => logger_warn not_deleted))
                (fun _ => k)) w
  = k (discard path error deleted not_deleted w).
Proof.
  unfold bind, try_catch, fs_unlink, fs_effect, discard, logger_warn, logger_error,
    emit, after. simpl.
  destruct (unlink _ _) as [d [e|]]; simpl; now rewrite <- !app_assoc.
Qed.

Lemma decode_run content w :
  Encoded.decode content w = (inl (Buffer.toString_utf8 (Buffer.from_base64 content)), w).
Proof. reflexivity. Qed.

Variable root : jsstring.
Local Abbreviation indexPath := (Encoded.getThreadsIndexPath root).

(** The first stage of [readThreadsIndex] on a file that was read. *)
Lemma readThreadsIndex_read content w :
  readFile (w_disk w) indexPath = inl content ->
  Encoded.readThreadsIndex root w
  = let w1 := migrated indexPath content
                (lit "Failed to migrate threads index to base64 format: " ++ indexPath) w in
    match JSON_parse_index (decoded_text content) with
    | inl index => (inl index, w1)
    | inr _ =>
        (inl Store.empty_index,
         discard indexPath
           (lit "Failed to parse threads index JSON: " ++ indexPath)
           (lit "Deleted corrupted threads index, starting fresh: " ++ indexPath)
           (lit "Failed to delete corrupted threads index: " ++ indexPath) w1)
    end.
Proof.
  intros Hread. unfold Encoded.readThreadsIndex.
  unfold migrated, decoded_text.
  unfold try_catch at 1. unfold bind at 1. unfold fs_readFile. rewrite Hread.
  destruct (ChatEncoding.isEncoded content).
  - unfold bind at 1. unfold try_catch at 1. unfold bind at 1.
    rewrite decode_run. unfold ret at 1.
    unfold try_catch at 1. unfold Store.parse_index.
    destruct (JSON_parse_index _) as [index|message]; [reflexivity|].
    unfold throw at 1.
    rewrite (discard_run indexPath _ _ _ (ret Store.empty_index)). reflexivity.
  - unfold bind at 1. unfold bind at 1. rewrite write_back_run. unfold ret at 1.
    unfold try_catch at 1. unfold Store.parse_index.
    destruct (JSON_parse_index _) as [index|message]; [reflexivity|].
    unfold throw at 1.
    rewrite (discard_run indexPath _ _ _ (ret Store.empty_index)). reflexivity.
Qed.

Lemma readThreadsIndex_missing e w :
  readFile (w_disk w) indexPath = inr e ->
  is_ENOENT (of_errno e) = true ->
  Encoded.readThreadsIndex root w = (inl Store.empty_index, w).
Proof.
  intros Hread Hcode. unfold Encoded.readThreadsIndex.
  unfold try_catch at 1. unfold bind at 1. unfold fs_readFile. rewrite Hread.
  now rewrite Hcode.
Qed.

Lemma readThreadsIndex_unreadable e w :
  readFile (w_disk w) indexPath = inr e ->
  is_ENOENT (of_errno e) = false ->
  Encoded.readThreadsIndex root w
  = let w1 := after w (w_disk w)
                [EvLog Error (lit "Failed to read threads index: " ++ indexPath)] in
    if includes (err_message e) (lit "Failed to decode")
       || includes (err_message e) (lit "Failed to read")
    then (inl Store.empty_index, recovered_index indexPath w1)
    else (inr (ReadFailed (lit "Failed to read threads index: " ++ err_message e)
                 indexPath), w1).
Proof.
  intros Hread Hcode. unfold Encoded.readThreadsIndex.
  unfold try_catch at 1. unfold bind at 1. unfold fs_readFile. rewrite Hread.
  rewrite Hcode. cbn [message_of of_errno].
  unfold bind at 1. unfold logger_error at 1, emit at 1. cbv zeta.
  destruct (includes (err_message e) (lit "Failed to decode")
            || includes (err_message e) (lit "Failed to read")); [|reflexivity].
  unfold bind, try_catch, fs_unlink, fs_effect, recovered_index, logger_warn, emit,
    after, ret. simpl.
  destruct (unlink _ _) as [d [e'|]]; simpl; [reflexivity|].
  now rewrite <- !app_assoc.
Qed.

Variable threadId : jsstring.
Local Abbreviation threadPath := (Encoded.getThreadFilePath root threadId).

Lemma readThreadFile_read content w :
  readFile (w_disk w) threadPath = inl content ->
  Encoded.readThreadFile root threadId w
  = let w1 := migrated threadPath content
                (lit "Failed to migrate thread file to base64 format: " ++ threadPath) w in
    match JSON_parse_thread (decoded_text content) with
    | inl thread => (inl thread, w1)
    | inr message =>
        (inr (ReadFailed (lit "Failed to parse thread: " ++ message) threadPath),
         discard threadPath
           (lit "Failed to parse thread JSON: " ++ threadPath)
           (lit "Deleted corrupted thread file: " ++ threadPath)
           (lit "Failed to delete corrupted thread file: " ++ threadPath) w1)
    end.
Proof.
  intros Hread. unfold Encoded.readThreadFile.
  unfold migrated, decoded_text.
  unfold try_catch at 1. unfold bind at 1. unfold fs_readFile. rewrite Hread.
  destruct (ChatEncoding.isEncoded content).
  - unfold bind at 1. unfold try_catch at 1.
    rewrite decode_run.
    unfold try_catch at 1. unfold Store.parse_thread.
    destruct (JSON_parse_thread _) as [thread|message]; [reflexivity|].
    unfold throw at 1.
    now rewrite (discard_run threadPath _ _ _ (throw _)).
  - unfold bind at 1. unfold bind at 1. rewrite write_back_run. unfold ret at 1.
    unfold try_catch at 1. unfold Store.parse_thread.
    destruct (JSON_parse_thread _) as [thread|message]; [reflexivity|].
    unfold throw at 1.
    now rewrite (discard_run threadPath _ _ _ (throw _)).
Qed.

Lemma readThreadFile_missing e w :
  readFile (w_disk w) threadPath = inr e ->
  is_ENOENT (of_errno e) = true ->
  Encoded.readThreadFile root threadId w
  = (inr (NotFound (lit "Thread not found: " ++ threadId) threadId), w).
Proof.
  intros Hread Hcode. unfold Encoded.readThreadFile.
  unfold try_catch at 1. unfold bind at 1. unfold fs_readFile. rewrite Hread.
  now rewrite Hcode.
Qed.

Lemma readThreadFile_unreadable e w :
  readFile (w_disk w) threadPath = inr e ->
  is_ENOENT (of_errno e) = false ->
  Encoded.readThreadFile root threadId w
  = (inr (ReadFailed (lit "Failed to read thread: " ++ err_message e) threadPath),
     after w (w_disk w) [EvLog Error (lit "Failed to read thread file: " ++ threadPath)]).
Proof.
  intros Hread Hcode. unfold Encoded.readThreadFile.
  unfold try_catch at 1. unfold bind at 1. unfold fs_readFile. rewrite Hread.
  now rewrite Hcode.
Qed.

End EncodedReads.

(** ** Reading files in the revision that stores ciphertext *)

Section EncryptedReads.
Context `{Host} `{Crypto}.

Lemma sealed_back_run path content projectRoot warning w :
  try_catch
    (bind (Encrypted.encrypt content projectRoot) (fun encrypted => fs_writeFile path encrypted))
    (fun _ => logger_warn warning) w
  = (inl tt, sealed_back path content projectRoot warning w).
Proof.
  unfold try_catch, bind, Encrypted.encrypt, crypto_randomBytes, bind, tick, ret,
    fs_writeFile, fs_effect, sealed_back, logger_warn, emit. simpl.
  destruct (writeFile _ _ _) as [d [e|]]; simpl; [|reflexivity].
  now rewrite <- app_assoc.
Qed.

Variable root : jsstring.
Local Abbreviation indexPath := (Encrypted.getThreadsIndexPath root).

Lemma encrypted_readThreadsIndex_read content w :
  readFile (w_disk w) indexPath = inl content ->
  Encrypted.readThreadsIndex root w
  = let failed := lit "Failed to read threads index: " in
    if ChatEncryption.isEncrypted content then
      match ChatEncryption.decryptChatData content root with
      | inl text =>
          match JSON_parse_index text with
          | inl index => (inl index, w)
          | inr message =>
              (inr (ReadFailed (failed ++ message) indexPath),
               after w (w_disk w) [EvLog Error (failed ++ indexPath)])
          end
      | inr message =>
          (inr (ReadFailed (failed ++ lit "Failed to decrypt threads index: " ++ message)
                  indexPath),
           after w (w_disk w)
             [EvLog Error (lit "Failed to decrypt threads index: " ++ indexPath);
              EvLog Error (failed ++ indexPath)])
      end
    else
      let w1 := sealed_back indexPath content root
                  (lit "Failed to migrate threads index to encrypted format: "
                   ++ indexPath) w in
      match JSON_parse_index content with
      | inl index => (inl index, w1)
      | inr message =>
          (inr (ReadFailed (failed ++ message) indexPath),
           after w1 (w_disk w1) [EvLog Error (failed ++ indexPath)])
      end.
Proof.
  intros Hread. unfold Encrypted.readThreadsIndex.
  unfold try_catch at 1. unfold bind at 1. unfold fs_readFile. rewrite Hread.
  cbv zeta.
  destruct (ChatEncryption.isEncrypted content).
  - unfold bind at 1. unfold try_catch at 1. unfold Encrypted.decrypt.
    destruct (ChatEncryption.decryptChatData content root) as [text|message].
    + unfold ret at 1. unfold Store.parse_index.
      destruct (JSON_parse_index text) as [index|message]; reflexivity.
    + unfold throw at 1. unfold bind, logger_error, emit, throw, after. simpl.
      now rewrite <- app_assoc.
  - unfold bind at 1. unfold bind at 1. rewrite sealed_back_run. unfold ret at 1.
    unfold Store.parse_index.
    destruct (JSON_parse_index content) as [index|message]; reflexivity.
Qed.

Lemma encrypted_readThreadsIndex_missing e w :
  readFile (w_disk w) indexPath = inr e ->
  is_ENOENT (of_errno e) = true ->
  Encrypted.readThreadsIndex root w = (inl Store.empty_index, w).
Proof.
  intros Hread Hcode. unfold Encrypted.readThreadsIndex.
  unfold try_catch at 1. unfold bind at 1. unfold fs_readFile. rewrite Hread.
  now rewrite Hcode.
Qed.

Lemma encrypted_readThreadsIndex_unreadable e w :
  readFile (w_disk w) indexPath = inr e ->
  is_ENOENT (of_errno e) = false ->
  Encrypted.readThreadsIndex root w
  = (inr (ReadFailed (lit "Failed to read threads index: " ++ err_message e) indexPath),
     after w (w_disk w) [EvLog Error (lit "Failed to read threads index: " ++ indexPath)]).
Proof.
  intros Hread Hcode. unfold Encrypted.readThreadsIndex.
  unfold try_catch at 1. unfold bind at 1. unfold fs_readFile. rewrite Hread.
  now rewrite Hcode.
Qed.

Variable threadId : jsstring.
Local Abbreviation threadPath := (Encrypted.getThreadFilePath root threadId).

Lemma encrypted_readThreadFile_read content w :
  readFile (w_disk w) threadPath = inl content ->
  Encrypted.readThreadFile root threadId w
  = let failed := lit "Failed to read thread: " in
    if ChatEncryption.isEncrypted content then
      match ChatEncryption.decryptChatData content root with
      | inl text =>
          match JSON_parse_thread text with
          | inl thread => (inl thread, w)
          | inr message =>
              (inr (ReadFailed (failed ++ message) threadPath),
               after w (w_disk w)
                 [EvLog Error (lit "Failed to read thread file: " ++ threadPath)])
          end
      | inr message =>
          (inr (ReadFailed (lit "Failed to decrypt thread: " ++ message) threadPath),
           after w (w_disk w)
             [EvLog Error (lit "Failed to decrypt thread file: " ++ threadPath)])
      end
    else
      let w1 := sealed_back threadPath content root
                  (lit "Failed to migrate thread file to encrypted format: "
                   ++ threadPath) w in
      match JSON_parse_thread content with
      | inl thread => (inl thread, w1)
      | inr message =>
          (inr (ReadFailed (failed ++ message) threadPath),
           after w1 (w_disk w1)
             [EvLog Error (lit "Failed to read thread file: " ++ threadPath)])
      end.
Proof.
  intros Hread. unfold Encrypted.readThreadFile.
  unfold try_catch at 1. unfold bind at 1. unfold fs_readFile. rewrite Hread.
  cbv zeta.
  destruct (ChatEncryption.isEncrypted content).
  - unfold bind at 1. unfold try_catch at 1. unfold Encrypted.decrypt.
    destruct (ChatEncryption.decryptChatData content root) as [text|message].
    + unfold ret at 1. unfold Store.parse_thread.
      destruct (JSON_parse_thread text) as [thread|message]; reflexivity.
    + reflexivity.
  - unfold bind at 1. unfold bind at 1. rewrite sealed_back_run. unfold ret at 1.
    unfold Store.parse_thread.
    destruct (JSON_parse_thread content) as [thread|message]; reflexivity.
Qed.

Lemma encrypted_readThreadFile_missing e w :
  readFile (w_disk w) threadPath = inr e ->
  is_ENOENT (of_errno e) = true ->
  Encrypted.readThreadFile root threadId w
  = (inr (NotFound (lit "Thread not found: " ++ threadId) threadId), w).
Proof.
  intros Hread Hcode. unfold Encrypted.readThreadFile.
  unfold try_catch at 1. unfold bind at 1. unfold fs_readFile. rewrite Hread.
  now rewrite Hcode.
Qed.

End EncryptedReads.

(** ** listThreads on a missing or damaged index *)

Section ListThreads.
Context `{Host} `{Crypto}.

Lemma listThreads_run (readThreadsIndex : jsstring -> M ThreadsIndex)
    projectRoot root w :
  Store.resolveProjectRoot projectRoot w = (inl root, w) ->
  Store.listThreads readThreadsIndex projectRoot w
  = match readThreadsIndex root w with
    | (inl index, w') => (inl (Store.sort Store.by_updatedAt_desc (threads index)), w')
    | (inr e, w') => if is_ENOENT e then (inl [], w') else (inr e, w')
    end.
Proof.
  intros Hroot. unfold Store.listThreads. unfold bind at 1. rewrite Hroot.
  unfold try_catch, bind, ret, throw.
  destruct (readThreadsIndex root w) as [[index|e] w']; [reflexivity|].
  now destruct (is_ENOENT e).
Qed.

Lemma is_ENOENT_code e : err_code e = lit "ENOENT" -> is_ENOENT (of_errno e) = true.
Proof.
  intros Hc. unfold is_ENOENT, of_errno, str_eqb. rewrite Hc.
  now apply bool_decide_eq_true_2.
Qed.

Lemma is_ENOENT_other e : err_code e <> lit "ENOENT" -> is_ENOENT (of_errno e) = false.
Proof. intros Hc. unfold is_ENOENT, of_errno, str_eqb. now apply bool_decide_eq_false_2. Qed.

Lemma discard_effect path error deleted not_deleted (w : World) :
  w_disk (discard path error deleted not_deleted w) = fst (unlink (w_disk w) path) /\
  exists ok notice,
    w_trace (discard path error deleted not_deleted w)
    = w_trace w ++ [EvLog Error error; EvUnlink path ok; EvLog Warn notice].
Proof.
  unfold discard, after. simpl.
  destruct (unlink (w_disk w) path) as [d [e|]]; simpl; (split; [reflexivity|]).
  - exists false, not_deleted. now rewrite <- app_assoc.
  - exists true, deleted. now rewrite <- app_assoc.
Qed.

(** C2, as the code has it: [listThreads] returns the empty list when the
    index file does not exist, in both revisions.  When the index was read
    but its text does not parse, the base64 revision unlinks the file and
    returns the empty list, while the ciphertext revision throws
    [ReadFailed], as it does when the content cannot be decrypted or when
    the read fails with another error than [ENOENT]. *)
Theorem listThreads_damaged_index projectRoot root (w : World) :
  Store.resolveProjectRoot projectRoot w = (inl root, w) ->
  let encoded := Encoded.getThreadsIndexPath root in
  let encrypted := Encrypted.getThreadsIndexPath root in
  (forall e, readFile (w_disk w) encoded = inr e -> err_code e = lit "ENOENT" ->
             Encoded.listThreads projectRoot w = (inl [], w)) /\
  (forall e, readFile (w_disk w) encrypted = inr e -> err_code e = lit "ENOENT" ->
             Encrypted.listThreads projectRoot w = (inl [], w)) /\
  (forall content message,
      readFile (w_disk w) encoded = inl content ->
      JSON_parse_index (decoded_text content) = inr message ->
      exists w', Encoded.listThreads projectRoot w = (inl [], w') /\
                 exists ok, In (EvUnlink encoded ok) (w_trace w')) /\
  (forall content message,
      readFile (w_disk w) encrypted = inl content ->
      decrypted_text content root = inr message ->
      exists m w', Encrypted.listThreads projectRoot w
                   = (inr (ReadFailed m encrypted), w')) /\
  (forall content text message,
      readFile (w_disk w) encrypted = inl content ->
      decrypted_text content root = inl text ->
      JSON_parse_index text = inr message ->
      exists m w', Encrypted.listThreads projectRoot w
                   = (inr (ReadFailed m encrypted), w')) /\
  (forall e, readFile (w_disk w) encrypted = inr e -> err_code e <> lit "ENOENT" ->
             exists m w', Encrypted.listThreads projectRoot w
                          = (inr (ReadFailed m encrypted), w')).
Proof.
  intros Hroot encoded encrypted.
  unfold Encoded.listThreads, Encrypted.listThreads.
  rewrite !(listThreads_run _ _ _ _ Hroot).
  repeat split.
  - intros e Hread Hcode.
    now rewrite (readThreadsIndex_missing _ _ _ Hread (is_ENOENT_code _ Hcode)).
  - intros e Hread Hcode.
    now rewrite (encrypted_readThreadsIndex_missing _ _ _ Hread (is_ENOENT_code _ Hcode)).
  - intros content message Hread Hparse.
    rewrite (readThreadsIndex_read _ _ _ Hread). cbv zeta. rewrite Hparse.
    eexists. split; [reflexivity|].
    destruct (discard_effect encoded
                (lit "Failed to parse threads index JSON: " ++ encoded)
                (lit "Deleted corrupted threads index, starting fresh: " ++ encoded)
                (lit "Failed to delete corrupted threads index: " ++ encoded)
                (migrated encoded content
                   (lit "Failed to migrate threads index to base64 format: " ++ encoded) w))
      as (_ & ok & notice & Htrace).
    exists ok. fold encoded. rewrite Htrace. apply in_or_app. right. simpl. auto.
  - intros content message Hread Htext.
    rewrite (encrypted_readThreadsIndex_read _ _ _ Hread). cbv zeta.
    unfold decrypted_text in Htext.
    destruct (ChatEncryption.isEncrypted content); [|discriminate].
    rewrite Htext. cbn [is_ENOENT]. eauto.
  - intros content text message Hread Htext Hparse.
    rewrite (encrypted_readThreadsIndex_read _ _ _ Hread). cbv zeta.
    unfold decrypted_text in Htext.
    destruct (ChatEncryption.isEncrypted content).
    + rewrite Htext, Hparse. cbn [is_ENOENT]. eauto.
    + inversion Htext; subst text. rewrite Hparse. cbn [is_ENOENT]. eauto.
  - intros e Hread Hcode.
    rewrite (encrypted_readThreadsIndex_unreadable _ _ _ Hread (is_ENOENT_other _ Hcode)).
    cbn [is_ENOENT]. eauto.
Qed.

End ListThreads.


(** ** The order of the two writes *)

Section WriteOrder.
Context `{Host}.

Variable CHAT_DIR_NAME : jsstring.
Variable readThreadsIndex : jsstring -> M ThreadsIndex.
Variable writeThreadsIndex : jsstring -> ThreadsIndex -> M unit.
Variable readThreadFile : jsstring -> jsstring -> M Thread.
Variable writeThreadFile : jsstring -> Thread -> M unit.

Local Abbreviation indexPath := (Store.getThreadsIndexPath CHAT_DIR_NAME).
Local Abbreviation threadPath := (Store.getThreadFilePath CHAT_DIR_NAME).

(** What the section asks of the four file functions: a read only adds
    events, and a write that returns has added exactly one successful
    [writeFile] of its path. *)
Hypothesis readThreadsIndex_extends :
  forall root w r w', readThreadsIndex root w = (r, w') -> extends w w'.
Hypothesis readThreadFile_extends :
  forall root threadId w r w', readThreadFile root threadId w = (r, w') -> extends w w'.
Hypothesis writeThreadFile_event :
  forall root thread w w',
    writeThreadFile root thread w = (inl tt, w') ->
    exists data, w_trace w' = w_trace w ++ [EvWriteFile (threadPath root (id thread)) data true].
Hypothesis writeThreadsIndex_event :
  forall root index w w',
    writeThreadsIndex root index w = (inl tt, w') ->
    exists data, w_trace w' = w_trace w ++ [EvWriteFile (indexPath root) data true].

Lemma resolve_pure projectRoot w r w' :
  Store.resolveProjectRoot projectRoot w = (r, w') -> w' = w.
Proof.
  unfold Store.resolveProjectRoot, ret, throw.
  destruct projectRoot as [[|c p]|]; destruct currentSketchDir; now inversion 1.
Qed.

Lemma tick_trace {A} (f : nat -> A) w a w' :
  bind tick (fun t => ret (f t)) w = (inl a, w') -> w_trace w' = w_trace w.
Proof. unfold bind, tick, ret. now inversion 1. Qed.

(** The four operations that read the thread, read the index and then
    write both. *)
Tactic Notation "read_modify_write" hyp(Hrun) integer(n) :=
  inv_bind Hrun;
  match goal with
  | Hr : Store.resolveProjectRoot _ _ = (inl ?a, _) |- _ =>
      pose proof (resolve_pure _ _ _ _ Hr) as ->; exists a; split; [exact Hr|]
  end;
  do n inv_bind Hrun;
  repeat match goal with
         | Hr : readThreadFile _ _ _ = _ |- _ =>
             apply readThreadFile_extends in Hr as [? Hr]
         | Hr : new_Date_toISOString _ = _ |- _ => apply tick_trace in Hr
         | Hr : readThreadsIndex _ _ = _ |- _ =>
             apply readThreadsIndex_extends in Hr as [? Hr]
         | Hr : writeThreadFile _ _ _ = (inl ?u, _) |- _ =>
             try destruct u; apply writeThreadFile_event in Hr as [? Hr]
         | Hr : writeThreadsIndex _ _ _ = (inl ?u, _) |- _ =>
             try destruct u; apply writeThreadsIndex_event in Hr as [? Hr]
         end.

Ltac close_order :=
  match goal with
  | H5 : w_trace ?w' = w_trace ?w4 ++ [EvWriteFile _ ?dataI true],
    H4 : w_trace ?w4 = w_trace ?w3 ++ [EvWriteFile (Store.getThreadFilePath _ _ ?tid) ?dataT true],
    H3 : w_trace ?w3 = w_trace ?w2 ++ ?e3,
    H2 : w_trace ?w2 = w_trace ?w1,
    H1 : w_trace ?w1 = w_trace ?w ++ ?e1 |- thread_then_index _ _ _ ?w ?w' =>
      exists tid, (e1 ++ e3), dataT, dataI;
      rewrite H5, H4, H3, H2, H1; rewrite <- ?app_assoc; reflexivity
  end.

Lemma appendMessage_order root threadId message w t w' :
  Store.appendMessage readThreadsIndex writeThreadsIndex readThreadFile writeThreadFile
    root threadId message w = (inl t, w') ->
  exists resolved, Store.resolveProjectRoot (Some root) w = (inl resolved, w)
                   /\ thread_then_index CHAT_DIR_NAME resolved [] w w'.
Proof.
  unfold Store.appendMessage. intros Hrun. read_modify_write Hrun 5.
  unfold ret in Hrun. inversion Hrun; subst. close_order.
Qed.

Lemma renameThread_order root threadId newTitle w w' :
  Store.renameThread readThreadsIndex writeThreadsIndex readThreadFile writeThreadFile
    root threadId newTitle w = (inl tt, w') ->
  exists resolved, Store.resolveProjectRoot (Some root) w = (inl resolved, w)
                   /\ thread_then_index CHAT_DIR_NAME resolved [] w w'.
Proof.
  unfold Store.renameThread. intros Hrun. read_modify_write Hrun 4. close_order.
Qed.

Lemma archiveThread_order root threadId w w' :
  Store.archiveThread readThreadsIndex writeThreadsIndex readThreadFile writeThreadFile
    root threadId w = (inl tt, w') ->
  exists resolved, Store.resolveProjectRoot (Some root) w = (inl resolved, w)
                   /\ thread_then_index CHAT_DIR_NAME resolved [] w w'.
Proof.
  unfold Store.archiveThread. intros Hrun. read_modify_write Hrun 4. close_order.
Qed.

Lemma clearMessages_order root threadId w t w' :
  Store.clearMessages readThreadsIndex writeThreadsIndex readThreadFile writeThreadFile
    root threadId w = (inl t, w') ->
  exists resolved, Store.resolveProjectRoot (Some root) w = (inl resolved, w)
                   /\ thread_then_index CHAT_DIR_NAME resolved [] w w'.
Proof.
  unfold Store.clearMessages. intros Hrun. read_modify_write Hrun 5.
  unfold ret in Hrun. inversion Hrun; subst. close_order.
Qed.

Lemma ensureChatHistoryDir_extends root w r w' :
  Store.ensureChatHistoryDir CHAT_DIR_NAME root w = (r, w') -> extends w w'.
Proof.
  unfold Store.ensureChatHistoryDir, try_catch, fs_mkdir, fs_effect, bind,
    logger_error, emit, throw.
  destruct (mkdir _ _) as [d [e|]]; simpl; inversion 1; subst; simpl.
  - exists [EvMkdir (Store.getChatHistoryDir CHAT_DIR_NAME root) false;
            EvLog Error (lit "Failed to create chat history directory: "
                         ++ Store.getChatHistoryDir CHAT_DIR_NAME root)].
    simpl. now rewrite <- app_assoc.
  - now exists [EvMkdir (Store.getChatHistoryDir CHAT_DIR_NAME root) true].
Qed.

Lemma createThread_order root initialMessage w t w' :
  Store.createThread CHAT_DIR_NAME readThreadsIndex writeThreadsIndex writeThreadFile
    root initialMessage w = (inl t, w') ->
  exists resolved between,
    Store.resolveProjectRoot (Some root) w = (inl resolved, w)
    /\ thread_then_index CHAT_DIR_NAME resolved between w w'.
Proof.
  unfold Store.createThread. intros Hrun.
  inv_bind Hrun. pose proof (resolve_pure _ _ _ _ Hrun0) as ->.
  do 6 inv_bind Hrun. unfold ret in Hrun. inversion Hrun; subst. clear Hrun.
  apply ensureChatHistoryDir_extends in Hrun1 as [e1 H1].
  apply tick_trace in Hrun2, Hrun3.
  destruct a3. apply writeThreadFile_event in Hrun4 as [dataT H4].
  apply readThreadsIndex_extends in Hrun5 as [e5 H5].
  destruct a5. apply writeThreadsIndex_event in Hrun6 as [dataI H6].
  exists a, e5. split; [assumption|].
  exists a1, e1, dataT, dataI. cbn [id] in H4.
  rewrite H6, H5, H4, Hrun3, Hrun2, H1. rewrite <- ?app_assoc. reflexivity.
Qed.

Lemma deleteThread_order root threadId w w' :
  Store.deleteThread CHAT_DIR_NAME readThreadsIndex writeThreadsIndex
    root threadId w = (inl tt, w') ->
  exists resolved,
    Store.resolveProjectRoot (Some root) w = (inl resolved, w)
    /\ index_then_unlink CHAT_DIR_NAME resolved threadId w w'.
Proof.
  unfold Store.deleteThread. intros Hrun.
  inv_bind Hrun. pose proof (resolve_pure _ _ _ _ Hrun0) as ->.
  do 2 inv_bind Hrun.
  apply readThreadsIndex_extends in Hrun1 as [e1 H1].
  destruct a1. apply writeThreadsIndex_event in Hrun2 as [dataI H2].
  exists a. split; [assumption|].
  unfold try_catch, fs_unlink, fs_effect, logger_warn, emit, ret in Hrun.
  destruct (unlink (w_disk w1) (threadPath a threadId)) as [d [e|]].
  - destruct (negb (is_ENOENT (of_errno e))); inversion Hrun; subst; clear Hrun.
    + exists e1, dataI, false,
        [EvLog Warn (lit "Failed to delete thread file: " ++ threadPath a threadId)].
      split; [|eauto]. simpl. rewrite H2, H1. rewrite <- ?app_assoc. reflexivity.
    + exists e1, dataI, false, []. split; [|auto].
      simpl. rewrite H2, H1. rewrite <- ?app_assoc. reflexivity.
  - inversion Hrun; subst; clear Hrun.
    exists e1, dataI, true, []. split; [|auto].
    simpl. rewrite H2, H1. rewrite <- ?app_assoc. reflexivity.
Qed.

End WriteOrder.

(** ** The four file functions of each revision only add events *)

Section Traces.
Context `{Host} `{Crypto}.

Lemma extends_after w d evs : extends w (after w d evs).
Proof. now exists evs. Qed.

Lemma extends_write_back path content warning w :
  extends w (write_back path content warning w).
Proof.
  unfold write_back. destruct (writeFile _ _ _) as [d [e|]]; apply extends_after.
Qed.

Lemma extends_migrated path content warning w :
  extends w (migrated path content warning w).
Proof.
  unfold migrated. destruct (ChatEncoding.isEncoded content);
    [apply extends_refl|apply extends_write_back].
Qed.

Lemma extends_discard path error deleted not_deleted w :
  extends w (discard path error deleted not_deleted w).
Proof.
  unfold discard.
  destruct (unlink _ _) as [d [e|]];
    (eapply extends_trans; [apply (extends_after w (w_disk w))|apply extends_after]).
Qed.

Lemma extends_recovered_index path w : extends w (recovered_index path w).
Proof.
  unfold recovered_index. destruct (unlink _ _) as [d [e|]]; apply extends_after.
Qed.

Lemma extends_sealed_back path content root warning w :
  extends w (sealed_back path content root warning w).
Proof.
  unfold sealed_back. destruct (writeFile _ _ _) as [d [e|]]; simpl; eexists; reflexivity.
Qed.

Lemma encoded_readThreadsIndex_extends root w r w' :
  Encoded.readThreadsIndex root w = (r, w') -> extends w w'.
Proof.
  destruct (readFile (w_disk w) (Encoded.getThreadsIndexPath root)) as [content|e] eqn:Hread.
  - rewrite (readThreadsIndex_read _ _ _ Hread). cbv zeta.
    destruct (JSON_parse_index _); inversion 1; subst.
    + apply extends_migrated.
    + eapply extends_trans; [apply extends_migrated|apply extends_discard].
  - destruct (is_ENOENT (of_errno e)) eqn:Hcode.
    + rewrite (readThreadsIndex_missing _ _ _ Hread Hcode). inversion 1; subst.
      apply extends_refl.
    + rewrite (readThreadsIndex_unreadable _ _ _ Hread Hcode). cbv zeta.
      destruct (_ || _); inversion 1; subst.
      * eapply extends_trans; [apply (extends_after w (w_disk w))|apply extends_recovered_index].
      * apply extends_after.
Qed.

Lemma encoded_readThreadFile_extends root threadId w r w' :
  Encoded.readThreadFile root threadId w = (r, w') -> extends w w'.
Proof.
  destruct (readFile (w_disk w) (Encoded.getThreadFilePath root threadId))
    as [content|e] eqn:Hread.
  - rewrite (readThreadFile_read _ _ _ _ Hread). cbv zeta.
    destruct (JSON_parse_thread _); inversion 1; subst.
    + apply extends_migrated.
    + eapply extends_trans; [apply extends_migrated|apply extends_discard].
  - destruct (is_ENOENT (of_errno e)) eqn:Hcode.
    + rewrite (readThreadFile_missing _ _ _ _ Hread Hcode). inversion 1; subst.
      apply extends_refl.
    + rewrite (readThreadFile_unreadable _ _ _ _ Hread Hcode). inversion 1; subst.
      apply extends_after.
Qed.

Lemma encoded_writeThreadFile_event root thread w w' :
  Encoded.writeThreadFile root thread w = (inl tt, w') ->
  exists data,
    w_trace w' = w_trace w ++ [EvWriteFile (Encoded.getThreadFilePath root (id thread)) data true].
Proof.
  unfold Encoded.writeThreadFile, try_catch, fs_writeFile, fs_effect, bind,
    logger_error, emit, throw.
  destruct (writeFile _ _ _) as [d [e|]]; simpl; inversion 1; subst. simpl. eauto.
Qed.

Lemma encoded_writeThreadsIndex_event root index w w' :
  Encoded.writeThreadsIndex root index w = (inl tt, w') ->
  exists data,
    w_trace w' = w_trace w ++ [EvWriteFile (Encoded.getThreadsIndexPath root) data true].
Proof.
  unfold Encoded.writeThreadsIndex, try_catch, fs_writeFile, fs_effect, bind,
    logger_error, emit, throw.
  destruct (writeFile _ _ _) as [d [e|]]; simpl; inversion 1; subst. simpl. eauto.
Qed.

Lemma encrypted_readThreadsIndex_extends root w r w' :
  Encrypted.readThreadsIndex root w = (r, w') -> extends w w'.
Proof.
  destruct (readFile (w_disk w) (Encrypted.getThreadsIndexPath root)) as [content|e] eqn:Hread.
  - rewrite (encrypted_readThreadsIndex_read _ _ _ Hread). cbv zeta.
    destruct (ChatEncryption.isEncrypted content).
    + destruct (ChatEncryption.decryptChatData content root) as [text|message];
        [destruct (JSON_parse_index text)|]; inversion 1; subst;
        (apply extends_refl || apply extends_after).
    + destruct (JSON_parse_index content); inversion 1; subst.
      * apply extends_sealed_back.
      * eapply extends_trans; [apply extends_sealed_back|apply extends_after].
  - destruct (is_ENOENT (of_errno e)) eqn:Hcode.
    + rewrite (encrypted_readThreadsIndex_missing _ _ _ Hread Hcode). inversion 1; subst.
      apply extends_refl.
    + rewrite (encrypted_readThreadsIndex_unreadable _ _ _ Hread Hcode).
      inversion 1; subst. apply extends_after.
Qed.

Lemma encrypted_readThreadFile_unreadable root threadId e w :
  readFile (w_disk w) (Encrypted.getThreadFilePath root threadId) = inr e ->
  is_ENOENT (of_errno e) = false ->
  Encrypted.readThreadFile root threadId w
  = (inr (ReadFailed (lit "Failed to read thread: " ++ err_message e)
            (Encrypted.getThreadFilePath root threadId)),
     after w (w_disk w)
       [EvLog Error (lit "Failed to read thread file: "
                     ++ Encrypted.getThreadFilePath root threadId)]).
Proof.
  intros Hread Hcode. unfold Encrypted.readThreadFile.
  unfold try_catch at 1. unfold bind at 1. unfold fs_readFile. rewrite Hread.
  now rewrite Hcode.
Qed.

Lemma encrypted_readThreadFile_extends root threadId w r w' :
  Encrypted.readThreadFile root threadId w = (r, w') -> extends w w'.
Proof.
  destruct (readFile (w_disk w) (Encrypted.getThreadFilePath root threadId))
    as [content|e] eqn:Hread.
  - rewrite (encrypted_readThreadFile_read _ _ _ _ Hread). cbv zeta.
    destruct (ChatEncryption.isEncrypted content).
    + destruct (ChatEncryption.decryptChatData content root) as [text|message];
        [destruct (JSON_parse_thread text)|]; inversion 1; subst;
        (apply extends_refl || apply extends_after).
    + destruct (JSON_parse_thread content); inversion 1; subst.
      * apply extends_sealed_back.
      * eapply extends_trans; [apply extends_sealed_back|apply extends_after].
  - destruct (is_ENOENT (of_errno e)) eqn:Hcode.
    + rewrite (encrypted_readThreadFile_missing _ _ _ _ Hread Hcode). inversion 1; subst.
      apply extends_refl.
    + rewrite (encrypted_readThreadFile_unreadable _ _ _ _ Hread Hcode).
      inversion 1; subst. apply extends_after.
Qed.

Lemma encrypted_writeThreadFile_event root thread w w' :
  Encrypted.writeThreadFile root thread w = (inl tt, w') ->
  exists data,
    w_trace w' = w_trace w ++
      [EvWriteFile (Encrypted.getThreadFilePath root (id thread)) data true].
Proof.
  unfold Encrypted.writeThreadFile, Encrypted.encrypt, crypto_randomBytes, tick, ret,
    try_catch, fs_writeFile, fs_effect, bind, logger_error, emit, throw. simpl.
  destruct (writeFile _ _ _) as [d [e|]]; simpl; inversion 1; subst. simpl. eauto.
Qed.

Lemma encrypted_writeThreadsIndex_event root index w w' :
  Encrypted.writeThreadsIndex root index w = (inl tt, w') ->
  exists data,
    w_trace w' = w_trace w ++ [EvWriteFile (Encrypted.getThreadsIndexPath root) data true].
Proof.
  unfold Encrypted.writeThreadsIndex, Encrypted.encrypt, crypto_randomBytes, tick, ret,
    try_catch, fs_writeFile, fs_effect, bind, logger_error, emit, throw. simpl.
  destruct (writeFile _ _ _) as [d [e|]]; simpl; inversion 1; subst. simpl. eauto.
Qed.

End Traces.

(** ** Write-back of older generations *)

Section WriteBack.
Context `{Host} `{Crypto}.

Lemma write_back_effect path content warning (w : World) :
  let data := ChatEncoding.encodeChatData content in
  w_disk (write_back path content warning w) = fst (writeFile (w_disk w) path data) /\
  w_trace (write_back path content warning w)
  = w_trace w ++ write_back_events path data warning (snd (writeFile (w_disk w) path data)) /\
  w_tick (write_back path content warning w) = w_tick w.
Proof.
  unfold write_back, write_back_events, after. cbv zeta.
  destruct (writeFile _ _ _) as [d [e|]]; simpl; auto.
Qed.

Lemma sealed_back_effect path content root warning (w : World) :
  let data :=
    ChatEncryption.encryptChatData (randomBytes (w_tick w) ChatEncryption.IV_LENGTH)
      content root in
  w_disk (sealed_back path content root warning w) = fst (writeFile (w_disk w) path data) /\
  w_trace (sealed_back path content root warning w)
  = w_trace w ++ write_back_events path data warning (snd (writeFile (w_disk w) path data)) /\
  w_tick (sealed_back path content root warning w) = S (w_tick w).
Proof.
  unfold sealed_back, write_back_events. cbv zeta.
  destruct (writeFile _ _ _) as [d [e|]]; simpl; auto.
Qed.

(** C3, as the code has it.  A file that the classifier of the revision
    takes for plain text (generation 1) is written back to its own path in
    the format the revision writes (base64 text, or ciphertext under a fresh
    nonce) before it is parsed; when that write fails a warning is logged
    and the parsed document is returned all the same.  A base64 file
    (generation 2) read by the base64 revision is returned without any
    write. *)
Theorem write_back_of_older_generations (root threadId : jsstring) (w : World) :
  let indexB := Encoded.getThreadsIndexPath root in
  let threadB := Encoded.getThreadFilePath root threadId in
  let indexA := Encrypted.getThreadsIndexPath root in
  let threadA := Encrypted.getThreadFilePath root threadId in
  (forall content index,
      readFile (w_disk w) indexB = inl content ->
      ChatEncoding.isEncoded content = false ->
      JSON_parse_index content = inl index ->
      let data := ChatEncoding.encodeChatData content in
      exists w', Encoded.readThreadsIndex root w = (inl index, w') /\
                 w_disk w' = fst (writeFile (w_disk w) indexB data) /\
                 w_trace w' = w_trace w ++
                   write_back_events indexB data
                     (lit "Failed to migrate threads index to base64 format: " ++ indexB)
                     (snd (writeFile (w_disk w) indexB data))) /\
  (forall content thread,
      readFile (w_disk w) threadB = inl content ->
      ChatEncoding.isEncoded content = false ->
      JSON_parse_thread content = inl thread ->
      let data := ChatEncoding.encodeChatData content in
      exists w', Encoded.readThreadFile root threadId w = (inl thread, w') /\
                 w_disk w' = fst (writeFile (w_disk w) threadB data) /\
                 w_trace w' = w_trace w ++
                   write_back_events threadB data
                     (lit "Failed to migrate thread file to base64 format: " ++ threadB)
                     (snd (writeFile (w_disk w) threadB data))) /\
  (forall content index,
      readFile (w_disk w) indexB = inl content ->
      ChatEncoding.isEncoded content = true ->
      JSON_parse_index (Buffer.toString_utf8 (Buffer.from_base64 content)) = inl index ->
      Encoded.readThreadsIndex root w = (inl index, w)) /\
  (forall content thread,
      readFile (w_disk w) threadB = inl content ->
      ChatEncoding.isEncoded content = true ->
      JSON_parse_thread (Buffer.toString_utf8 (Buffer.from_base64 content)) = inl thread ->
      Encoded.readThreadFile root threadId w = (inl thread, w)) /\
  (forall content index,
      readFile (w_disk w) indexA = inl content ->
      ChatEncryption.isEncrypted content = false ->
      JSON_parse_index content = inl index ->
      let data :=
        ChatEncryption.encryptChatData (randomBytes (w_tick w) ChatEncryption.IV_LENGTH)
          content root in
      exists w', Encrypted.readThreadsIndex root w = (inl index, w') /\
                 w_disk w' = fst (writeFile (w_disk w) indexA data) /\
                 w_trace w' = w_trace w ++
                   write_back_events indexA data
                     (lit "Failed to migrate threads index to encrypted format: " ++ indexA)
                     (snd (writeFile (w_disk w) indexA data))) /\
  (forall content thread,
      readFile (w_disk w) threadA = inl content ->
      ChatEncryption.isEncrypted content = false ->
      JSON_parse_thread content = inl thread ->
      let data :=
        ChatEncryption.encryptChatData (randomBytes (w_tick w) ChatEncryption.IV_LENGTH)
          content root in
      exists w', Encrypted.readThreadFile root threadId w = (inl thread, w') /\
                 w_disk w' = fst (writeFile (w_disk w) threadA data) /\
                 w_trace w' = w_trace w ++
                   write_back_events threadA data
                     (lit "Failed to migrate thread file to encrypted format: " ++ threadA)
                     (snd (writeFile (w_disk w) threadA data))).
Proof.
  cbv zeta. repeat split.
  - intros content index Hread Hplain Hparse.
    rewrite (readThreadsIndex_read _ _ _ Hread). cbv zeta.
    unfold decoded_text, migrated. rewrite Hplain, Hparse.
    eexists. split; [reflexivity|]. split; apply write_back_effect.
  - intros content thread Hread Hplain Hparse.
    rewrite (readThreadFile_read _ _ _ _ Hread). cbv zeta.
    unfold decoded_text, migrated. rewrite Hplain, Hparse.
    eexists. split; [reflexivity|]. split; apply write_back_effect.
  - intros content index Hread Henc Hparse.
    rewrite (readThreadsIndex_read _ _ _ Hread). cbv zeta.
    unfold decoded_text, migrated. now rewrite Henc, Hparse.
  - intros content thread Hread Henc Hparse.
    rewrite (readThreadFile_read _ _ _ _ Hread). cbv zeta.
    unfold decoded_text, migrated. now rewrite Henc, Hparse.
  - intros content index Hread Hplain Hparse.
    rewrite (encrypted_readThreadsIndex_read _ _ _ Hread). cbv zeta.
    rewrite Hplain, Hparse.
    eexists. split; [reflexivity|]. split; apply sealed_back_effect.
  - intros content thread Hread Hplain Hparse.
    rewrite (encrypted_readThreadFile_read _ _ _ _ Hread). cbv zeta.
    rewrite Hplain, Hparse.
    eexists. split; [reflexivity|]. split; apply sealed_back_effect.
Qed.

(** ** Files that do not parse *)

(** C7, as the code has it.  When the text handed to [JSON.parse] does not
    parse, the base64 revision logs an error and calls [unlink] on the file,
    whose failure it only logs; reading the index then returns the empty
    index and reading a thread throws [ReadFailed].  The ciphertext revision
    does not unlink anything: it logs one error and throws [ReadFailed], for
    the index as for a thread. *)
Theorem files_that_do_not_parse (root threadId : jsstring) (w : World) :
  let indexB := Encoded.getThreadsIndexPath root in
  let threadB := Encoded.getThreadFilePath root threadId in
  let indexA := Encrypted.getThreadsIndexPath root in
  let threadA := Encrypted.getThreadFilePath root threadId in
  (forall content message,
      readFile (w_disk w) indexB = inl content ->
      JSON_parse_index (decoded_text content) = inr message ->
      let w1 := migrated indexB content
                  (lit "Failed to migrate threads index to base64 format: " ++ indexB) w in
      exists w', Encoded.readThreadsIndex root w = (inl Store.empty_index, w') /\
                 w_disk w' = fst (unlink (w_disk w1) indexB) /\
                 w_trace w' = w_trace w1 ++
                   [EvLog Error (lit "Failed to parse threads index JSON: " ++ indexB);
                    EvUnlink indexB (succeeded (snd (unlink (w_disk w1) indexB)));
                    EvLog Warn
                      (if succeeded (snd (unlink (w_disk w1) indexB))
                       then lit "Deleted corrupted threads index, starting fresh: " ++ indexB
                       else lit "Failed to delete corrupted threads index: " ++ indexB)]) /\
  (forall content message,
      readFile (w_disk w) threadB = inl content ->
      JSON_parse_thread (decoded_text content) = inr message ->
      let w1 := migrated threadB content
                  (lit "Failed to migrate thread file to base64 format: " ++ threadB) w in
      exists w', Encoded.readThreadFile root threadId w
                 = (inr (ReadFailed (lit "Failed to parse thread: " ++ message) threadB), w') /\
                 w_disk w' = fst (unlink (w_disk w1) threadB) /\
                 w_trace w' = w_trace w1 ++
                   [EvLog Error (lit "Failed to parse thread JSON: " ++ threadB);
                    EvUnlink threadB (succeeded (snd (unlink (w_disk w1) threadB)));
                    EvLog Warn
                      (if succeeded (snd (unlink (w_disk w1) threadB))
                       then lit "Deleted corrupted thread file: " ++ threadB
                       else lit "Failed to delete corrupted thread file: " ++ threadB)]) /\
  (forall content text message,
      readFile (w_disk w) indexA = inl content ->
      decrypted_text content root = inl text ->
      JSON_parse_index text = inr message ->
      let w1 := sealed indexA content root
                  (lit "Failed to migrate threads index to encrypted format: " ++ indexA) w in
      exists w', Encrypted.readThreadsIndex root w
                 = (inr (ReadFailed (lit "Failed to read threads index: " ++ message)
                           indexA), w') /\
                 w_disk w' = w_disk w1 /\
                 w_trace w' = w_trace w1 ++
                   [EvLog Error (lit "Failed to read threads index: " ++ indexA)]) /\
  (forall content text message,
      readFile (w_disk w) threadA = inl content ->
      decrypted_text content root = inl text ->
      JSON_parse_thread text = inr message ->
      let w1 := sealed threadA content root
                  (lit "Failed to migrate thread file to encrypted format: " ++ threadA) w in
      exists w', Encrypted.readThreadFile root threadId w
                 = (inr (ReadFailed (lit "Failed to read thread: " ++ message) threadA), w') /\
                 w_disk w' = w_disk w1 /\
                 w_trace w' = w_trace w1 ++
                   [EvLog Error (lit "Failed to read thread file: " ++ threadA)]).
Proof.
  cbv zeta. repeat split.
  - intros content message Hread Hparse.
    rewrite (readThreadsIndex_read _ _ _ Hread). cbv zeta. rewrite Hparse.
    eexists. split; [reflexivity|].
    unfold discard, after. simpl.
    destruct (unlink _ _) as [d [e|]]; simpl; (split; [reflexivity|]);
      rewrite <- app_assoc; reflexivity.
  - intros content message Hread Hparse.
    rewrite (readThreadFile_read _ _ _ _ Hread). cbv zeta. rewrite Hparse.
    eexists. split; [reflexivity|].
    unfold discard, after. simpl.
    destruct (unlink _ _) as [d [e|]]; simpl; (split; [reflexivity|]);
      rewrite <- app_assoc; reflexivity.
  - intros content text message Hread Htext Hparse.
    rewrite (encrypted_readThreadsIndex_read _ _ _ Hread). cbv zeta.
    unfold decrypted_text in Htext. unfold sealed.
    destruct (ChatEncryption.isEncrypted content).
    + rewrite Htext, Hparse. eexists. split; [reflexivity|]. split; reflexivity.
    + inversion Htext; subst text. rewrite Hparse.
      eexists. split; [reflexivity|]. split; reflexivity.
  - intros content text message Hread Htext Hparse.
    rewrite (encrypted_readThreadFile_read _ _ _ _ Hread). cbv zeta.
    unfold decrypted_text in Htext. unfold sealed.
    destruct (ChatEncryption.isEncrypted content).
    + rewrite Htext, Hparse. eexists. split; [reflexivity|]. split; reflexivity.
    + inversion Htext; subst text. rewrite Hparse.
      eexists. split; [reflexivity|]. split; reflexivity.
Qed.

End WriteBack.

(** ** The claims about the operations *)

Section Operations.
Context `{Host} `{Crypto}.

Lemma resolved_unique root w r1 r2 :
  Store.resolveProjectRoot (Some root) w = (inl r1, w) ->
  Store.resolveProjectRoot (Some root) w = (inl r2, w) -> r1 = r2.
Proof. intros H1 H2. rewrite H1 in H2. now inversion H2. Qed.

(** C10: whatever [encryptChatData] returns splits into exactly three
    segments, the base64 texts of nonce, tag and ciphertext, and
    [isEncrypted] accepts it; so it accepts what [writeThreadFile] and
    [writeThreadsIndex] of the ciphertext revision write. *)
Theorem isEncrypted_encryptChatData (iv : bytes) (data root : jsstring) (w : World) :
  ChatEncryption.isEncrypted (ChatEncryption.encryptChatData iv data root) = true
  /\ split 58 (ChatEncryption.encryptChatData iv data root)
     = [Buffer.toString_base64 iv;
        Buffer.toString_base64
          (snd (gcm_seal (ChatEncryption.deriveKey root) iv (Buffer.from_utf8 data)));
        Buffer.toString_base64
          (fst (gcm_seal (ChatEncryption.deriveKey root) iv (Buffer.from_utf8 data)))]
  /\ (forall thread w',
         Encrypted.writeThreadFile root thread w = (inl tt, w') ->
         exists written,
           w_trace w' = w_trace w ++
             [EvWriteFile (Encrypted.getThreadFilePath root (id thread)) written true]
           /\ ChatEncryption.isEncrypted written = true)
  /\ (forall index w',
         Encrypted.writeThreadsIndex root index w = (inl tt, w') ->
         exists written,
           w_trace w' = w_trace w ++
             [EvWriteFile (Encrypted.getThreadsIndexPath root) written true]
           /\ ChatEncryption.isEncrypted written = true).
Proof.
  split; [apply encryptChatData_segments|]. split; [apply encryptChatData_segments|].
  split.
  - intros thread w'.
    unfold Encrypted.writeThreadFile, Encrypted.encrypt, crypto_randomBytes, tick, ret,
      try_catch, fs_writeFile, fs_effect, bind, logger_error, emit, throw. simpl.
    destruct (writeFile _ _ _) as [d [e|]]; simpl; inversion 1; subst. simpl.
    eexists. split; [reflexivity|apply encryptChatData_segments].
  - intros index w'.
    unfold Encrypted.writeThreadsIndex, Encrypted.encrypt, crypto_randomBytes, tick, ret,
      try_catch, fs_writeFile, fs_effect, bind, logger_error, emit, throw. simpl.
    destruct (writeFile _ _ _) as [d [e|]]; simpl; inversion 1; subst. simpl.
    eexists. split; [reflexivity|apply encryptChatData_segments].
Qed.


(** What [text.split(/[.!?]\s/)[0]] is: a prefix of the text that either
    is the whole text or stops right before a terminator followed by white
    space, and before which no terminator is followed by white space. *)
Lemma first_sentence_prefix text :
  text = Store.first_sentence text \/
  exists c d rest,
    Store.is_terminator c = true /\ is_space d = true /\
    text = Store.first_sentence text ++ c :: d :: rest.
Proof.
  induction text as [|c rest IH]; [now left|].
  change (Store.first_sentence (c :: rest))
    with (if Store.is_terminator c
             && match rest with d :: _ => is_space d | [] => false end
          then [] else c :: Store.first_sentence rest).
  destruct (Store.is_terminator c && _) eqn:Hm.
  - right. apply andb_true_iff in Hm as [Hc Hd].
    destruct rest as [|d rest']; [discriminate|]. exists c, d, rest'. auto.
  - destruct IH as [IH|(c' & d' & r & H1 & H2 & IH)].
    + left. now rewrite <- IH.
    + right. exists c', d', r. repeat split; auto.
      rewrite <- app_comm_cons. now rewrite <- IH.
Qed.

Lemma first_sentence_first (text : jsstring) (i : nat) c d :
  text !! i = Some c -> text !! S i = Some d ->
  Store.is_terminator c = true -> is_space d = true ->
  (length (Store.first_sentence text) <= i)%nat.
Proof.
  revert i. induction text as [|x rest IH]; intros i Hc Hd Ht Hs; [discriminate|].
  simpl. destruct i as [|i].
  - simpl in Hc, Hd. inversion Hc; subst x. rewrite Ht.
    destruct rest as [|y rest']; [discriminate|].
    simpl in Hd. inversion Hd; subst y. rewrite Hs. simpl. lia.
  - simpl in Hc, Hd.
    destruct (Store.is_terminator x && _); simpl; [lia|].
    specialize (IH i Hc Hd Ht Hs). lia.
Qed.

Lemma is_terminator_spec c :
  Store.is_terminator c = true <-> c = 46 \/ c = 33 \/ c = 63.
Proof.
  unfold Store.is_terminator. rewrite !orb_true_iff, !N.eqb_eq. tauto.
Qed.

Lemma sentence_break_head c rest :
  sentence_break (c :: rest) 0 <->
  Store.is_terminator c && match rest with d :: _ => is_space d | [] => false end = true.
Proof.
  unfold sentence_break. rewrite andb_true_iff, is_terminator_spec. split.
  - intros (c0 & d & [= <-] & Hd & Hc & Hs). split; [exact Hc|].
    destruct rest as [|d0 rest]; [discriminate|]. now injection Hd as ->.
  - intros [Hc Hs]. destruct rest as [|d rest]; [discriminate|].
    now exists c, d.
Qed.

Lemma sentence_break_tail c rest i :
  sentence_break (c :: rest) (S i) <-> sentence_break rest i.
Proof. reflexivity. Qed.

Lemma first_sentence_spec text : first_sentence_of text (Store.first_sentence text).
Proof.
  induction text as [|c rest IH].
  - left. split; [reflexivity|]. intros i (c & d & Hc & _). discriminate.
  - change (Store.first_sentence (c :: rest))
      with (if Store.is_terminator c
               && match rest with d :: _ => is_space d | [] => false end
            then [] else c :: Store.first_sentence rest).
    destruct (Store.is_terminator c && _) eqn:Hm.
    + right. exists 0%nat. split; [now apply sentence_break_head|].
      split; [intros j Hj; lia|reflexivity].
    + assert (Hhead : ~ sentence_break (c :: rest) 0).
      { intros Hb. apply sentence_break_head in Hb. congruence. }
      destruct IH as [[Heq Hnone]|(i & Hi & Hmin & Heq)].
      * left. split; [now rewrite Heq|].
        intros [|i]; [exact Hhead|]. rewrite sentence_break_tail. apply Hnone.
      * right. exists (S i). split; [now apply sentence_break_tail|]. split.
        -- intros [|j] Hj; [exact Hhead|]. rewrite sentence_break_tail.
           apply Hmin. lia.
        -- cbn [firstn]. now rewrite Heq.
Qed.

Lemma first_sentence_of_unique text s1 s2 :
  first_sentence_of text s1 -> first_sentence_of text s2 -> s1 = s2.
Proof.
  intros [[-> H1]|(i1 & Hb1 & Hmin1 & ->)] [[-> H2]|(i2 & Hb2 & Hmin2 & ->)].
  - reflexivity.
  - now apply H1 in Hb2.
  - now apply H2 in Hb1.
  - destruct (Nat.lt_trichotomy i1 i2) as [Hlt|[->|Hlt]].
    + now apply Hmin2 in Hlt.
    + reflexivity.
    + now apply Hmin1 in Hlt.
Qed.


End Operations.

(** ** The base64 codec and the two codecs together *)

Section WellFormed.

Lemma well_formed_app a b :
  well_formed a = true -> well_formed b = true -> well_formed (a ++ b) = true.
Proof.
  intros Ha Hb.
  assert (Hn : forall n a, (length a <= n)%nat -> well_formed a = true ->
                           well_formed (a ++ b) = true).
  { clear a Ha. induction n as [|n IH]; intros [|u a] Hlen Ha; simpl in Hlen;
      try exact Hb; [lia|].
    simpl in Ha |- *. destruct (Buffer.is_high_surrogate u).
    - destruct a as [|v a]; [discriminate|]. simpl.
      apply andb_true_iff in Ha as [Hv Ha]. rewrite Hv. simpl.
      apply IH; [simpl in Hlen; lia|exact Ha].
    - apply andb_true_iff in Ha as [Hu Ha]. rewrite Hu. simpl.
      apply IH; [lia|exact Ha]. }
  now apply (Hn (length a)).
Qed.

Lemma well_formed_unit c :
  c < 55296 \/ 57343 < c < 65536 -> well_formed [c] = true.
Proof.
  intros Hc. simpl. unfold Buffer.is_high_surrogate, Buffer.is_low_surrogate.
  destruct (N.leb_spec 55296 c); destruct (N.leb_spec c 56319);
    destruct (N.leb_spec 56320 c); destruct (N.leb_spec c 57343);
    destruct (N.ltb_spec c 65536); simpl; try reflexivity; lia.
Qed.

Lemma well_formed_code_point c :
  c < 55296 \/ 57343 < c < 1114112 ->
  well_formed (Buffer.units_of_code_point c) = true.
Proof.
  intros Hc. unfold Buffer.units_of_code_point.
  destruct (N.ltb_spec c 65536); [apply well_formed_unit; lia|].
  simpl. unfold Buffer.is_high_surrogate, Buffer.is_low_surrogate.
  destruct (N.leb_spec 55296 (55296 + (c - 65536) / 1024)); [|lia].
  destruct (N.leb_spec (55296 + (c - 65536) / 1024) 56319); [|lia].
  destruct (N.leb_spec 56320 (56320 + (c - 65536) mod 1024)); [|lia].
  destruct (N.leb_spec (56320 + (c - 65536) mod 1024) 57343); [|lia].
  reflexivity.
Qed.

Lemma lead_ok x :
  well_formed (fst (Buffer.lead x)) = true /\
  forall p, snd (Buffer.lead x) = Some p -> pending_ok p.
Proof.
  unfold Buffer.lead.
  destruct (N.ltb_spec x 128).
  { split; [apply well_formed_unit; lia|discriminate]. }
  destruct (N.leb_spec 194 x); destruct (N.leb_spec x 223); cbn [andb].
  1:{ split; [reflexivity|]. intros p [= <-]. unfold pending_ok. simpl. lia. }
  all: destruct (N.leb_spec 224 x); destruct (N.leb_spec x 239); cbn [andb].
  all: try (split; [reflexivity|]; intros p [= <-]; unfold pending_ok; simpl;
            destruct (N.eqb_spec x 224); destruct (N.eqb_spec x 237); lia).
  all: destruct (N.leb_spec 240 x); destruct (N.leb_spec x 244); cbn [andb].
  all: try (split; [reflexivity|]; intros p [= <-]; unfold pending_ok; simpl;
            destruct (N.eqb_spec x 240); destruct (N.eqb_spec x 244); lia).
  all: split; [reflexivity|discriminate].
Qed.

Lemma decode_utf8_well_formed b :
  forall st, (forall p, st = Some p -> pending_ok p) ->
             well_formed (Buffer.decode_utf8 st b) = true.
Proof.
  induction b as [|x b IH]; intros st Hok.
  - destruct st; reflexivity.
  - destruct st as [p|].
    + specialize (Hok p eq_refl). destruct p as [c n lo hi].
      unfold pending_ok in Hok. cbn [Buffer.cp Buffer.needed Buffer.lower Buffer.upper] in Hok.
      destruct Hok as (Hlo & Hhi & Hc).
      cbn [Buffer.decode_utf8 Buffer.cp Buffer.needed Buffer.lower Buffer.upper].
      destruct (N.leb_spec lo x); destruct (N.leb_spec x hi); cbn [andb].
      1:{ destruct n as [|[|[|n]]].
          - apply well_formed_app; [apply well_formed_code_point; lia|].
            apply IH. discriminate.
          - apply IH. intros p [= <-]. unfold pending_ok. simpl. lia.
          - apply IH. intros p [= <-]. unfold pending_ok. simpl. lia.
          - destruct Hc. }
      all: destruct (lead_ok x) as [Hout Hst]; destruct (Buffer.lead x) as [out st'];
        cbn [fst snd] in Hout, Hst;
        change (65533 :: out ++ Buffer.decode_utf8 st' b)
          with ([65533] ++ (out ++ Buffer.decode_utf8 st' b));
        apply well_formed_app; [reflexivity|];
        apply well_formed_app; [exact Hout|apply IH, Hst].
    + cbn [Buffer.decode_utf8].
      destruct (lead_ok x) as [Hout Hst]. destruct (Buffer.lead x) as [out st'].
      cbn [fst snd] in Hout, Hst.
      apply well_formed_app; [exact Hout|apply IH, Hst].
Qed.

Lemma toString_utf8_well_formed b : well_formed (Buffer.toString_utf8 b) = true.
Proof. apply decode_utf8_well_formed. discriminate. Qed.

End WellFormed.

Section CodecFacts.

Lemma decode_encode s :
  ChatEncoding.decodeChatData (ChatEncoding.encodeChatData s)
  = inl (Buffer.toString_utf8 (Buffer.from_utf8 s)).
Proof.
  unfold ChatEncoding.decodeChatData, ChatEncoding.encodeChatData.
  now rewrite from_base64_toString by apply from_utf8_bytes.
Qed.

(** X1: [decodeChatData] gives a string back for whatever [encodeChatData]
    returns, and a well-formed one; it is the string that was encoded
    exactly when that string is well-formed. *)
Theorem decodeChatData_encodeChatData (s : jsstring) :
  (ChatEncoding.decodeChatData (ChatEncoding.encodeChatData s) = inl s
   <-> well_formed s = true)
  /\ exists s', ChatEncoding.decodeChatData (ChatEncoding.encodeChatData s) = inl s'
                /\ well_formed s' = true.
Proof.
  rewrite decode_encode. split.
  - split.
    + intros [= Hs]. rewrite <- Hs. apply toString_utf8_well_formed.
    + intros Hwf. now rewrite toString_utf8_from_utf8.
  - eexists. split; [reflexivity|apply toString_utf8_well_formed].
Qed.

Lemma base64_text_table :
  forallb (fun v => negb (is_space (Buffer.base64_char v))
                    && negb (Buffer.base64_char v =? 123)
                    && negb (Buffer.base64_char v =? 91)) (below 64) = true.
Proof. vm_compute. reflexivity. Qed.

Lemma base64_char_plain v : plain (Buffer.base64_char v).
Proof.
  rewrite base64_char_mod.
  assert (Hin : In (v mod 64) (below 64)) by (apply in_below; lia).
  pose proof (proj1 (forallb_forall _ _) base64_text_table _ Hin) as Ht.
  cbv beta in Ht. apply andb_true_iff in Ht as [Ht H91]. apply andb_true_iff in Ht as [Hs H123].
  apply negb_true_iff in Hs, H123, H91. apply N.eqb_neq in H123, H91. now split.
Qed.

Lemma toString_base64_plain b : Forall plain (Buffer.toString_base64 b).
Proof.
  assert (Hpad : plain Buffer.pad) by (repeat split; easy).
  induction b as [|x|x y|x y z l IH] using list_ind3; simpl;
    repeat first [exact Hpad | apply base64_char_plain | exact IH | constructor].
Qed.

Lemma trimStart_plain s : Forall plain s -> trimStart s = s.
Proof. destruct 1 as [|c s [Hc _] _]; simpl; [reflexivity|now rewrite Hc]. Qed.

Lemma trim_plain s : Forall plain s -> trim s = s.
Proof.
  intros Hs. unfold trim, trimEnd. rewrite (trimStart_plain s Hs).
  rewrite trimStart_plain by now apply Forall_rev. apply rev_involutive.
Qed.

Lemma looks_like_json_plain s : Forall plain s -> ChatEncoding.looks_like_json s = false.
Proof.
  intros Hs. unfold ChatEncoding.looks_like_json. rewrite (trim_plain s Hs).
  destruct Hs as [|c s (_ & H123 & H91) _]; [reflexivity|].
  apply N.eqb_neq in H123, H91.
  change (lit "{") with [123]. change (lit "[") with [91].
  cbn [startsWith]. now rewrite H123, H91.
Qed.

Lemma isEncoded_base64 b :
  Forall (fun x => x < 256) b ->
  ChatEncoding.isEncoded (Buffer.toString_base64 b)
  = ChatEncoding.looks_like_json (Buffer.toString_utf8 b).
Proof.
  intros Hb. unfold ChatEncoding.isEncoded.
  rewrite split_no_sep by apply toString_base64_no_colon. cbn [length Nat.eqb].
  rewrite looks_like_json_plain by apply toString_base64_plain.
  now rewrite from_base64_toString.
Qed.

(** X2: [isEncoded] accepts the base64 text of a well-formed string exactly
    when the string, trimmed, starts with an opening brace or bracket. *)
Theorem isEncoded_encodeChatData (s : jsstring) :
  well_formed s = true ->
  ChatEncoding.isEncoded (ChatEncoding.encodeChatData s)
  = (startsWith (trim s) (lit "{") || startsWith (trim s) (lit "[")).
Proof.
  intros Hwf. unfold ChatEncoding.encodeChatData.
  rewrite isEncoded_base64 by apply from_utf8_bytes.
  now rewrite toString_utf8_from_utf8.
Qed.

(** Runs of X2: the base64 text of a JSON object is accepted, that of a
    number is not. *)
Lemma isEncoded_encodeChatData_witness :
  well_formed sample_json = true /\
  ChatEncoding.isEncoded (ChatEncoding.encodeChatData sample_json) = true /\
  ChatEncoding.isEncoded (ChatEncoding.encodeChatData (lit "42")) = false.
Proof.
  split; [reflexivity|]. split.
  - rewrite (isEncoded_encodeChatData sample_json eq_refl). reflexivity.
  - rewrite (isEncoded_encodeChatData (lit "42") eq_refl). reflexivity.
Defined.

Context `{Crypto}.

(** X3: neither codec recognises what the other writes as its own:
    [isEncrypted] rejects every base64 text and [decryptChatData] throws
    [Invalid encrypted data format] on it, while [isEncoded] takes every
    ciphertext for the older format. *)
Theorem codecs_do_not_recognise_each_other (iv : bytes) (s root : jsstring) :
  ChatEncryption.isEncrypted (ChatEncoding.encodeChatData s) = false /\
  ChatEncryption.decryptChatData (ChatEncoding.encodeChatData s) root
    = inr (lit "Invalid encrypted data format") /\
  ChatEncoding.isEncoded (ChatEncryption.encryptChatData iv s root) = true.
Proof.
  assert (Hsplit : split 58 (ChatEncoding.encodeChatData s)
                   = [ChatEncoding.encodeChatData s]).
  { unfold ChatEncoding.encodeChatData.
    apply split_no_sep, toString_base64_no_colon. }
  split; [|split].
  - rewrite isEncrypted_three_segments. unfold three_segments.
    now rewrite Hsplit.
  - unfold ChatEncryption.decryptChatData. now rewrite Hsplit.
  - unfold ChatEncoding.isEncoded.
    now rewrite (proj2 (encryptChatData_segments iv s root)).
Qed.

(** X4: [decryptChatData] returns a text only for three segments that the
    decipher authenticates under the key of the project root; the data are
    then accepted by [isEncrypted] and the text is well-formed.  On data
    that [isEncrypted] rejects it throws [Invalid encrypted data format]. *)
Theorem decryptChatData_fails_closed_on_every_input (data root : jsstring) :
  (forall text,
      ChatEncryption.decryptChatData data root = inl text <->
      exists ivBase64 tagBase64 encrypted decrypted,
        split 58 data = [ivBase64; tagBase64; encrypted] /\
        gcm_open (ChatEncryption.deriveKey root) (Buffer.from_base64 ivBase64)
          (Buffer.from_base64 tagBase64) (Buffer.from_base64 encrypted) = inl decrypted /\
        text = Buffer.toString_utf8 decrypted) /\
  (forall text,
      ChatEncryption.decryptChatData data root = inl text ->
      ChatEncryption.isEncrypted data = true /\ well_formed text = true) /\
  (ChatEncryption.isEncrypted data = false ->
   ChatEncryption.decryptChatData data root = inr (lit "Invalid encrypted data format")).
Proof.
  rewrite isEncrypted_three_segments.
  unfold ChatEncryption.decryptChatData, three_segments.
  destruct (split 58 data) as [|a [|b [|c [|d l]]]] eqn:Hsplit.
  1, 2, 3, 5: split; [|split; [discriminate|reflexivity]]; intros text; split;
    [discriminate | now intros (? & ? & ? & ? & ? & _)].
  split; [|split; [|discriminate]].
  - intros text. split.
    + destruct (gcm_open _ _ _ _) as [decrypted|message] eqn:Hopen; [|discriminate].
      intros [= <-]. now exists a, b, c, decrypted.
    + intros (? & ? & ? & ? & [= <- <- <-] & Hopen & ->). now rewrite Hopen.
  - intros text. destruct (gcm_open _ _ _ _) as [decrypted|message]; [|discriminate].
    intros [= <-]. split; [reflexivity|apply toString_utf8_well_formed].
Qed.

End CodecFacts.

(** ** The order of the list *)

Section SortFacts.
Context `{Host}.

Lemma insert_sorted_perm {A} (cmp : A -> A -> Z) x l :
  Permutation (Store.insert_sorted cmp x l) (x :: l).
Proof.
  induction l as [|y l IH]; simpl; [reflexivity|].
  destruct (0 <? cmp x y)%Z; [|reflexivity].
  rewrite IH. apply perm_swap.
Qed.

Lemma sort_perm {A} (cmp : A -> A -> Z) l : Permutation (Store.sort cmp l) l.
Proof.
  induction l as [|x l IH]; simpl; [reflexivity|].
  unfold Store.sort in *. simpl. rewrite insert_sorted_perm. now rewrite IH.
Qed.

Lemma not_older_trans a b c : not_older a b -> not_older b c -> not_older a c.
Proof.
  unfold not_older. destruct (updated a), (updated b), (updated c); try easy. lia.
Qed.

Lemma by_updatedAt_desc_spec x y :
  is_Some (updated x) -> is_Some (updated y) ->
  if (0 <? Store.by_updatedAt_desc x y)%Z then not_older y x /\ updated x <> updated y
  else not_older x y.
Proof.
  intros [tx Hx] [ty Hy]. unfold Store.by_updatedAt_desc, not_older.
  fold (updated x) (updated y). rewrite Hx, Hy.
  destruct (Z.ltb_spec 0 (ty - tx)); [split; [lia|]|lia].
  intros [= Heq]. lia.
Qed.

Lemma insert_sorted_sorted x l :
  is_Some (updated x) -> dated l -> most_recent_first l ->
  most_recent_first (Store.insert_sorted Store.by_updatedAt_desc x l).
Proof.
  intros Hx Hl Hs. induction Hs as [|y l Hs IH Hy]; simpl.
  - repeat constructor.
  - apply Forall_cons in Hl as [Hdy Hl].
    pose proof (by_updatedAt_desc_spec x y Hx Hdy) as Hc.
    destruct (0 <? Store.by_updatedAt_desc x y)%Z.
    + constructor; [now apply IH|].
      eapply Permutation_Forall; [symmetry; apply insert_sorted_perm|].
      constructor; [apply Hc|exact Hy].
    + constructor; [now constructor|].
      constructor; [exact Hc|].
      eapply Forall_impl; [exact Hy|]. intros z Hz. now apply not_older_trans with y.
Qed.

Lemma sort_sorted l : dated l -> most_recent_first (Store.sort Store.by_updatedAt_desc l).
Proof.
  induction 1 as [|x l Hx Hl IH]; [constructor|].
  unfold Store.sort in *. simpl. apply insert_sorted_sorted; [exact Hx| |exact IH].
  unfold dated. eapply Permutation_Forall; [symmetry; apply sort_perm|exact Hl].
Qed.

Lemma insert_sorted_stable t x l :
  is_Some (updated x) -> dated l ->
  updated_at t (Store.insert_sorted Store.by_updatedAt_desc x l) = updated_at t (x :: l).
Proof.
  intros Hx Hl. unfold updated_at.
  induction Hl as [|y l Hy Hl IH]; [reflexivity|]. simpl.
  pose proof (by_updatedAt_desc_spec x y Hx Hy) as Hc.
  destruct (0 <? Store.by_updatedAt_desc x y)%Z; [|reflexivity].
  destruct Hc as [_ Hne].
  rewrite (filter_cons _ y), IH, !filter_cons.
  repeat case_decide; congruence.
Qed.

Lemma sort_stable t l :
  dated l -> updated_at t (Store.sort Store.by_updatedAt_desc l) = updated_at t l.
Proof.
  induction 1 as [|x l Hx Hl IH]; [reflexivity|].
  unfold Store.sort in *. simpl. rewrite insert_sorted_stable; [|exact Hx|].
  - unfold updated_at in *. now rewrite !filter_cons, IH.
  - unfold dated. eapply Permutation_Forall; [symmetry; apply sort_perm|exact Hl].
Qed.

Context `{Crypto}.

(** X5: with a project root and an index that can be read, [listThreads]
    of either revision returns the summaries of the index, each of them
    once; when every [updatedAt] is a date, the most recently updated comes
    first and summaries updated at the same time keep the order of the
    index. *)
Theorem listThreads_most_recent_first projectRoot root (w : World) :
  Store.resolveProjectRoot projectRoot w = (inl root, w) ->
  (forall index w',
      Encoded.readThreadsIndex root w = (inl index, w') ->
      exists l, Encoded.listThreads projectRoot w = (inl l, w') /\
                listing l (threads index)) /\
  (forall index w',
      Encrypted.readThreadsIndex root w = (inl index, w') ->
      exists l, Encrypted.listThreads projectRoot w = (inl l, w') /\
                listing l (threads index)).
Proof.
  intros Hroot.
  assert (Hlisting : forall index,
            listing (Store.sort Store.by_updatedAt_desc (threads index)) (threads index)).
  { intros index. split; [apply sort_perm|]. intros Hd.
    split; [now apply sort_sorted|]. intros t. now apply sort_stable. }
  unfold Encoded.listThreads, Encrypted.listThreads.
  rewrite !(listThreads_run _ _ _ _ Hroot).
  split; intros index w' ->; eexists; (split; [reflexivity|apply Hlisting]).
Qed.

End SortFacts.

(** ** The operations that rewrite a thread *)

Section StoreRuns.
Context `{Host}.

Lemma now_run w :
  new_Date_toISOString w = (inl (toISOString_now (w_tick w)), ticked w).
Proof. reflexivity. Qed.

Lemma uuid_run w :
  crypto_randomUUID w = (inl (randomUUID (w_tick w)), ticked w).
Proof. reflexivity. Qed.

Lemma update_summary_spec threadId f l :
  one_summary_changed threadId f l (Store.update_summary threadId f l).
Proof.
  induction l as [|s l IH]; [left; split; [constructor|reflexivity]|].
  simpl. unfold str_eqb. case_bool_decide as Hid.
  - right. exists [], s, l. repeat split; auto.
  - destruct IH as [[Hl ->]|(before & s0 & after & -> & Hl' & Hb & Hs)].
    + left. split; [now constructor|reflexivity].
    + right. exists (s :: before), s0, after. rewrite Hl'. repeat split; auto.
Qed.

End StoreRuns.

Section WriteRuns.
Context `{Host} `{Crypto}.

Lemma encoded_write_run path text failed_log failed w :
  try_catch (fs_writeFile path (ChatEncoding.encodeChatData text))
    (fun error => bind (logger_error failed_log)
                    (fun _ => throw (WriteFailed (failed ++ message_of error) path))) w
  = let data := ChatEncoding.encodeChatData text in
    match writeFile (w_disk w) path data with
    | (d, None) => (inl tt, after w d [EvWriteFile path data true])
    | (d, Some e) =>
        (inr (WriteFailed (failed ++ err_message e) path),
         after w d [EvWriteFile path data false; EvLog Error failed_log])
    end.
Proof.
  unfold try_catch, fs_writeFile, fs_effect, bind, logger_error, emit, throw, after.
  cbv zeta. destruct (writeFile _ _ _) as [d [e|]]; simpl; [|reflexivity].
  now rewrite <- app_assoc.
Qed.

Lemma encrypted_write_run path text root failed_log failed w :
  try_catch (bind (Encrypted.encrypt text root) (fun encrypted => fs_writeFile path encrypted))
    (fun error => bind (logger_error failed_log)
                    (fun _ => throw (WriteFailed (failed ++ message_of error) path))) w
  = let data :=
      ChatEncryption.encryptChatData (randomBytes (w_tick w) ChatEncryption.IV_LENGTH)
        text root in
    match writeFile (w_disk w) path data with
    | (d, None) => (inl tt, after (ticked w) d [EvWriteFile path data true])
    | (d, Some e) =>
        (inr (WriteFailed (failed ++ err_message e) path),
         after (ticked w) d [EvWriteFile path data false; EvLog Error failed_log])
    end.
Proof.
  unfold try_catch, Encrypted.encrypt, crypto_randomBytes, tick, ret, fs_writeFile,
    fs_effect, bind, logger_error, emit, throw, after, ticked.
  cbv zeta. simpl. destruct (writeFile _ _ _) as [d [e|]]; simpl; [|reflexivity].
  now rewrite <- app_assoc.
Qed.

Lemma encoded_writeThreadFile_run root thread w :
  Encoded.writeThreadFile root thread w
  = let path := Encoded.getThreadFilePath root (id thread) in
    let data := ChatEncoding.encodeChatData (JSON_stringify_thread thread) in
    match writeFile (w_disk w) path data with
    | (d, None) => (inl tt, after w d [EvWriteFile path data true])
    | (d, Some e) =>
        (inr (WriteFailed (lit "Failed to write thread: " ++ err_message e) path),
         after w d [EvWriteFile path data false;
                    EvLog Error (lit "Failed to write thread file: " ++ path)])
    end.
Proof. apply encoded_write_run. Qed.

Lemma encoded_writeThreadsIndex_run root index w :
  Encoded.writeThreadsIndex root index w
  = let path := Encoded.getThreadsIndexPath root in
    let data := ChatEncoding.encodeChatData (JSON_stringify_index index) in
    match writeFile (w_disk w) path data with
    | (d, None) => (inl tt, after w d [EvWriteFile path data true])
    | (d, Some e) =>
        (inr (WriteFailed (lit "Failed to write threads index: " ++ err_message e) path),
         after w d [EvWriteFile path data false;
                    EvLog Error (lit "Failed to write threads index: " ++ path)])
    end.
Proof. apply encoded_write_run. Qed.

Lemma encrypted_writeThreadFile_run root thread w :
  Encrypted.writeThreadFile root thread w
  = let path := Encrypted.getThreadFilePath root (id thread) in
    let data :=
      ChatEncryption.encryptChatData (randomBytes (w_tick w) ChatEncryption.IV_LENGTH)
        (JSON_stringify_thread thread) root in
    match writeFile (w_disk w) path data with
    | (d, None) => (inl tt, after (ticked w) d [EvWriteFile path data true])
    | (d, Some e) =>
        (inr (WriteFailed (lit "Failed to write thread: " ++ err_message e) path),
         after (ticked w) d [EvWriteFile path data false;
                             EvLog Error (lit "Failed to write thread file: " ++ path)])
    end.
Proof. apply encrypted_write_run. Qed.

Lemma encrypted_writeThreadsIndex_run root index w :
  Encrypted.writeThreadsIndex root index w
  = let path := Encrypted.getThreadsIndexPath root in
    let data :=
      ChatEncryption.encryptChatData (randomBytes (w_tick w) ChatEncryption.IV_LENGTH)
        (JSON_stringify_index index) root in
    match writeFile (w_disk w) path data with
    | (d, None) => (inl tt, after (ticked w) d [EvWriteFile path data true])
    | (d, Some e) =>
        (inr (WriteFailed (lit "Failed to write threads index: " ++ err_message e) path),
         after (ticked w) d [EvWriteFile path data false;
                             EvLog Error (lit "Failed to write threads index: " ++ path)])
    end.
Proof. apply encrypted_write_run. Qed.

End WriteRuns.

Section Mutations.
Context `{Host}.

Variable CHAT_DIR_NAME : jsstring.
Variable readThreadsIndex : jsstring -> M ThreadsIndex.
Variable writeThreadsIndex : jsstring -> ThreadsIndex -> M unit.
Variable readThreadFile : jsstring -> jsstring -> M Thread.
Variable writeThreadFile : jsstring -> Thread -> M unit.
Variable holds : jsstring -> jsstring -> jsstring -> Prop.

Local Abbreviation indexPath := (Store.getThreadsIndexPath CHAT_DIR_NAME).
Local Abbreviation threadPath := (Store.getThreadFilePath CHAT_DIR_NAME).

Hypothesis writeThreadFile_wrote :
  forall root thread w w',
    writeThreadFile root thread w = (inl tt, w') ->
    exists ev, w_trace w' = w_trace w ++ [ev] /\
               wrote (holds root) (threadPath root (id thread))
                 (JSON_stringify_thread thread) true ev.
Hypothesis writeThreadsIndex_wrote :
  forall root index w w',
    writeThreadsIndex root index w = (inl tt, w') ->
    exists ev, w_trace w' = w_trace w ++ [ev] /\
               wrote (holds root) (indexPath root) (JSON_stringify_index index) true ev.

Lemma rewritten_intro resolved threadId change summary w w1 w2 w3 w'
    stored index0 thread :
  readThreadFile resolved threadId w = (inl stored, w1) ->
  readThreadsIndex resolved (ticked w1) = (inl index0, w2) ->
  kept stored thread -> updatedAt thread = toISOString_now (w_tick w1) ->
  change stored thread ->
  writeThreadFile resolved thread w2 = (inl tt, w3) ->
  writeThreadsIndex resolved
    (mkThreadsIndex (Store.update_summary threadId (summary (updatedAt thread))
                       (threads index0))) w3 = (inl tt, w') ->
  rewritten readThreadFile readThreadsIndex (holds resolved) CHAT_DIR_NAME resolved
    threadId change summary w w'.
Proof.
  intros HrT HrI Hkept Hnow Hchange HwT HwI.
  apply writeThreadFile_wrote in HwT as (tev & Ht & Htev).
  apply writeThreadsIndex_wrote in HwI as (iev & Hi & Hiev).
  exists stored, w1, index0, w2, thread,
    (mkThreadsIndex (Store.update_summary threadId (summary (updatedAt thread))
                       (threads index0))), tev, iev.
  repeat split; try assumption; try apply Hkept.
  - apply update_summary_spec.
  - rewrite Hi, Ht, <- app_assoc. reflexivity.
  - destruct Hkept as (_ & <- & _). exact Htev.
Qed.

Tactic Notation "open_run" hyp(Hrun) integer(n) :=
  inv_bind Hrun;
  match goal with
  | Hr : Store.resolveProjectRoot _ _ = (inl ?a, _) |- _ =>
      pose proof (resolve_pure _ _ _ _ Hr) as ->; exists a; split; [exact Hr|]
  end;
  do n inv_bind Hrun;
  repeat match goal with
         | Hr : new_Date_toISOString _ = _ |- _ => rewrite now_run in Hr; inversion Hr; subst; clear Hr
         | Hr : writeThreadFile _ _ _ = (inl ?u, _) |- _ => is_var u; destruct u
         | Hr : writeThreadsIndex _ _ _ = (inl ?u, _) |- _ => is_var u; destruct u
         end.

Lemma appendMessage_rewritten root threadId message w t w' :
  Store.appendMessage readThreadsIndex writeThreadsIndex readThreadFile writeThreadFile
    root threadId message w = (inl t, w') ->
  exists resolved,
    Store.resolveProjectRoot (Some root) w = (inl resolved, w) /\
    rewritten readThreadFile readThreadsIndex (holds resolved) CHAT_DIR_NAME resolved
      threadId
      (appended message t) (appended_summary message) w w'.
Proof.
  unfold Store.appendMessage. intros Hrun. open_run Hrun 5.
  unfold ret in Hrun. inversion Hrun; subst. clear Hrun.
  eapply rewritten_intro; eauto; repeat split.
Qed.

Lemma renameThread_rewritten root threadId newTitle w w' :
  Store.renameThread readThreadsIndex writeThreadsIndex readThreadFile writeThreadFile
    root threadId newTitle w = (inl tt, w') ->
  exists resolved,
    Store.resolveProjectRoot (Some root) w = (inl resolved, w) /\
    rewritten readThreadFile readThreadsIndex (holds resolved) CHAT_DIR_NAME resolved
      threadId
      (renamed newTitle) (renamed_summary newTitle) w w'.
Proof.
  unfold Store.renameThread. intros Hrun. open_run Hrun 4.
  eapply rewritten_intro; eauto; repeat split.
Qed.

Lemma archiveThread_rewritten root threadId w w' :
  Store.archiveThread readThreadsIndex writeThreadsIndex readThreadFile writeThreadFile
    root threadId w = (inl tt, w') ->
  exists resolved,
    Store.resolveProjectRoot (Some root) w = (inl resolved, w) /\
    rewritten readThreadFile readThreadsIndex (holds resolved) CHAT_DIR_NAME resolved
      threadId
      put_away put_away_summary w w'.
Proof.
  unfold Store.archiveThread. intros Hrun. open_run Hrun 4.
  eapply rewritten_intro; eauto; repeat split.
Qed.

Lemma clearMessages_rewritten root threadId w t w' :
  Store.clearMessages readThreadsIndex writeThreadsIndex readThreadFile writeThreadFile
    root threadId w = (inl t, w') ->
  exists resolved,
    Store.resolveProjectRoot (Some root) w = (inl resolved, w) /\
    rewritten readThreadFile readThreadsIndex (holds resolved) CHAT_DIR_NAME resolved
      threadId
      (cleared t) cleared_summary w w'.
Proof.
  unfold Store.clearMessages. intros Hrun. open_run Hrun 5.
  unfold ret in Hrun. inversion Hrun; subst. clear Hrun.
  eapply rewritten_intro; eauto; repeat split.
Qed.

End Mutations.

Section RevisionWrites.
Context `{Host} `{Crypto}.

Lemma encoded_writeThreadFile_wrote root thread w w' :
  Encoded.writeThreadFile root thread w = (inl tt, w') ->
  exists ev, w_trace w' = w_trace w ++ [ev] /\
             wrote holds_encoded (Encoded.getThreadFilePath root (id thread))
               (JSON_stringify_thread thread) true ev.
Proof.
  rewrite encoded_writeThreadFile_run. cbv zeta.
  destruct (writeFile _ _ _) as [d [e|]]; inversion 1; subst.
  eexists. split; [reflexivity|]. eexists. split; reflexivity.
Qed.

Lemma encoded_writeThreadsIndex_wrote root index w w' :
  Encoded.writeThreadsIndex root index w = (inl tt, w') ->
  exists ev, w_trace w' = w_trace w ++ [ev] /\
             wrote holds_encoded (Encoded.getThreadsIndexPath root)
               (JSON_stringify_index index) true ev.
Proof.
  rewrite encoded_writeThreadsIndex_run. cbv zeta.
  destruct (writeFile _ _ _) as [d [e|]]; inversion 1; subst.
  eexists. split; [reflexivity|]. eexists. split; reflexivity.
Qed.

Lemma encrypted_writeThreadFile_wrote root thread w w' :
  Encrypted.writeThreadFile root thread w = (inl tt, w') ->
  exists ev, w_trace w' = w_trace w ++ [ev] /\
             wrote (holds_encrypted root) (Encrypted.getThreadFilePath root (id thread))
               (JSON_stringify_thread thread) true ev.
Proof.
  rewrite encrypted_writeThreadFile_run. cbv zeta.
  destruct (writeFile _ _ _) as [d [e|]]; inversion 1; subst.
  eexists. split; [reflexivity|]. eexists. split; [eexists|]; reflexivity.
Qed.

Lemma encrypted_writeThreadsIndex_wrote root index w w' :
  Encrypted.writeThreadsIndex root index w = (inl tt, w') ->
  exists ev, w_trace w' = w_trace w ++ [ev] /\
             wrote (holds_encrypted root) (Encrypted.getThreadsIndexPath root)
               (JSON_stringify_index index) true ev.
Proof.
  rewrite encrypted_writeThreadsIndex_run. cbv zeta.
  destruct (writeFile _ _ _) as [d [e|]]; inversion 1; subst.
  eexists. split; [reflexivity|]. eexists. split; [eexists|]; reflexivity.
Qed.

(** X6: when [appendMessage] returns a thread, in either revision, it has
    read the stored thread and then the index; the thread returned is the
    stored one with the message at the end and a new [updatedAt]; it is what
    was written to the thread file, and the index was written with the
    first summary of that thread given the new date and the first 100 code
    units of the message as preview; the two writes are the last two
    events. *)
Theorem appendMessage_appends (root resolved threadId : jsstring) (message : ChatMessage)
    (thread : Thread) (w w' : World) :
  Store.resolveProjectRoot (Some root) w = (inl resolved, w) ->
  (Encoded.appendMessage root threadId message w = (inl thread, w') ->
   rewritten Encoded.readThreadFile Encoded.readThreadsIndex holds_encoded
     Encoded.CHAT_DIR_NAME resolved threadId
     (appended message thread) (appended_summary message) w w') /\
  (Encrypted.appendMessage root threadId message w = (inl thread, w') ->
   rewritten Encrypted.readThreadFile Encrypted.readThreadsIndex (holds_encrypted resolved)
     Encrypted.CHAT_DIR_NAME resolved threadId
     (appended message thread) (appended_summary message) w w').
Proof.
  intros Hroot. split; intros Hrun.
  - apply (appendMessage_rewritten Encoded.CHAT_DIR_NAME _ _ _ _ (fun _ => holds_encoded)
             encoded_writeThreadFile_wrote encoded_writeThreadsIndex_wrote)
      in Hrun as (r & Hr & Hrun).
    now rewrite (resolved_unique _ _ _ _ Hroot Hr).
  - apply (appendMessage_rewritten Encrypted.CHAT_DIR_NAME _ _ _ _ holds_encrypted
             encrypted_writeThreadFile_wrote encrypted_writeThreadsIndex_wrote)
      in Hrun as (r & Hr & Hrun).
    now rewrite (resolved_unique _ _ _ _ Hroot Hr).
Qed.

(** X7: when they return, [renameThread], [archiveThread] and, in the
    base64 revision, [clearMessages] rewrite the thread and its summary in
    the same way: the title, the status [archived], or no message and no
    preview, and a new [updatedAt] in both; nothing else changes. *)
Theorem rename_archive_clear (root resolved threadId newTitle : jsstring) (w w' : World) :
  Store.resolveProjectRoot (Some root) w = (inl resolved, w) ->
  (Encoded.renameThread root threadId newTitle w = (inl tt, w') ->
   rewritten Encoded.readThreadFile Encoded.readThreadsIndex holds_encoded
     Encoded.CHAT_DIR_NAME resolved threadId
     (renamed newTitle) (renamed_summary newTitle) w w') /\
  (Encrypted.renameThread root threadId newTitle w = (inl tt, w') ->
   rewritten Encrypted.readThreadFile Encrypted.readThreadsIndex (holds_encrypted resolved)
     Encrypted.CHAT_DIR_NAME resolved threadId
     (renamed newTitle) (renamed_summary newTitle) w w') /\
  (Encoded.archiveThread root threadId w = (inl tt, w') ->
   rewritten Encoded.readThreadFile Encoded.readThreadsIndex holds_encoded
     Encoded.CHAT_DIR_NAME resolved threadId put_away put_away_summary w w') /\
  (Encrypted.archiveThread root threadId w = (inl tt, w') ->
   rewritten Encrypted.readThreadFile Encrypted.readThreadsIndex (holds_encrypted resolved)
     Encrypted.CHAT_DIR_NAME resolved threadId put_away put_away_summary w w') /\
  (forall thread,
      Encoded.clearMessages root threadId w = (inl thread, w') ->
      rewritten Encoded.readThreadFile Encoded.readThreadsIndex holds_encoded
        Encoded.CHAT_DIR_NAME resolved threadId (cleared thread) cleared_summary w w').
Proof.
  intros Hroot. repeat split; [| | | |intros thread]; intros Hrun.
  - apply (renameThread_rewritten Encoded.CHAT_DIR_NAME _ _ _ _ (fun _ => holds_encoded)
             encoded_writeThreadFile_wrote encoded_writeThreadsIndex_wrote)
      in Hrun as (r & Hr & Hrun).
    now rewrite (resolved_unique _ _ _ _ Hroot Hr).
  - apply (renameThread_rewritten Encrypted.CHAT_DIR_NAME _ _ _ _ holds_encrypted
             encrypted_writeThreadFile_wrote encrypted_writeThreadsIndex_wrote)
      in Hrun as (r & Hr & Hrun).
    now rewrite (resolved_unique _ _ _ _ Hroot Hr).
  - apply (archiveThread_rewritten Encoded.CHAT_DIR_NAME _ _ _ _ (fun _ => holds_encoded)
             encoded_writeThreadFile_wrote encoded_writeThreadsIndex_wrote)
      in Hrun as (r & Hr & Hrun).
    now rewrite (resolved_unique _ _ _ _ Hroot Hr).
  - apply (archiveThread_rewritten Encrypted.CHAT_DIR_NAME _ _ _ _ holds_encrypted
             encrypted_writeThreadFile_wrote encrypted_writeThreadsIndex_wrote)
      in Hrun as (r & Hr & Hrun).
    now rewrite (resolved_unique _ _ _ _ Hroot Hr).
  - apply (clearMessages_rewritten Encoded.CHAT_DIR_NAME _ _ _ _ (fun _ => holds_encoded)
             encoded_writeThreadFile_wrote encoded_writeThreadsIndex_wrote)
      in Hrun as (r & Hr & Hrun).
    now rewrite (resolved_unique _ _ _ _ Hroot Hr).
Qed.

End RevisionWrites.

(** ** Calls without a project root or for a missing thread *)

Section Edges.
Context `{Host} `{Crypto}.

Lemma resolve_throws projectRoot w e w' :
  Store.resolveProjectRoot projectRoot w = (inr e, w') ->
  (projectRoot = None \/ projectRoot = Some []) /\ currentSketchDir = None /\
  e = no_project_root /\ w' = w.
Proof.
  unfold Store.resolveProjectRoot, ret, throw.
  destruct projectRoot as [[|c p]|]; destruct currentSketchDir eqn:Hdir;
    inversion 1; subst; auto.
Qed.

Lemma resolve_nothing projectRoot w :
  projectRoot = None \/ projectRoot = Some [] -> currentSketchDir = None ->
  Store.resolveProjectRoot projectRoot w = (inr no_project_root, w).
Proof.
  unfold Store.resolveProjectRoot. intros [-> | ->] ->; reflexivity.
Qed.

(** X8: on a host without sketch directory, [resolveProjectRoot] throws
    exactly when it gets no root or the empty string, and then
    [InvalidProjectRoot] in an unchanged world; every operation of both
    revisions called so throws that error and does nothing else. *)
Theorem operations_need_a_project_root (threadId newTitle : jsstring)
    (message : ChatMessage) (initialMessage : option ChatMessage) (w : World) :
  currentSketchDir = None ->
  (forall projectRoot e w',
      Store.resolveProjectRoot projectRoot w = (inr e, w') <->
      (projectRoot = None \/ projectRoot = Some []) /\ e = no_project_root /\ w' = w) /\
  throws (Encoded.listThreads None) no_project_root w w /\
  throws (Encoded.listThreads (Some [])) no_project_root w w /\
  throws (Encoded.createThread [] initialMessage) no_project_root w w /\
  throws (Encoded.getThread [] threadId) no_project_root w w /\
  throws (Encoded.appendMessage [] threadId message) no_project_root w w /\
  throws (Encoded.renameThread [] threadId newTitle) no_project_root w w /\
  throws (Encoded.archiveThread [] threadId) no_project_root w w /\
  throws (Encoded.deleteThread [] threadId) no_project_root w w /\
  throws (Encoded.clearMessages [] threadId) no_project_root w w /\
  throws (Encrypted.listThreads None) no_project_root w w /\
  throws (Encrypted.listThreads (Some [])) no_project_root w w /\
  throws (Encrypted.createThread [] initialMessage) no_project_root w w /\
  throws (Encrypted.getThread [] threadId) no_project_root w w /\
  throws (Encrypted.appendMessage [] threadId message) no_project_root w w /\
  throws (Encrypted.renameThread [] threadId newTitle) no_project_root w w /\
  throws (Encrypted.archiveThread [] threadId) no_project_root w w /\
  throws (Encrypted.deleteThread [] threadId) no_project_root w w.
Proof.
  intros Hdir. split.
  - intros projectRoot e w'. split.
    + intros Hrun. apply resolve_throws in Hrun. tauto.
    + intros (Hroot & -> & ->). now apply resolve_nothing.
  - assert (Hnone := resolve_nothing None w (or_introl eq_refl) Hdir).
    assert (Hempty := resolve_nothing (Some []) w (or_intror eq_refl) Hdir).
    unfold throws.
    unfold Encoded.listThreads, Encoded.createThread, Encoded.getThread,
      Encoded.appendMessage, Encoded.renameThread, Encoded.archiveThread,
      Encoded.deleteThread, Encoded.clearMessages,
      Encrypted.listThreads, Encrypted.createThread, Encrypted.getThread,
      Encrypted.appendMessage, Encrypted.renameThread, Encrypted.archiveThread,
      Encrypted.deleteThread.
    unfold Store.listThreads, Store.createThread, Store.getThread, Store.appendMessage,
      Store.renameThread, Store.archiveThread, Store.deleteThread, Store.clearMessages.
    unfold bind. rewrite Hnone, Hempty. repeat split.
Qed.

(** X9: when the file of the thread does not exist, [getThread],
    [appendMessage], [renameThread], [archiveThread] and [clearMessages]
    throw [NotFound] with [Thread not found: ] and the id, and leave the
    world as it is: nothing is written and nothing is logged. *)
Theorem operations_on_a_missing_thread (root resolved threadId newTitle : jsstring)
    (message : ChatMessage) (w : World) :
  Store.resolveProjectRoot (Some root) w = (inl resolved, w) ->
  let missing := NotFound (lit "Thread not found: " ++ threadId) threadId in
  (forall e,
      readFile (w_disk w) (Encoded.getThreadFilePath resolved threadId) = inr e ->
      err_code e = lit "ENOENT" ->
      throws (Encoded.getThread root threadId) missing w w /\
      throws (Encoded.appendMessage root threadId message) missing w w /\
      throws (Encoded.renameThread root threadId newTitle) missing w w /\
      throws (Encoded.archiveThread root threadId) missing w w /\
      throws (Encoded.clearMessages root threadId) missing w w) /\
  (forall e,
      readFile (w_disk w) (Encrypted.getThreadFilePath resolved threadId) = inr e ->
      err_code e = lit "ENOENT" ->
      throws (Encrypted.getThread root threadId) missing w w /\
      throws (Encrypted.appendMessage root threadId message) missing w w /\
      throws (Encrypted.renameThread root threadId newTitle) missing w w /\
      throws (Encrypted.archiveThread root threadId) missing w w).
Proof.
  intros Hroot missing. split; intros e Hread Hcode.
  - pose proof (readThreadFile_missing _ _ _ _ Hread (is_ENOENT_code _ Hcode)) as Hmiss.
    unfold throws, Encoded.getThread, Encoded.appendMessage, Encoded.renameThread,
      Encoded.archiveThread, Encoded.clearMessages,
      Store.getThread, Store.appendMessage, Store.renameThread, Store.archiveThread,
      Store.clearMessages.
    unfold bind. rewrite Hroot, Hmiss. repeat split.
  - pose proof (encrypted_readThreadFile_missing _ _ _ _ Hread (is_ENOENT_code _ Hcode))
      as Hmiss.
    unfold throws, Encrypted.getThread, Encrypted.appendMessage, Encrypted.renameThread,
      Encrypted.archiveThread,
      Store.getThread, Store.appendMessage, Store.renameThread, Store.archiveThread.
    unfold bind. rewrite Hroot, Hmiss. repeat split.
Qed.

End Edges.

(** ** deleteThread and createThread *)

Section Delete.
Context `{Host} `{Crypto}.

Lemma unlink_run path (w : World) :
  try_catch (fs_unlink path)
    (fun error =>
       if negb (is_ENOENT error)
       then logger_warn (lit "Failed to delete thread file: " ++ path)
       else ret tt) w
  = (inl tt,
     after w (fst (unlink (w_disk w) path))
       (EvUnlink path (succeeded (snd (unlink (w_disk w) path)))
        :: unlink_notices path (snd (unlink (w_disk w) path)))).
Proof.
  unfold try_catch, fs_unlink, fs_effect, unlink_notices, after.
  destruct (unlink _ _) as [d [e|]]; cbn [fst snd succeeded]; [|reflexivity].
  destruct (is_ENOENT (of_errno e)); cbn [negb]; [reflexivity|].
  unfold logger_warn, emit. cbn [w_disk w_trace w_tick].
  now rewrite <- app_assoc.
Qed.

(** X10: when the index can be read and written, [deleteThread] returns:
    it writes the index without the summaries of the thread and then
    unlinks the file of the thread; a failed unlink is not thrown, and is
    logged as a warning unless the file was missing.  The summaries of the
    other threads stay, and an index without the thread is written as it
    was read. *)
Theorem deleteThread_removes (root resolved threadId : jsstring) (index0 : ThreadsIndex)
    (w w1 : World) :
  Store.resolveProjectRoot (Some root) w = (inl resolved, w) ->
  let index :=
    mkThreadsIndex (filter (fun t => sum_id t <> threadId) (threads index0)) in
  (Encoded.readThreadsIndex resolved w = (inl index0, w1) ->
   removed (Encoded.deleteThread root threadId)
     (Encoded.getThreadsIndexPath resolved)
     (ChatEncoding.encodeChatData (JSON_stringify_index index))
     (Encoded.getThreadFilePath resolved threadId) w1 w) /\
  (Encrypted.readThreadsIndex resolved w = (inl index0, w1) ->
   removed (Encrypted.deleteThread root threadId)
     (Encrypted.getThreadsIndexPath resolved)
     (ChatEncryption.encryptChatData (randomBytes (w_tick w1) ChatEncryption.IV_LENGTH)
        (JSON_stringify_index index) resolved)
     (Encrypted.getThreadFilePath resolved threadId) w1 w) /\
  Forall (fun s => sum_id s <> threadId) (threads index) /\
  (Forall (fun s => sum_id s <> threadId) (threads index0) -> index = index0).
Proof.
  intros Hroot index. repeat split.
  - intros Hread Hwrite. cbv zeta.
    unfold Encoded.deleteThread, Store.deleteThread.
    unfold bind at 1. rewrite Hroot. unfold bind at 1. rewrite Hread.
    unfold bind at 1. rewrite encoded_writeThreadsIndex_run. cbv zeta.
    fold index. destruct (writeFile _ _ _) as [d2 r] eqn:Hw. simpl in Hwrite. subst r.
    rewrite unlink_run. cbn [fst w_disk after].
    eexists. split; [reflexivity|]. split; [reflexivity|].
    cbn [w_trace after]. now rewrite <- app_assoc.
  - intros Hread Hwrite. cbv zeta.
    unfold Encrypted.deleteThread, Store.deleteThread.
    unfold bind at 1. rewrite Hroot. unfold bind at 1. rewrite Hread.
    unfold bind at 1. rewrite encrypted_writeThreadsIndex_run. cbv zeta.
    fold index. destruct (writeFile _ _ _) as [d2 r] eqn:Hw. simpl in Hwrite. subst r.
    rewrite unlink_run. cbn [fst w_disk after].
    eexists. split; [reflexivity|]. split; [reflexivity|].
    cbn [w_trace after ticked]. now rewrite <- app_assoc.
  - subst index. cbn [threads]. apply Forall_forall. intros s Hs.
    now apply list_elem_of_filter in Hs as [Hs _].
  - intros Hall. subst index. destruct index0 as [l]. cbn [threads] in *. f_equal.
    induction Hall as [|s l Hs Hl IH]; [reflexivity|].
    rewrite filter_cons. case_decide; [now rewrite IH|contradiction].
Qed.

End Delete.

Section Create.
Context `{Host}.

Variable CHAT_DIR_NAME : jsstring.
Variable readThreadsIndex : jsstring -> M ThreadsIndex.
Variable writeThreadsIndex : jsstring -> ThreadsIndex -> M unit.
Variable writeThreadFile : jsstring -> Thread -> M unit.
Variable holds : jsstring -> jsstring -> jsstring -> Prop.

Local Abbreviation indexPath := (Store.getThreadsIndexPath CHAT_DIR_NAME).
Local Abbreviation threadPath := (Store.getThreadFilePath CHAT_DIR_NAME).

Hypothesis writeThreadFile_wrote :
  forall root thread w w',
    writeThreadFile root thread w = (inl tt, w') ->
    exists ev, w_trace w' = w_trace w ++ [ev] /\
               wrote (holds root) (threadPath root (id thread))
                 (JSON_stringify_thread thread) true ev.
Hypothesis writeThreadsIndex_wrote :
  forall root index w w',
    writeThreadsIndex root index w = (inl tt, w') ->
    exists ev, w_trace w' = w_trace w ++ [ev] /\
               wrote (holds root) (indexPath root) (JSON_stringify_index index) true ev.

Lemma ensureChatHistoryDir_run root w :
  Store.ensureChatHistoryDir CHAT_DIR_NAME root w
  = let chatDir := Store.getChatHistoryDir CHAT_DIR_NAME root in
    match mkdir (w_disk w) chatDir with
    | (d, None) => (inl tt, after w d [EvMkdir chatDir true])
    | (d, Some e) =>
        (inr (WriteFailed (lit "Failed to create chat history directory: "
                           ++ err_message e) chatDir),
         after w d [EvMkdir chatDir false;
                    EvLog Error (lit "Failed to create chat history directory: "
                                 ++ chatDir)])
    end.
Proof.
  unfold Store.ensureChatHistoryDir, try_catch, fs_mkdir, fs_effect, bind,
    logger_error, emit, throw, after. cbv zeta.
  destruct (mkdir _ _) as [d [e|]]; cbn [w_disk w_trace w_tick message_of of_errno];
    [|reflexivity].
  now rewrite <- app_assoc.
Qed.

Lemma createThread_created root initialMessage w thread w' :
  Store.createThread CHAT_DIR_NAME readThreadsIndex writeThreadsIndex writeThreadFile
    root initialMessage w = (inl thread, w') ->
  exists resolved,
    Store.resolveProjectRoot (Some root) w = (inl resolved, w) /\
    created readThreadsIndex (holds resolved) CHAT_DIR_NAME resolved initialMessage
      thread w w'.
Proof.
  unfold Store.createThread. intros Hrun.
  inv_bind Hrun. pose proof (resolve_pure _ _ _ _ Hrun0) as ->.
  exists a. split; [exact Hrun0|]. clear Hrun0.
  inv_bind Hrun. rewrite ensureChatHistoryDir_run in Hrun0. cbv zeta in Hrun0.
  destruct (mkdir _ _) as [d [e|]]; inversion Hrun0; subst; clear Hrun0.
  inv_bind Hrun. rewrite uuid_run in Hrun0. inversion Hrun0; subst; clear Hrun0.
  inv_bind Hrun. rewrite now_run in Hrun0. inversion Hrun0; subst; clear Hrun0.
  do 3 inv_bind Hrun. unfold ret in Hrun. inversion Hrun; subst; clear Hrun.
  destruct a0, a2.
  apply writeThreadFile_wrote in Hrun0 as (tev & Ht & Htev).
  apply writeThreadsIndex_wrote in Hrun2 as (iev & Hi & Hiev).
  cbn [projectRoot id createdAt updatedAt thread_status messages context title] in *.
  repeat split.
  exists tev, w0, a1, w1, iev. repeat split; try assumption.
  rewrite Ht. cbn [w_trace ticked after]. now rewrite <- app_assoc.
Qed.

End Create.

Section CreateRevisions.
Context `{Host} `{Crypto}.

(** X11: when [createThread] returns a thread, in either revision, the
    thread is a new active one of the resolved root, with the id and the
    date drawn at the two ticks of the call and the initial message if
    there is one; the directory was made, the thread written, and then the
    index read and written with the summary of the thread at its end. *)
Theorem createThread_creates (root resolved : jsstring)
    (initialMessage : option ChatMessage) (thread : Thread) (w w' : World) :
  Store.resolveProjectRoot (Some root) w = (inl resolved, w) ->
  (Encoded.createThread root initialMessage w = (inl thread, w') ->
   created Encoded.readThreadsIndex holds_encoded Encoded.CHAT_DIR_NAME resolved
     initialMessage thread w w') /\
  (Encrypted.createThread root initialMessage w = (inl thread, w') ->
   created Encrypted.readThreadsIndex (holds_encrypted resolved) Encrypted.CHAT_DIR_NAME
     resolved initialMessage thread w w').
Proof.
  intros Hroot. split; intros Hrun.
  - apply (createThread_created Encoded.CHAT_DIR_NAME _ _ _ (fun _ => holds_encoded)
             encoded_writeThreadFile_wrote encoded_writeThreadsIndex_wrote)
      in Hrun as (r & Hr & Hrun).
    now rewrite (resolved_unique _ _ _ _ Hroot Hr).
  - apply (createThread_created Encrypted.CHAT_DIR_NAME _ _ _ holds_encrypted
             encrypted_writeThreadFile_wrote encrypted_writeThreadsIndex_wrote)
      in Hrun as (r & Hr & Hrun).
    now rewrite (resolved_unique _ _ _ _ Hroot Hr).
Qed.

End CreateRevisions.

(** ** Writes that fail *)

Section Failures.
Context `{Host}.

Lemma bind_inr {A B} (m : M A) (k : A -> M B) w e w' :
  bind m k w = (inr e, w') ->
  m w = (inr e, w') \/ exists a w1, m w = (inl a, w1) /\ k a w1 = (inr e, w').
Proof.
  unfold bind. destruct (m w) as [[a|e0] w1]; [eauto|].
  inversion 1; subst. now left.
Qed.

Variable CHAT_DIR_NAME : jsstring.
Variable readThreadsIndex : jsstring -> M ThreadsIndex.
Variable writeThreadsIndex : jsstring -> ThreadsIndex -> M unit.
Variable readThreadFile : jsstring -> jsstring -> M Thread.
Variable writeThreadFile : jsstring -> Thread -> M unit.

Local Abbreviation indexPath := (Store.getThreadsIndexPath CHAT_DIR_NAME).
Local Abbreviation threadPath := (Store.getThreadFilePath CHAT_DIR_NAME).

Hypothesis readThreadsIndex_extends :
  forall root w r w', readThreadsIndex root w = (r, w') -> extends w w'.
Hypothesis readThreadFile_extends :
  forall root threadId w r w', readThreadFile root threadId w = (r, w') -> extends w w'.
Hypothesis readThreadsIndex_error :
  forall root w e w' m p, readThreadsIndex root w = (inr e, w') -> e <> WriteFailed m p.
Hypothesis readThreadFile_error :
  forall root threadId w e w' m p,
    readThreadFile root threadId w = (inr e, w') -> e <> WriteFailed m p.
Hypothesis writeThreadFile_result :
  forall root thread w r w',
    writeThreadFile root thread w = (r, w') ->
    exists data,
      (r = inl tt /\
       w_trace w' = w_trace w ++ [EvWriteFile (threadPath root (id thread)) data true]) \/
      (exists m,
          r = inr (WriteFailed m (threadPath root (id thread))) /\
          w_trace w' = w_trace w
                       ++ [EvWriteFile (threadPath root (id thread)) data false;
                           EvLog Error (lit "Failed to write thread file: "
                                        ++ threadPath root (id thread))]).
Hypothesis writeThreadsIndex_result :
  forall root index w r w',
    writeThreadsIndex root index w = (r, w') ->
    exists data,
      (r = inl tt /\
       w_trace w' = w_trace w ++ [EvWriteFile (indexPath root) data true]) \/
      (exists m,
          r = inr (WriteFailed m (indexPath root)) /\
          w_trace w' = w_trace w
                       ++ [EvWriteFile (indexPath root) data false;
                           EvLog Error (lit "Failed to write threads index: "
                                        ++ indexPath root)]).

(** The tail that the four operations share. *)
Lemma two_writes_failed {A} resolved thread index (tail : M A) w0 w2 m p w' before :
  bind (writeThreadFile resolved thread) (fun _ => tail) w2
  = (inr (WriteFailed m p), w') ->
  (forall w e w', tail w = (inr e, w') ->
                  writeThreadsIndex resolved index w = (inr e, w')) ->
  w_trace w2 = w_trace w0 ++ before ->
  write_failed CHAT_DIR_NAME resolved p w0 w'.
Proof.
  intros Hrun Htail Hbefore. exists before, (id thread).
  apply bind_inr in Hrun as [Hrun|(u & w3 & HwT & Hrun)].
  - apply writeThreadFile_result in Hrun as (data & [[[=] _]|(m' & [= <- <-] & Ht)]).
    exists data. left. split; [reflexivity|]. rewrite Ht, Hbefore. now rewrite <- app_assoc.
  - apply writeThreadFile_result in HwT as (written & [[_ Ht]|(m' & [=] & _)]).
    apply Htail in Hrun.
    apply writeThreadsIndex_result in Hrun as (data & [[[=] _]|(m' & [= <- <-] & Hi)]).
    exists data. right. exists written. split; [reflexivity|].
    rewrite Hi, Ht, Hbefore. now rewrite <- !app_assoc.
Qed.

Lemma tail_ret {A} resolved index (a : A) w e w' :
  bind (writeThreadsIndex resolved index) (fun _ => ret a) w = (inr e, w') ->
  writeThreadsIndex resolved index w = (inr e, w').
Proof. intros Hrun. now apply bind_inr in Hrun as [Hrun|(u & w1 & _ & [=])]. Qed.

Tactic Notation "open_failure" hyp(Hrun) constr(m) constr(p) tactic(Htail) :=
  let resolved := fresh "resolved" in
  let e1 := fresh "e1" in
  let e2 := fresh "e2" in
  apply bind_inr in Hrun as [Hrun|(resolved & ? & Hresolve & Hrun)];
  [apply resolve_throws in Hrun as (_ & _ & [=] & _)|];
  pose proof (resolve_pure _ _ _ _ Hresolve) as ->;
  exists resolved; split; [exact Hresolve|];
  apply bind_inr in Hrun as [Hrun|(? & ? & HrT & Hrun)];
  [now apply readThreadFile_error with (m := m) (p := p) in Hrun|];
  apply readThreadFile_extends in HrT as [e1 H1];
  apply bind_inr in Hrun as [Hrun|(? & ? & Hnow & Hrun)];
  [discriminate|];
  apply tick_trace in Hnow;
  apply bind_inr in Hrun as [Hrun|(? & ? & HrI & Hrun)];
  [now apply readThreadsIndex_error with (m := m) (p := p) in Hrun|];
  apply readThreadsIndex_extends in HrI as [e2 H2];
  eapply (two_writes_failed _ _ _ _ _ _ _ _ _ (e1 ++ e2)); [exact Hrun|Htail|];
  rewrite H2, Hnow, H1; now rewrite <- app_assoc.

Lemma appendMessage_write_failed root threadId message w m p w' :
  Store.appendMessage readThreadsIndex writeThreadsIndex readThreadFile writeThreadFile
    root threadId message w = (inr (WriteFailed m p), w') ->
  exists resolved,
    Store.resolveProjectRoot (Some root) w = (inl resolved, w) /\
    write_failed CHAT_DIR_NAME resolved p w w'.
Proof.
  unfold Store.appendMessage. intros Hrun.
  open_failure Hrun m p (intros ? ? ?; apply tail_ret).
Qed.

Lemma renameThread_write_failed root threadId newTitle w m p w' :
  Store.renameThread readThreadsIndex writeThreadsIndex readThreadFile writeThreadFile
    root threadId newTitle w = (inr (WriteFailed m p), w') ->
  exists resolved,
    Store.resolveProjectRoot (Some root) w = (inl resolved, w) /\
    write_failed CHAT_DIR_NAME resolved p w w'.
Proof.
  unfold Store.renameThread. intros Hrun.
  open_failure Hrun m p (intros ? ? ? Htail; exact Htail).
Qed.

Lemma archiveThread_write_failed root threadId w m p w' :
  Store.archiveThread readThreadsIndex writeThreadsIndex readThreadFile writeThreadFile
    root threadId w = (inr (WriteFailed m p), w') ->
  exists resolved,
    Store.resolveProjectRoot (Some root) w = (inl resolved, w) /\
    write_failed CHAT_DIR_NAME resolved p w w'.
Proof.
  unfold Store.archiveThread. intros Hrun.
  open_failure Hrun m p (intros ? ? ? Htail; exact Htail).
Qed.

Lemma clearMessages_write_failed root threadId w m p w' :
  Store.clearMessages readThreadsIndex writeThreadsIndex readThreadFile writeThreadFile
    root threadId w = (inr (WriteFailed m p), w') ->
  exists resolved,
    Store.resolveProjectRoot (Some root) w = (inl resolved, w) /\
    write_failed CHAT_DIR_NAME resolved p w w'.
Proof.
  unfold Store.clearMessages. intros Hrun.
  open_failure Hrun m p (intros ? ? ?; apply tail_ret).
Qed.

Lemma createThread_write_failed root initialMessage w m p w' :
  Store.createThread CHAT_DIR_NAME readThreadsIndex writeThreadsIndex writeThreadFile
    root initialMessage w = (inr (WriteFailed m p), w') ->
  exists resolved,
    Store.resolveProjectRoot (Some root) w = (inl resolved, w) /\
    create_failed CHAT_DIR_NAME resolved p w w'.
Proof.
  unfold Store.createThread. intros Hrun.
  apply bind_inr in Hrun as [Hrun|(resolved & ? & Hresolve & Hrun)];
    [apply resolve_throws in Hrun as (_ & _ & [=] & _)|].
  pose proof (resolve_pure _ _ _ _ Hresolve) as ->.
  exists resolved. split; [exact Hresolve|].
  unfold bind at 1 in Hrun. rewrite ensureChatHistoryDir_run in Hrun. cbv zeta in Hrun.
  destruct (mkdir _ _) as [d [e|]].
  { inversion Hrun; subst. left. split; reflexivity. }
  right.
  unfold bind at 1 in Hrun. rewrite uuid_run in Hrun.
  unfold bind at 1 in Hrun. rewrite now_run in Hrun.
  apply bind_inr in Hrun as [Hrun|(u & w1 & HwT & Hrun)].
  - apply writeThreadFile_result in Hrun as (data & [[[=] _]|(m' & [= -> ->] & Ht)]).
    left. exists data. split; [reflexivity|]. rewrite Ht.
    cbn [w_trace ticked after w_tick id]. now rewrite <- app_assoc.
  - apply writeThreadFile_result in HwT as (written & [[_ Ht]|(m' & [=] & _)]).
    apply bind_inr in Hrun as [Hrun|(index0 & w2 & HrI & Hrun)];
      [now apply readThreadsIndex_error with (m := m) (p := p) in Hrun|].
    apply readThreadsIndex_extends in HrI as [between H2].
    apply tail_ret in Hrun.
    apply writeThreadsIndex_result in Hrun as (data & [[[=] _]|(m' & [= -> ->] & Hi)]).
    right. exists written, between, data. split; [reflexivity|].
    rewrite Hi, H2, Ht. cbn [w_trace ticked after w_tick id]. now rewrite <- !app_assoc.
Qed.

End Failures.

Section RevisionFailures.
Context `{Host} `{Crypto}.

Lemma encoded_readThreadsIndex_error root w e w' m p :
  Encoded.readThreadsIndex root w = (inr e, w') -> e <> WriteFailed m p.
Proof.
  destruct (readFile (w_disk w) (Encoded.getThreadsIndexPath root)) as [content|e0] eqn:Hread.
  - rewrite (readThreadsIndex_read _ _ _ Hread). cbv zeta.
    destruct (JSON_parse_index _); discriminate.
  - destruct (is_ENOENT (of_errno e0)) eqn:Hcode.
    + now rewrite (readThreadsIndex_missing _ _ _ Hread Hcode).
    + rewrite (readThreadsIndex_unreadable _ _ _ Hread Hcode). cbv zeta.
      destruct (_ || _); [discriminate|]. now intros [= <-].
Qed.

Lemma encoded_readThreadFile_error root threadId w e w' m p :
  Encoded.readThreadFile root threadId w = (inr e, w') -> e <> WriteFailed m p.
Proof.
  destruct (readFile (w_disk w) (Encoded.getThreadFilePath root threadId))
    as [content|e0] eqn:Hread.
  - rewrite (readThreadFile_read _ _ _ _ Hread). cbv zeta.
    destruct (JSON_parse_thread _); [discriminate|]. now intros [= <-].
  - destruct (is_ENOENT (of_errno e0)) eqn:Hcode.
    + rewrite (readThreadFile_missing _ _ _ _ Hread Hcode). now intros [= <-].
    + rewrite (readThreadFile_unreadable _ _ _ _ Hread Hcode). now intros [= <-].
Qed.

Lemma encrypted_readThreadsIndex_error root w e w' m p :
  Encrypted.readThreadsIndex root w = (inr e, w') -> e <> WriteFailed m p.
Proof.
  destruct (readFile (w_disk w) (Encrypted.getThreadsIndexPath root))
    as [content|e0] eqn:Hread.
  - rewrite (encrypted_readThreadsIndex_read _ _ _ Hread). cbv zeta.
    destruct (ChatEncryption.isEncrypted content).
    + destruct (ChatEncryption.decryptChatData content root) as [text|message];
        [destruct (JSON_parse_index text)|]; (discriminate || now intros [= <-]).
    + destruct (JSON_parse_index content); (discriminate || now intros [= <-]).
  - destruct (is_ENOENT (of_errno e0)) eqn:Hcode.
    + now rewrite (encrypted_readThreadsIndex_missing _ _ _ Hread Hcode).
    + rewrite (encrypted_readThreadsIndex_unreadable _ _ _ Hread Hcode). now intros [= <-].
Qed.

Lemma encrypted_readThreadFile_error root threadId w e w' m p :
  Encrypted.readThreadFile root threadId w = (inr e, w') -> e <> WriteFailed m p.
Proof.
  destruct (readFile (w_disk w) (Encrypted.getThreadFilePath root threadId))
    as [content|e0] eqn:Hread.
  - rewrite (encrypted_readThreadFile_read _ _ _ _ Hread). cbv zeta.
    destruct (ChatEncryption.isEncrypted content).
    + destruct (ChatEncryption.decryptChatData content root) as [text|message];
        [destruct (JSON_parse_thread text)|]; (discriminate || now intros [= <-]).
    + destruct (JSON_parse_thread content); (discriminate || now intros [= <-]).
  - destruct (is_ENOENT (of_errno e0)) eqn:Hcode.
    + rewrite (encrypted_readThreadFile_missing _ _ _ _ Hread Hcode). now intros [= <-].
    + rewrite (encrypted_readThreadFile_unreadable _ _ _ _ Hread Hcode). now intros [= <-].
Qed.

Ltac write_result :=
  cbv zeta; destruct (writeFile _ _ _) as [d [e|]]; inversion 1; subst;
  eexists; [right; eexists|left]; split; reflexivity.

Lemma encoded_writeThreadFile_result root thread w r w' :
  Encoded.writeThreadFile root thread w = (r, w') ->
  exists data,
    (r = inl tt /\
     w_trace w' = w_trace w
                  ++ [EvWriteFile (Encoded.getThreadFilePath root (id thread)) data true]) \/
    (exists m,
        r = inr (WriteFailed m (Encoded.getThreadFilePath root (id thread))) /\
        w_trace w' = w_trace w
                     ++ [EvWriteFile (Encoded.getThreadFilePath root (id thread)) data false;
                         EvLog Error (lit "Failed to write thread file: "
                                      ++ Encoded.getThreadFilePath root (id thread))]).
Proof. rewrite encoded_writeThreadFile_run. write_result. Qed.

Lemma encoded_writeThreadsIndex_result root index w r w' :
  Encoded.writeThreadsIndex root index w = (r, w') ->
  exists data,
    (r = inl tt /\
     w_trace w' = w_trace w ++ [EvWriteFile (Encoded.getThreadsIndexPath root) data true]) \/
    (exists m,
        r = inr (WriteFailed m (Encoded.getThreadsIndexPath root)) /\
        w_trace w' = w_trace w
                     ++ [EvWriteFile (Encoded.getThreadsIndexPath root) data false;
                         EvLog Error (lit "Failed to write threads index: "
                                      ++ Encoded.getThreadsIndexPath root)]).
Proof. rewrite encoded_writeThreadsIndex_run. write_result. Qed.

Lemma encrypted_writeThreadFile_result root thread w r w' :
  Encrypted.writeThreadFile root thread w = (r, w') ->
  exists data,
    (r = inl tt /\
     w_trace w' = w_trace w
                  ++ [EvWriteFile (Encrypted.getThreadFilePath root (id thread)) data true]) \/
    (exists m,
        r = inr (WriteFailed m (Encrypted.getThreadFilePath root (id thread))) /\
        w_trace w' = w_trace w
                     ++ [EvWriteFile (Encrypted.getThreadFilePath root (id thread)) data false;
                         EvLog Error (lit "Failed to write thread file: "
                                      ++ Encrypted.getThreadFilePath root (id thread))]).
Proof. rewrite encrypted_writeThreadFile_run. write_result. Qed.

Lemma encrypted_writeThreadsIndex_result root index w r w' :
  Encrypted.writeThreadsIndex root index w = (r, w') ->
  exists data,
    (r = inl tt /\
     w_trace w' = w_trace w ++ [EvWriteFile (Encrypted.getThreadsIndexPath root) data true]) \/
    (exists m,
        r = inr (WriteFailed m (Encrypted.getThreadsIndexPath root)) /\
        w_trace w' = w_trace w
                     ++ [EvWriteFile (Encrypted.getThreadsIndexPath root) data false;
                         EvLog Error (lit "Failed to write threads index: "
                                      ++ Encrypted.getThreadsIndexPath root)]).
Proof. rewrite encrypted_writeThreadsIndex_run. write_result. Qed.

Ltac by_revision lemma Hroot Hrun :=
  first
    [ apply (lemma Encoded.CHAT_DIR_NAME _ _ _ _
               encoded_readThreadsIndex_extends encoded_readThreadFile_extends
               encoded_readThreadsIndex_error encoded_readThreadFile_error
               encoded_writeThreadFile_result encoded_writeThreadsIndex_result) in Hrun
    | apply (lemma Encrypted.CHAT_DIR_NAME _ _ _ _
               encrypted_readThreadsIndex_extends encrypted_readThreadFile_extends
               encrypted_readThreadsIndex_error encrypted_readThreadFile_error
               encrypted_writeThreadFile_result encrypted_writeThreadsIndex_result) in Hrun ];
  destruct Hrun as (r & Hr & Hrun);
  now rewrite (resolved_unique _ _ _ _ Hroot Hr).

(** X12: when an operation that rewrites a thread throws [WriteFailed]
    for a path, either the path is that of a thread file whose write failed
    as the last effect before the error log, or it is that of the index and
    the thread file had been written right before the write of the index
    failed: the thread is then stored ahead of the index. *)
Theorem write_failures (root resolved threadId newTitle : jsstring)
    (message : ChatMessage) (failure path : jsstring) (w w' : World) :
  Store.resolveProjectRoot (Some root) w = (inl resolved, w) ->
  let failed := WriteFailed failure path in
  let encoded := write_failed Encoded.CHAT_DIR_NAME resolved path w w' in
  let encrypted := write_failed Encrypted.CHAT_DIR_NAME resolved path w w' in
  (throws (Encoded.appendMessage root threadId message) failed w w' -> encoded) /\
  (throws (Encoded.renameThread root threadId newTitle) failed w w' -> encoded) /\
  (throws (Encoded.archiveThread root threadId) failed w w' -> encoded) /\
  (throws (Encoded.clearMessages root threadId) failed w w' -> encoded) /\
  (throws (Encrypted.appendMessage root threadId message) failed w w' -> encrypted) /\
  (throws (Encrypted.renameThread root threadId newTitle) failed w w' -> encrypted) /\
  (throws (Encrypted.archiveThread root threadId) failed w w' -> encrypted).
Proof.
  intros Hroot. cbv zeta. unfold throws. repeat split; intros Hrun.
  - by_revision appendMessage_write_failed Hroot Hrun.
  - by_revision renameThread_write_failed Hroot Hrun.
  - by_revision archiveThread_write_failed Hroot Hrun.
  - by_revision clearMessages_write_failed Hroot Hrun.
  - by_revision appendMessage_write_failed Hroot Hrun.
  - by_revision renameThread_write_failed Hroot Hrun.
  - by_revision archiveThread_write_failed Hroot Hrun.
Qed.

(** X13: when [createThread] throws [WriteFailed] for a path, the path is
    the chat directory and [mkdir] failed as the only effect, or the file
    of the new thread, whose write failed after the directory was made, or
    the index, whose write failed after the thread had been written. *)
Theorem createThread_failures (root resolved : jsstring)
    (initialMessage : option ChatMessage) (failure path : jsstring) (w w' : World) :
  Store.resolveProjectRoot (Some root) w = (inl resolved, w) ->
  (throws (Encoded.createThread root initialMessage) (WriteFailed failure path) w w' ->
   create_failed Encoded.CHAT_DIR_NAME resolved path w w') /\
  (throws (Encrypted.createThread root initialMessage) (WriteFailed failure path) w w' ->
   create_failed Encrypted.CHAT_DIR_NAME resolved path w w').
Proof.
  intros Hroot. unfold throws. split; intros Hrun.
  - apply (createThread_write_failed Encoded.CHAT_DIR_NAME _ _ _
             encoded_readThreadsIndex_extends encoded_readThreadsIndex_error
             encoded_writeThreadFile_result encoded_writeThreadsIndex_result)
      in Hrun as (r & Hr & Hrun).
    now rewrite (resolved_unique _ _ _ _ Hroot Hr).
  - apply (createThread_write_failed Encrypted.CHAT_DIR_NAME _ _ _
             encrypted_readThreadsIndex_extends encrypted_readThreadsIndex_error
             encrypted_writeThreadFile_result encrypted_writeThreadsIndex_result)
      in Hrun as (r & Hr & Hrun).
    now rewrite (resolved_unique _ _ _ _ Hroot Hr).
Qed.

End RevisionFailures.

(** ** Files read back *)

Section RoundTrips.
Context `{Host} `{Crypto}.

Lemma decrypt_encrypt (iv : bytes) (s root : jsstring) :
  well_formed s = true -> nonce iv ->
  ChatEncryption.decryptChatData (ChatEncryption.encryptChatData iv s root) root = inl s.
Proof.
  intros Hwf [Hlen Hiv].
  unfold ChatEncryption.decryptChatData.
  rewrite (proj2 (encryptChatData_segments iv s root)).
  pose proof (gcm_seal_bytes (ChatEncryption.deriveKey root) iv (Buffer.from_utf8 s))
    as [Hct Htag].
  rewrite !from_base64_toString by assumption.
  rewrite gcm_open_seal.
  - now rewrite toString_utf8_from_utf8.
  - apply deriveKey_length.
  - exact Hlen.
  - apply pbkdf2Sync_bytes.
  - exact Hiv.
  - apply from_utf8_bytes.
Qed.

Lemma decoded_text_encoded text :
  well_formed text = true -> ChatEncoding.looks_like_json text = true ->
  ChatEncoding.isEncoded (ChatEncoding.encodeChatData text) = true /\
  decoded_text (ChatEncoding.encodeChatData text) = text.
Proof.
  intros Hwf Hjson.
  assert (Henc : ChatEncoding.isEncoded (ChatEncoding.encodeChatData text) = true).
  { unfold ChatEncoding.encodeChatData.
    rewrite isEncoded_base64 by apply from_utf8_bytes.
    now rewrite toString_utf8_from_utf8. }
  split; [exact Henc|]. unfold decoded_text. rewrite Henc.
  unfold ChatEncoding.encodeChatData.
  rewrite from_base64_toString by apply from_utf8_bytes.
  now apply toString_utf8_from_utf8.
Qed.

(** X14: in the base64 revision a thread or an index that has been
    written is read back as it was, and reading it writes nothing, provided
    the file system returns what was written to it, [JSON.parse] returns
    the document from the text that [JSON.stringify] made of it, and that
    text is a well-formed string. *)
Theorem encoded_files_read_back (root : jsstring) (thread : Thread) (index : ThreadsIndex)
    (w w1 : World) :
  let threadText := JSON_stringify_thread thread in
  let indexText := JSON_stringify_index index in
  (well_formed threadText = true -> ChatEncoding.looks_like_json threadText = true ->
   JSON_parse_thread threadText = inl thread ->
   Encoded.writeThreadFile root thread w = (inl tt, w1) ->
   reads_as_written (w_disk w) (Encoded.getThreadFilePath root (id thread))
     (ChatEncoding.encodeChatData threadText) ->
   Encoded.readThreadFile root (id thread) w1 = (inl thread, w1)) /\
  (well_formed indexText = true -> ChatEncoding.looks_like_json indexText = true ->
   JSON_parse_index indexText = inl index ->
   Encoded.writeThreadsIndex root index w = (inl tt, w1) ->
   reads_as_written (w_disk w) (Encoded.getThreadsIndexPath root)
     (ChatEncoding.encodeChatData indexText) ->
   Encoded.readThreadsIndex root w1 = (inl index, w1)).
Proof.
  cbv zeta. split; intros Hwf Hjson Hparse Hwrite Hread;
    destruct (decoded_text_encoded _ Hwf Hjson) as [Henc Htext].
  - rewrite encoded_writeThreadFile_run in Hwrite. cbv zeta in Hwrite.
    unfold reads_as_written in Hread.
    destruct (writeFile _ _ _) as [d [e|]]; inversion Hwrite; subst; clear Hwrite.
    cbn [fst] in Hread.
    rewrite (readThreadFile_read root (id thread) _ (after w d _) Hread). cbv zeta.
    unfold migrated. now rewrite Henc, Htext, Hparse.
  - rewrite encoded_writeThreadsIndex_run in Hwrite. cbv zeta in Hwrite.
    unfold reads_as_written in Hread.
    destruct (writeFile _ _ _) as [d [e|]]; inversion Hwrite; subst; clear Hwrite.
    cbn [fst] in Hread.
    rewrite (readThreadsIndex_read root _ (after w d _) Hread). cbv zeta.
    unfold migrated. now rewrite Henc, Htext, Hparse.
Qed.

(** X15: the same in the ciphertext revision, where the nonce drawn is 16
    bytes: what [writeThreadFile] and [writeThreadsIndex] store under the
    project root is decrypted and parsed to the document written. *)
Theorem encrypted_files_read_back (root : jsstring) (thread : Thread)
    (index : ThreadsIndex) (w w1 : World) :
  let threadText := JSON_stringify_thread thread in
  let indexText := JSON_stringify_index index in
  let iv := randomBytes (w_tick w) ChatEncryption.IV_LENGTH in
  nonce iv ->
  (well_formed threadText = true -> JSON_parse_thread threadText = inl thread ->
   Encrypted.writeThreadFile root thread w = (inl tt, w1) ->
   reads_as_written (w_disk w) (Encrypted.getThreadFilePath root (id thread))
     (ChatEncryption.encryptChatData iv threadText root) ->
   Encrypted.readThreadFile root (id thread) w1 = (inl thread, w1)) /\
  (well_formed indexText = true -> JSON_parse_index indexText = inl index ->
   Encrypted.writeThreadsIndex root index w = (inl tt, w1) ->
   reads_as_written (w_disk w) (Encrypted.getThreadsIndexPath root)
     (ChatEncryption.encryptChatData iv indexText root) ->
   Encrypted.readThreadsIndex root w1 = (inl index, w1)).
Proof.
  cbv zeta. intros Hiv. split; intros Hwf Hparse Hwrite Hread.
  - rewrite encrypted_writeThreadFile_run in Hwrite. cbv zeta in Hwrite.
    unfold reads_as_written in Hread.
    destruct (writeFile _ _ _) as [d [e|]]; inversion Hwrite; subst; clear Hwrite.
    cbn [fst] in Hread.
    rewrite (encrypted_readThreadFile_read root (id thread) _ (after (ticked w) d _) Hread).
    cbv zeta. rewrite (proj1 (encryptChatData_segments _ _ _)).
    now rewrite (decrypt_encrypt _ _ _ Hwf Hiv), Hparse.
  - rewrite encrypted_writeThreadsIndex_run in Hwrite. cbv zeta in Hwrite.
    unfold reads_as_written in Hread.
    destruct (writeFile _ _ _) as [d [e|]]; inversion Hwrite; subst; clear Hwrite.
    cbn [fst] in Hread.
    rewrite (encrypted_readThreadsIndex_read root _ (after (ticked w) d _) Hread).
    cbv zeta. rewrite (proj1 (encryptChatData_segments _ _ _)).
    now rewrite (decrypt_encrypt _ _ _ Hwf Hiv), Hparse.
Qed.

End RoundTrips.

(** ** The branches for a failed decode *)

Section Legacy.
Context `{Host}.

Lemma silent_refl w : silent w w.
Proof. exists []. now rewrite app_nil_r. Qed.

Lemma silent_trans w1 w2 w3 : silent w1 w2 -> silent w2 w3 -> silent w1 w3.
Proof.
  intros (e1 & H1 & Q1) (e2 & H2 & Q2). exists (e1 ++ e2). split.
  - now rewrite H2, H1, app_assoc.
  - rewrite forallb_app. now rewrite Q1, Q2.
Qed.

Lemma silent_after w d evs :
  forallb (fun ev => negb (logs_decode_failure ev)) evs = true -> silent w (after w d evs).
Proof. intros Hq. now exists evs. Qed.

Lemma silent_migrated path content warning (w : World) :
  reports_decode_failure warning = false ->
  silent w (migrated path content warning w).
Proof.
  intros Hw. unfold migrated, write_back.
  destruct (ChatEncoding.isEncoded content); [apply silent_refl|].
  destruct (writeFile _ _ _) as [d [e|]]; apply silent_after; cbn; now rewrite ?Hw.
Qed.

Lemma silent_discard path error deleted not_deleted (w : World) :
  reports_decode_failure error = false -> reports_decode_failure deleted = false ->
  reports_decode_failure not_deleted = false ->
  silent w (discard path error deleted not_deleted w).
Proof.
  intros He Hd Hn. unfold discard.
  destruct (unlink _ _) as [d [e|]];
    (eapply silent_trans; [apply (silent_after w (w_disk w))|apply silent_after]);
    cbn; now rewrite ?He, ?Hd, ?Hn.
Qed.

Lemma silent_recovered path (w : World) : silent w (recovered_index path w).
Proof.
  unfold recovered_index. destruct (unlink _ _) as [d [e|]]; now apply silent_after.
Qed.

(** X16: in the base64 revision [decode] never throws, so the handlers of
    a failed decode never run: no read logs [Failed to decode] or reports
    [Legacy encrypted], in a log or in the error it throws.  A file of three
    segments is decoded as base64 like any other, and when the result does
    not parse it is handled as a corrupted file. *)
Theorem decode_failures_never_happen (root threadId : jsstring) (w : World) :
  let threadPath := Encoded.getThreadFilePath root threadId in
  let indexPath := Encoded.getThreadsIndexPath root in
  (forall content, exists text, Encoded.decode content w = (inl text, w)) /\
  (forall r w', Encoded.readThreadFile root threadId w = (r, w') ->
                no_decode_failure r w w') /\
  (forall r w', Encoded.readThreadsIndex root w = (r, w') ->
                no_decode_failure r w w') /\
  (forall content,
      three_segments content = true ->
      let text := Buffer.toString_utf8 (Buffer.from_base64 content) in
      (readFile (w_disk w) threadPath = inl content ->
       Encoded.readThreadFile root threadId w
       = match JSON_parse_thread text with
         | inl thread => (inl thread, w)
         | inr message =>
             (inr (ReadFailed (lit "Failed to parse thread: " ++ message) threadPath),
              discard threadPath (lit "Failed to parse thread JSON: " ++ threadPath)
                (lit "Deleted corrupted thread file: " ++ threadPath)
                (lit "Failed to delete corrupted thread file: " ++ threadPath) w)
         end) /\
      (readFile (w_disk w) indexPath = inl content ->
       Encoded.readThreadsIndex root w
       = match JSON_parse_index text with
         | inl index => (inl index, w)
         | inr _ =>
             (inl Store.empty_index,
              discard indexPath (lit "Failed to parse threads index JSON: " ++ indexPath)
                (lit "Deleted corrupted threads index, starting fresh: " ++ indexPath)
                (lit "Failed to delete corrupted threads index: " ++ indexPath) w)
         end)).
Proof.
  cbv zeta. split; [intros content; eexists; apply decode_run|]. split; [|split].
  - intros r w'.
    destruct (readFile (w_disk w) (Encoded.getThreadFilePath root threadId))
      as [content|e] eqn:Hread.
    + rewrite (readThreadFile_read _ _ _ _ Hread). cbv zeta.
      destruct (JSON_parse_thread _); intros [<- <-]%pair_equal_spec;
        (split; [|intros e [= <-]; reflexivity]).
      * now apply silent_migrated.
      * eapply silent_trans; [apply silent_migrated|apply silent_discard]; reflexivity.
    + destruct (is_ENOENT (of_errno e)) eqn:Hcode.
      * rewrite (readThreadFile_missing _ _ _ _ Hread Hcode). intros [<- <-]%pair_equal_spec.
        split; [apply silent_refl|intros e' [= <-]; reflexivity].
      * rewrite (readThreadFile_unreadable _ _ _ _ Hread Hcode). intros [<- <-]%pair_equal_spec.
        split; [now apply silent_after|intros e' [= <-]; reflexivity].
  - intros r w'.
    destruct (readFile (w_disk w) (Encoded.getThreadsIndexPath root))
      as [content|e] eqn:Hread.
    + rewrite (readThreadsIndex_read _ _ _ Hread). cbv zeta.
      destruct (JSON_parse_index _); intros [<- <-]%pair_equal_spec;
        (split; [|discriminate]).
      * now apply silent_migrated.
      * eapply silent_trans; [apply silent_migrated|apply silent_discard]; reflexivity.
    + destruct (is_ENOENT (of_errno e)) eqn:Hcode.
      * rewrite (readThreadsIndex_missing _ _ _ Hread Hcode).
        intros [<- <-]%pair_equal_spec. split; [apply silent_refl|discriminate].
      * rewrite (readThreadsIndex_unreadable _ _ _ Hread Hcode). cbv zeta.
        destruct (_ || _); intros [<- <-]%pair_equal_spec; split.
        -- eapply silent_trans; [apply (silent_after w (w_disk w))|apply silent_recovered].
           reflexivity.
        -- discriminate.
        -- now apply silent_after.
        -- intros e' [= <-]. reflexivity.
  - intros content Hsegments. unfold three_segments in Hsegments.
    assert (Henc : ChatEncoding.isEncoded content = true).
    { unfold ChatEncoding.isEncoded. now rewrite Hsegments. }
    split; intros Hread.
    + rewrite (readThreadFile_read _ _ _ _ Hread). cbv zeta.
      unfold migrated, decoded_text. now rewrite Henc.
    + rewrite (readThreadsIndex_read _ _ _ Hread). cbv zeta.
      unfold migrated, decoded_text. now rewrite Henc.
Qed.

End Legacy.

(** ** The client of the browser *)

Section ClientProps.
Context `{Host}.
Import Client.
Variable service : Service.
Variable maybeLoadSketch : jsstring -> M (option jsstring).

Lemma resolveCurrentProjectRoot_nothing st w :
  resolveCurrentProjectRoot maybeLoadSketch st w = (inl None, st, w).
Proof. reflexivity. Qed.

Lemma root_or_current_truthy projectRoot st w :
  root_or_current maybeLoadSketch projectRoot st w = (inl (truthy projectRoot), st, w).
Proof. destruct projectRoot as [[|c r]|]; reflexivity. Qed.

Lemma truthy_idem s : truthy (truthy s) = truthy s.
Proof. destruct s as [[|c r]|]; reflexivity. Qed.

Lemma client_listThreads_refreshed projectRoot st w :
  exists threads st' w',
    listThreads service maybeLoadSketch (Some projectRoot) st w = (inl threads, st', w') /\
    refreshed service projectRoot st w threads st' w'.
Proof.
  unfold listThreads, c_bind at 1. rewrite root_or_current_truthy, truthy_idem.
  destruct projectRoot as [|c root]; cbn [truthy].
  - exists [], st, w. repeat split.
  - unfold c_try, c_bind, call.
    destruct (service_listThreads service (c :: root) w) as [[threads|e] w1] eqn:Hcall.
    + eexists _, _, _. split; [reflexivity|]. split; [reflexivity|].
      exists (inl threads). repeat split. exact Hcall.
    + eexists _, _, _. split; [reflexivity|]. split; [reflexivity|].
      exists (inr e). repeat split. exact Hcall.
Qed.

Lemma told_threads_snoc ns n :
  told_threads (ns ++ [n]) =
  match n with ThreadsChanged l => l | _ => told_threads ns end.
Proof. unfold told_threads. rewrite fold_left_app. reflexivity. Qed.

Lemma told_thread_snoc ns n :
  told_thread (ns ++ [n]) =
  match n with ActiveThreadChanged t => t | _ => told_thread ns end.
Proof. unfold told_thread. rewrite fold_left_app. reflexivity. Qed.

Lemma refreshed_in_step projectRoot st1 w1 threads st' w' :
  refreshed service projectRoot st1 w1 threads st' w' ->
  in_step st1 -> in_step st'.
Proof.
  intros [Hactive Hrefreshed] [Hthreads Hthread].
  destruct projectRoot as [|c root].
  - destruct Hrefreshed as (_ & -> & _). split; assumption.
  - destruct Hrefreshed as ([listed|e] & _ & _ & _ & Hlist & Hnotices);
      split; rewrite Hnotices.
    + rewrite told_threads_snoc. exact Hlist.
    + rewrite told_thread_snoc. congruence.
    + rewrite told_threads_snoc. congruence.
    + rewrite told_thread_snoc. congruence.
Qed.

Lemma active_updated_in_step threadId thread st st1 :
  active_updated threadId thread st st1 -> in_step st -> in_step st1.
Proof.
  intros (_ & Hlist & Hactive) [Hthreads Hthread].
  destruct (is_active st threadId); destruct Hactive as [Hactive Hnotices];
    split; rewrite Hnotices.
  - rewrite told_threads_snoc. congruence.
  - rewrite told_thread_snoc. exact Hactive.
  - congruence.
  - congruence.
Qed.

Lemma setActiveThread_run thread st w :
  setActiveThread thread st w =
  (inl tt,
   mkState (currentProjectRoot st) (currentThreads st) thread
     (notices st ++ [ActiveThreadChanged thread]), w).
Proof. reflexivity. Qed.

(** A call about a thread, from the answer of the service on: the active
    thread is updated, then the list is refreshed. *)
Lemma update_then_refresh {A} (result : A) projectRoot threadId thread
    (update : State -> C unit) st w1 :
  (forall w, update st st w =
     (inl tt,
      (if is_active st threadId
       then mkState (currentProjectRoot st) (currentThreads st) thread
              (notices st ++ [ActiveThreadChanged thread])
       else st), w)) ->
  exists st1 threads st' w',
    c_bind get (fun st0 =>
      c_bind (update st0) (fun _ =>
        c_bind (listThreads service maybeLoadSketch (Some projectRoot))
          (fun _ => c_ret result))) st w1 = (inl result, st', w') /\
    active_updated threadId thread st st1 /\
    refreshed service projectRoot st1 w1 threads st' w'.
Proof.
  intros Hupdate.
  set (st1 := if is_active st threadId
              then mkState (currentProjectRoot st) (currentThreads st) thread
                     (notices st ++ [ActiveThreadChanged thread])
              else st).
  destruct (client_listThreads_refreshed projectRoot st1 w1)
    as (threads & st' & w' & Hlist & Hrefreshed).
  exists st1, threads, st', w'. split; [|split].
  - unfold c_bind at 1, get. unfold c_bind at 1. rewrite Hupdate. fold st1.
    unfold c_bind at 1. rewrite Hlist. reflexivity.
  - unfold active_updated, st1. destruct (is_active st threadId); repeat split.
  - exact Hrefreshed.
Qed.

Lemma appendMessage_run projectRoot threadId message st w thread w1 :
  service_appendMessage service projectRoot threadId message w = (inl thread, w1) ->
  exists st1 threads st' w',
    appendMessage service maybeLoadSketch projectRoot threadId message st w =
      (inl thread, st', w') /\
    active_updated threadId (Some thread) st st1 /\
    refreshed service projectRoot st1 w1 threads st' w'.
Proof.
  intros Hcall. unfold appendMessage, c_bind at 1, call. rewrite Hcall.
  apply update_then_refresh. intros w0.
  destruct (is_active st threadId); reflexivity.
Qed.

Lemma renameThread_run projectRoot threadId newTitle st w w1 :
  service_renameThread service projectRoot threadId newTitle w = (inl tt, w1) ->
  exists st1 threads st' w',
    renameThread service maybeLoadSketch projectRoot threadId newTitle st w =
      (inl tt, st', w') /\
    active_updated threadId (with_title newTitle <$> activeThread st) st st1 /\
    refreshed service projectRoot st1 w1 threads st' w'.
Proof.
  intros Hcall. unfold renameThread, c_bind at 1, call. rewrite Hcall.
  apply update_then_refresh. intros w0.
  destruct (is_active st threadId); reflexivity.
Qed.

Lemma archiveThread_run projectRoot threadId st w w1 :
  service_archiveThread service projectRoot threadId w = (inl tt, w1) ->
  exists st1 threads st' w',
    archiveThread service maybeLoadSketch projectRoot threadId st w = (inl tt, st', w') /\
    active_updated threadId None st st1 /\
    refreshed service projectRoot st1 w1 threads st' w'.
Proof.
  intros Hcall. unfold archiveThread, c_bind at 1, call. rewrite Hcall.
  apply update_then_refresh. intros w0.
  destruct (is_active st threadId); reflexivity.
Qed.

Lemma deleteThread_run projectRoot threadId st w w1 :
  service_deleteThread service projectRoot threadId w = (inl tt, w1) ->
  exists st1 threads st' w',
    deleteThread service maybeLoadSketch projectRoot threadId st w = (inl tt, st', w') /\
    active_updated threadId None st st1 /\
    refreshed service projectRoot st1 w1 threads st' w'.
Proof.
  intros Hcall. unfold deleteThread, c_bind at 1, call. rewrite Hcall.
  apply update_then_refresh. intros w0.
  destruct (is_active st threadId); reflexivity.
Qed.

Lemma createThread_run c root initialMessage st w thread w1 :
  service_createThread service (c :: root) initialMessage w = (inl thread, w1) ->
  exists threads st1 w',
    createThread service maybeLoadSketch (Some (c :: root)) initialMessage st w =
      (inl thread,
       mkState (currentProjectRoot st1) (currentThreads st1) (Some thread)
         (notices st1 ++ [ActiveThreadChanged (Some thread)]), w') /\
    refreshed service (c :: root) st w1 threads st1 w'.
Proof.
  intros Hcall.
  destruct (client_listThreads_refreshed (c :: root) st w1)
    as (threads & st1 & w' & Hlist & Hrefreshed).
  exists threads, st1, w'. split; [|exact Hrefreshed].
  unfold createThread, c_bind at 1. rewrite root_or_current_truthy.
  cbn [truthy]. unfold c_bind at 1, call. rewrite Hcall.
  unfold c_bind at 1. rewrite Hlist.
  unfold c_bind at 1. rewrite setActiveThread_run. reflexivity.
Qed.

(** X17: [listThreads] of the client never rejects.  Without a root it
    returns no thread and calls nothing; with a root it returns the list of
    the service, keeps root and list and fires [onThreadsChanged]; when the
    service rejects it returns no thread, keeps what it held and writes to
    the console. *)
Theorem client_listThreads_never_rejects (projectRoot : option jsstring) st w :
  exists threads st' w',
    listThreads service maybeLoadSketch projectRoot st w = (inl threads, st', w') /\
    match projectRoot with
    | Some root => refreshed service root st w threads st' w'
    | None => threads = [] /\ st' = st /\ w' = w
    end.
Proof.
  destruct projectRoot as [root|].
  - apply client_listThreads_refreshed.
  - exists [], st, w. split; [reflexivity|]. repeat split.
Qed.

Lemma createThread_no_root projectRoot initialMessage st w :
  truthy projectRoot = None ->
  createThread service maybeLoadSketch projectRoot initialMessage st w =
    (inr (JsError (lit "Cannot create thread: no project root available")), st, w).
Proof.
  intros Hroot.
  unfold createThread, c_bind at 1. rewrite root_or_current_truthy, truthy_idem, Hroot.
  reflexivity.
Qed.

Lemma createThread_rejected projectRoot root initialMessage e st w w1 :
  truthy projectRoot = Some root ->
  service_createThread service root initialMessage w = (inr e, w1) ->
  createThread service maybeLoadSketch projectRoot initialMessage st w = (inr e, st, w1).
Proof.
  intros Hroot Hcall.
  unfold createThread, c_bind at 1. rewrite root_or_current_truthy, truthy_idem, Hroot.
  unfold c_bind at 1, call. rewrite Hcall. reflexivity.
Qed.

Lemma getThread_rejected projectRoot threadId e st w w1 :
  service_getThread service projectRoot threadId w = (inr e, w1) ->
  getThread service projectRoot threadId st w = (inr e, st, w1).
Proof. intros Hcall. unfold getThread, call. rewrite Hcall. reflexivity. Qed.

Lemma loadThread_rejected projectRoot threadId e st w w1 :
  service_getThread service projectRoot threadId w = (inr e, w1) ->
  loadThread service projectRoot threadId st w = (inr e, st, w1).
Proof.
  intros Hcall. unfold loadThread, c_bind at 1. rewrite (getThread_rejected _ _ _ _ _ _ Hcall).
  reflexivity.
Qed.

Lemma loadThread_run projectRoot threadId thread st w w1 :
  service_getThread service projectRoot threadId w = (inl thread, w1) ->
  loadThread service projectRoot threadId st w =
    (inl thread,
     mkState (currentProjectRoot st) (currentThreads st) (Some thread)
       (notices st ++ [ActiveThreadChanged (Some thread)]), w1).
Proof.
  intros Hcall. unfold loadThread, c_bind at 1, getThread, call. rewrite Hcall.
  reflexivity.
Qed.

Lemma appendMessage_rejected projectRoot threadId message e st w w1 :
  service_appendMessage service projectRoot threadId message w = (inr e, w1) ->
  appendMessage service maybeLoadSketch projectRoot threadId message st w = (inr e, st, w1).
Proof. intros Hcall. unfold appendMessage, c_bind at 1, call. rewrite Hcall. reflexivity. Qed.

Lemma renameThread_rejected projectRoot threadId newTitle e st w w1 :
  service_renameThread service projectRoot threadId newTitle w = (inr e, w1) ->
  renameThread service maybeLoadSketch projectRoot threadId newTitle st w = (inr e, st, w1).
Proof. intros Hcall. unfold renameThread, c_bind at 1, call. rewrite Hcall. reflexivity. Qed.

Lemma archiveThread_rejected projectRoot threadId e st w w1 :
  service_archiveThread service projectRoot threadId w = (inr e, w1) ->
  archiveThread service maybeLoadSketch projectRoot threadId st w = (inr e, st, w1).
Proof. intros Hcall. unfold archiveThread, c_bind at 1, call. rewrite Hcall. reflexivity. Qed.

Lemma deleteThread_rejected projectRoot threadId e st w w1 :
  service_deleteThread service projectRoot threadId w = (inr e, w1) ->
  deleteThread service maybeLoadSketch projectRoot threadId st w = (inr e, st, w1).
Proof. intros Hcall. unfold deleteThread, c_bind at 1, call. rewrite Hcall. reflexivity. Qed.

Lemma set_active_in_step thread st :
  in_step st ->
  in_step (mkState (currentProjectRoot st) (currentThreads st) thread
             (notices st ++ [ActiveThreadChanged thread])).
Proof.
  intros [Hthreads Hthread]. split; cbn [currentThreads activeThread notices].
  - rewrite told_threads_snoc. exact Hthreads.
  - rewrite told_thread_snoc. reflexivity.
Qed.

(** X18: [createThread] of the client rejects with [Cannot create thread:
    no project root available] when it has no root, before any call; and a
    call that the service rejects is rejected by the client with the error
    of the service, the client holding what it held and firing nothing. *)
Theorem client_rejections :
  (forall projectRoot initialMessage st w,
     truthy projectRoot = None ->
     createThread service maybeLoadSketch projectRoot initialMessage st w =
       (inr (JsError (lit "Cannot create thread: no project root available")), st, w)) /\
  (forall projectRoot root initialMessage e st w w1,
     truthy projectRoot = Some root ->
     service_createThread service root initialMessage w = (inr e, w1) ->
     createThread service maybeLoadSketch projectRoot initialMessage st w = (inr e, st, w1)) /\
  (forall projectRoot threadId e st w w1,
     service_getThread service projectRoot threadId w = (inr e, w1) ->
     getThread service projectRoot threadId st w = (inr e, st, w1) /\
     loadThread service projectRoot threadId st w = (inr e, st, w1)) /\
  (forall projectRoot threadId message e st w w1,
     service_appendMessage service projectRoot threadId message w = (inr e, w1) ->
     appendMessage service maybeLoadSketch projectRoot threadId message st w =
       (inr e, st, w1)) /\
  (forall projectRoot threadId newTitle e st w w1,
     service_renameThread service projectRoot threadId newTitle w = (inr e, w1) ->
     renameThread service maybeLoadSketch projectRoot threadId newTitle st w =
       (inr e, st, w1)) /\
  (forall projectRoot threadId e st w w1,
     service_archiveThread service projectRoot threadId w = (inr e, w1) ->
     archiveThread service maybeLoadSketch projectRoot threadId st w = (inr e, st, w1)) /\
  (forall projectRoot threadId e st w w1,
     service_deleteThread service projectRoot threadId w = (inr e, w1) ->
     deleteThread service maybeLoadSketch projectRoot threadId st w = (inr e, st, w1)).
Proof.
  split; [exact createThread_no_root|].
  split; [exact createThread_rejected|].
  split.
  { intros projectRoot threadId e st w w1 Hcall. split.
    - apply getThread_rejected, Hcall.
    - apply loadThread_rejected, Hcall. }
  split; [exact appendMessage_rejected|].
  split; [exact renameThread_rejected|].
  split; [exact archiveThread_rejected|exact deleteThread_rejected].
Qed.

(** X19: when the service answers, [appendMessage], [renameThread],
    [archiveThread] and [deleteThread] of the client update the active
    thread if the call was about it (the thread returned, the new title,
    none, none) and tell the listeners, then refresh the list, and return
    whether the refresh succeeds or not; [createThread] refreshes the list
    and then makes the new thread the active one; [loadThread] makes the
    thread it got the active one. *)
Theorem client_updates_then_refreshes :
  (forall projectRoot threadId message st w thread w1,
     service_appendMessage service projectRoot threadId message w = (inl thread, w1) ->
     exists st1 threads st' w',
       appendMessage service maybeLoadSketch projectRoot threadId message st w =
         (inl thread, st', w') /\
       active_updated threadId (Some thread) st st1 /\
       refreshed service projectRoot st1 w1 threads st' w') /\
  (forall projectRoot threadId newTitle st w w1,
     service_renameThread service projectRoot threadId newTitle w = (inl tt, w1) ->
     exists st1 threads st' w',
       renameThread service maybeLoadSketch projectRoot threadId newTitle st w =
         (inl tt, st', w') /\
       active_updated threadId (with_title newTitle <$> activeThread st) st st1 /\
       refreshed service projectRoot st1 w1 threads st' w') /\
  (forall projectRoot threadId st w w1,
     service_archiveThread service projectRoot threadId w = (inl tt, w1) ->
     exists st1 threads st' w',
       archiveThread service maybeLoadSketch projectRoot threadId st w =
         (inl tt, st', w') /\
       active_updated threadId None st st1 /\
       refreshed service projectRoot st1 w1 threads st' w') /\
  (forall projectRoot threadId st w w1,
     service_deleteThread service projectRoot threadId w = (inl tt, w1) ->
     exists st1 threads st' w',
       deleteThread service maybeLoadSketch projectRoot threadId st w =
         (inl tt, st', w') /\
       active_updated threadId None st st1 /\
       refreshed service projectRoot st1 w1 threads st' w') /\
  (forall c root initialMessage st w thread w1,
     service_createThread service (c :: root) initialMessage w = (inl thread, w1) ->
     exists threads st1 st' w',
       createThread service maybeLoadSketch (Some (c :: root)) initialMessage st w =
         (inl thread, st', w') /\
       refreshed service (c :: root) st w1 threads st1 w' /\
       currentProjectRoot st' = currentProjectRoot st1 /\
       currentThreads st' = currentThreads st1 /\
       activeThread st' = Some thread /\
       notices st' = notices st1 ++ [ActiveThreadChanged (Some thread)]) /\
  (forall projectRoot threadId thread st w w1,
     service_getThread service projectRoot threadId w = (inl thread, w1) ->
     exists st',
       loadThread service projectRoot threadId st w = (inl thread, st', w1) /\
       currentProjectRoot st' = currentProjectRoot st /\
       currentThreads st' = currentThreads st /\
       activeThread st' = Some thread /\
       notices st' = notices st ++ [ActiveThreadChanged (Some thread)]).
Proof.
  split; [exact appendMessage_run|].
  split; [exact renameThread_run|].
  split; [exact archiveThread_run|].
  split; [exact deleteThread_run|].
  split.
  - intros c root initialMessage st w thread w1 Hcall.
    destruct (createThread_run c root initialMessage st w thread w1 Hcall)
      as (threads & st1 & w' & Hrun & Hrefreshed).
    eexists threads, st1, _, w'. split; [exact Hrun|].
    split; [exact Hrefreshed|]. repeat split.
  - intros projectRoot threadId thread st w w1 Hcall.
    eexists. split; [exact (loadThread_run _ _ _ st _ _ Hcall)|]. repeat split.
Qed.

(** X20: the list and the active thread that the client holds are those
    it told last to the listeners of [onThreadsChanged] and
    [onActiveThreadChanged]: at construction, and after every method,
    whatever the service answers. *)
Theorem client_stays_in_step :
  in_step initial /\
  forall st w, in_step st ->
    (forall projectRoot threads st' w',
       listThreads service maybeLoadSketch projectRoot st w = (threads, st', w') ->
       in_step st') /\
    (forall projectRoot initialMessage r st' w',
       createThread service maybeLoadSketch projectRoot initialMessage st w = (r, st', w') ->
       in_step st') /\
    (forall projectRoot threadId message r st' w',
       appendMessage service maybeLoadSketch projectRoot threadId message st w = (r, st', w') ->
       in_step st') /\
    (forall projectRoot threadId newTitle r st' w',
       renameThread service maybeLoadSketch projectRoot threadId newTitle st w = (r, st', w') ->
       in_step st') /\
    (forall projectRoot threadId r st' w',
       archiveThread service maybeLoadSketch projectRoot threadId st w = (r, st', w') ->
       in_step st') /\
    (forall projectRoot threadId r st' w',
       deleteThread service maybeLoadSketch projectRoot threadId st w = (r, st', w') ->
       in_step st') /\
    (forall projectRoot threadId r st' w',
       loadThread service projectRoot threadId st w = (r, st', w') ->
       in_step st') /\
    (forall thread r st' w',
       setActiveThread thread st w = (r, st', w') -> in_step st') /\
    (forall r st' w', clearState st w = (r, st', w') -> in_step st').
Proof.
  split; [split; reflexivity|].
  intros st w Hstep.
  assert (Hlist : forall projectRoot threads st' w',
            listThreads service maybeLoadSketch projectRoot st w = (threads, st', w') ->
            in_step st').
  { intros projectRoot threads st' w' Hrun.
    destruct projectRoot as [root|].
    - destruct (client_listThreads_refreshed root st w)
        as (threads0 & st0 & w0 & Hrun0 & Hrefreshed).
      rewrite Hrun0 in Hrun. apply pair_equal_spec in Hrun as [Hrun _].
      apply pair_equal_spec in Hrun as [_ <-].
      exact (refreshed_in_step _ _ _ _ _ _ Hrefreshed Hstep).
    - apply pair_equal_spec in Hrun as [Hrun _].
      apply pair_equal_spec in Hrun as [_ <-]. exact Hstep. }
  split; [exact Hlist|].
  split.
  { intros projectRoot initialMessage r st' w' Hrun.
    destruct (truthy projectRoot) as [root|] eqn:Hroot.
    - destruct (service_createThread service root initialMessage w)
        as [[thread|e] w1] eqn:Hcall.
      + destruct projectRoot as [[|c root0]|]; try discriminate Hroot.
        cbn [truthy] in Hroot. apply (inj Some) in Hroot. subst root.
        destruct (createThread_run c root0 initialMessage st w thread w1 Hcall)
          as (threads & st1 & w0 & Hrun0 & Hrefreshed).
        rewrite Hrun0 in Hrun. apply pair_equal_spec in Hrun as [Hrun _].
        apply pair_equal_spec in Hrun as [_ <-].
        apply set_active_in_step.
        exact (refreshed_in_step _ _ _ _ _ _ Hrefreshed Hstep).
      + rewrite (createThread_rejected _ _ _ _ _ _ _ Hroot Hcall) in Hrun.
        apply pair_equal_spec in Hrun as [Hrun _].
        apply pair_equal_spec in Hrun as [_ <-]. exact Hstep.
    - rewrite (createThread_no_root _ _ _ _ Hroot) in Hrun.
      apply pair_equal_spec in Hrun as [Hrun _].
      apply pair_equal_spec in Hrun as [_ <-]. exact Hstep. }
  split.
  { intros projectRoot threadId message r st' w' Hrun.
    destruct (service_appendMessage service projectRoot threadId message w)
      as [[thread|e] w1] eqn:Hcall.
    - destruct (appendMessage_run _ _ _ st _ _ _ Hcall)
        as (st1 & threads & st0 & w0 & Hrun0 & Hupdated & Hrefreshed).
      rewrite Hrun0 in Hrun. apply pair_equal_spec in Hrun as [Hrun _].
      apply pair_equal_spec in Hrun as [_ <-].
      eapply refreshed_in_step; [exact Hrefreshed|].
      eapply active_updated_in_step; [exact Hupdated|exact Hstep].
    - rewrite (appendMessage_rejected _ _ _ _ st _ _ Hcall) in Hrun.
      apply pair_equal_spec in Hrun as [Hrun _].
      apply pair_equal_spec in Hrun as [_ <-]. exact Hstep. }
  split.
  { intros projectRoot threadId newTitle r st' w' Hrun.
    destruct (service_renameThread service projectRoot threadId newTitle w)
      as [[[]|e] w1] eqn:Hcall.
    - destruct (renameThread_run _ _ _ st _ _ Hcall)
        as (st1 & threads & st0 & w0 & Hrun0 & Hupdated & Hrefreshed).
      rewrite Hrun0 in Hrun. apply pair_equal_spec in Hrun as [Hrun _].
      apply pair_equal_spec in Hrun as [_ <-].
      eapply refreshed_in_step; [exact Hrefreshed|].
      eapply active_updated_in_step; [exact Hupdated|exact Hstep].
    - rewrite (renameThread_rejected _ _ _ _ st _ _ Hcall) in Hrun.
      apply pair_equal_spec in Hrun as [Hrun _].
      apply pair_equal_spec in Hrun as [_ <-]. exact Hstep. }
  split.
  { intros projectRoot threadId r st' w' Hrun.
    destruct (service_archiveThread service projectRoot threadId w)
      as [[[]|e] w1] eqn:Hcall.
    - destruct (archiveThread_run _ _ st _ _ Hcall)
        as (st1 & threads & st0 & w0 & Hrun0 & Hupdated & Hrefreshed).
      rewrite Hrun0 in Hrun. apply pair_equal_spec in Hrun as [Hrun _].
      apply pair_equal_spec in Hrun as [_ <-].
      eapply refreshed_in_step; [exact Hrefreshed|].
      eapply active_updated_in_step; [exact Hupdated|exact Hstep].
    - rewrite (archiveThread_rejected _ _ _ st _ _ Hcall) in Hrun.
      apply pair_equal_spec in Hrun as [Hrun _].
      apply pair_equal_spec in Hrun as [_ <-]. exact Hstep. }
  split.
  { intros projectRoot threadId r st' w' Hrun.
    destruct (service_deleteThread service projectRoot threadId w)
      as [[[]|e] w1] eqn:Hcall.
    - destruct (deleteThread_run _ _ st _ _ Hcall)
        as (st1 & threads & st0 & w0 & Hrun0 & Hupdated & Hrefreshed).
      rewrite Hrun0 in Hrun. apply pair_equal_spec in Hrun as [Hrun _].
      apply pair_equal_spec in Hrun as [_ <-].
      eapply refreshed_in_step; [exact Hrefreshed|].
      eapply active_updated_in_step; [exact Hupdated|exact Hstep].
    - rewrite (deleteThread_rejected _ _ _ st _ _ Hcall) in Hrun.
      apply pair_equal_spec in Hrun as [Hrun _].
      apply pair_equal_spec in Hrun as [_ <-]. exact Hstep. }
  split.
  { intros projectRoot threadId r st' w' Hrun.
    destruct (service_getThread service projectRoot threadId w)
      as [[thread|e] w1] eqn:Hcall.
    - rewrite (loadThread_run _ _ _ st _ _ Hcall) in Hrun.
      apply pair_equal_spec in Hrun as [Hrun _].
      apply pair_equal_spec in Hrun as [_ <-].
      apply set_active_in_step, Hstep.
    - rewrite (loadThread_rejected _ _ _ st _ _ Hcall) in Hrun.
      apply pair_equal_spec in Hrun as [Hrun _].
      apply pair_equal_spec in Hrun as [_ <-]. exact Hstep. }
  split.
  { intros thread r st' w' Hrun. rewrite setActiveThread_run in Hrun.
    apply pair_equal_spec in Hrun as [Hrun _].
    apply pair_equal_spec in Hrun as [_ <-].
    apply set_active_in_step, Hstep. }
  intros r st' w' Hrun. unfold clearState in Hrun.
  apply pair_equal_spec in Hrun as [Hrun _].
  apply pair_equal_spec in Hrun as [_ <-].
  split; cbn [currentThreads activeThread notices].
  - unfold told_threads. rewrite fold_left_app. reflexivity.
  - unfold told_thread. rewrite fold_left_app. reflexivity.
Qed.

End ClientProps.

(** ** The serial monitor buffer *)

Section SerialBuffer.
Import ChatWidget.
Local Open Scope Z_scope.

Lemma total_length_from acc buffer :
  fold_left (fun acc m => acc + Z.of_nat (length m)) buffer acc =
  acc + total_length buffer.
Proof.
  unfold total_length. revert acc.
  induction buffer as [|m buffer IH]; intros acc; cbn [fold_left].
  - lia.
  - rewrite IH, (IH (0 + _)). lia.
Qed.

Lemma total_length_cons m buffer :
  total_length (m :: buffer) = Z.of_nat (length m) + total_length buffer.
Proof. unfold total_length at 1. cbn [fold_left]. rewrite total_length_from. lia. Qed.

Lemma total_length_app b1 b2 :
  total_length (b1 ++ b2) = total_length b1 + total_length b2.
Proof.
  induction b1 as [|m b1 IH]; cbn [app].
  - reflexivity.
  - rewrite !total_length_cons, IH. lia.
Qed.

Lemma total_length_nonneg buffer : 0 <= total_length buffer.
Proof.
  induction buffer as [|m buffer IH].
  - reflexivity.
  - rewrite total_length_cons. lia.
Qed.

Lemma total_length_concat buffer :
  Z.of_nat (length (concat buffer)) = total_length buffer.
Proof.
  induction buffer as [|m buffer IH]; cbn [concat].
  - reflexivity.
  - rewrite length_app, total_length_cons. lia.
Qed.

(** The loop, run with the true count: what it leaves is the longest tail
    of the buffer within the limit. *)
Lemma shift_while_spec buffer :
  exists dropped,
    buffer = dropped ++ shift_while buffer (total_length buffer) /\
    total_length (shift_while buffer (total_length buffer)) <= SERIAL_BUFFER_MAX_CHARS /\
    forall before m after, dropped = before ++ m :: after ->
      SERIAL_BUFFER_MAX_CHARS <
        total_length (m :: after ++ shift_while buffer (total_length buffer)).
Proof.
  induction buffer as [|m buffer IH]; cbn [shift_while].
  - exists []. repeat split.
    + unfold SERIAL_BUFFER_MAX_CHARS. cbn. lia.
    + intros before m after Heq. destruct before; discriminate Heq.
  - destruct (SERIAL_BUFFER_MAX_CHARS <? total_length (m :: buffer)) eqn:Hover.
    + replace (total_length (m :: buffer) - Z.of_nat (length m))
        with (total_length buffer) by (rewrite total_length_cons; lia).
      destruct IH as (dropped & Heq & Hbound & Hleast).
      exists (m :: dropped). repeat split.
      * cbn [app]. f_equal. exact Heq.
      * exact Hbound.
      * intros before m0 after Hdropped.
        destruct before as [|b before]; cbn [app] in Hdropped.
        -- injection Hdropped as <- <-. rewrite <- Heq.
           apply Z.ltb_lt, Hover.
        -- injection Hdropped as _ Hdropped. exact (Hleast _ _ _ Hdropped).
    + exists []. repeat split.
      * apply Z.ltb_ge, Hover.
      * intros before m0 after Heq. destruct before; discriminate Heq.
Qed.

Lemma truncateSerialBuffer_spec buffer :
  exists dropped,
    buffer = dropped ++ truncateSerialBuffer buffer /\
    total_length (truncateSerialBuffer buffer) <= SERIAL_BUFFER_MAX_CHARS /\
    forall before m after, dropped = before ++ m :: after ->
      SERIAL_BUFFER_MAX_CHARS <
        total_length (m :: after ++ truncateSerialBuffer buffer).
Proof.
  unfold truncateSerialBuffer. cbv zeta.
  destruct (SERIAL_BUFFER_MAX_CHARS <? total_length buffer) eqn:Hover.
  - apply shift_while_spec.
  - exists []. repeat split.
    + apply Z.ltb_ge, Hover.
    + intros before m after Heq. destruct before; discriminate Heq.
Qed.

(** X21: after a batch of serial messages the buffer holds at most 8000
    code units, and so does the serial text made of it for the context. *)
Theorem serial_buffer_within_limit buffer messages :
  total_length (onMessagesReceived buffer messages) <= SERIAL_BUFFER_MAX_CHARS /\
  forall text, serialText (onMessagesReceived buffer messages) = Some text ->
    Z.of_nat (length text) <= SERIAL_BUFFER_MAX_CHARS.
Proof.
  unfold onMessagesReceived.
  destruct (truncateSerialBuffer_spec (buffer ++ messages)) as (_ & _ & Hbound & _).
  split; [exact Hbound|].
  intros text Htext. unfold serialText in Htext.
  destruct (truncateSerialBuffer (buffer ++ messages)) as [|m kept] eqn:Hkept;
    [discriminate Htext|].
  injection Htext as <-. rewrite <- total_length_concat in Hbound. exact Hbound.
Qed.

(** X22: the buffer after a batch is the end of the old buffer followed
    by the batch: whole messages leave at the front, none when the total is
    within the limit, and no longer end would be within the limit. *)
Theorem serial_buffer_keeps_the_newest buffer messages :
  exists dropped,
    buffer ++ messages = dropped ++ onMessagesReceived buffer messages /\
    (total_length (buffer ++ messages) <= SERIAL_BUFFER_MAX_CHARS -> dropped = []) /\
    forall before kept,
      buffer ++ messages = before ++ kept ->
      total_length kept <= SERIAL_BUFFER_MAX_CHARS ->
      (length kept <= length (onMessagesReceived buffer messages))%nat.
Proof.
  unfold onMessagesReceived.
  destruct (truncateSerialBuffer_spec (buffer ++ messages))
    as (dropped & Heq & Hbound & Hleast).
  set (all := buffer ++ messages) in *.
  set (result := truncateSerialBuffer all) in *.
  assert (Hlongest : forall before kept,
            all = before ++ kept -> total_length kept <= SERIAL_BUFFER_MAX_CHARS ->
            (length kept <= length result)%nat).
  { intros before kept Hall Hkept.
    destruct (Nat.le_gt_cases (length kept) (length result)) as [Hle|Hgt];
      [exact Hle|exfalso].
    assert (Hlen : (length before < length dropped)%nat).
    { apply (f_equal (@length _)) in Hall, Heq. rewrite length_app in Hall, Heq. lia. }
    assert (Hsplit : dropped = before ++ drop (length before) dropped /\
                     kept = drop (length before) dropped ++ result).
    { rewrite Hall in Heq.
      assert (Hbefore : before = take (length before) dropped).
      { apply (f_equal (take (length before))) in Heq.
        rewrite take_app_length in Heq.
        rewrite take_app_le in Heq by lia. exact Heq. }
      split.
      - rewrite Hbefore at 1. symmetry. apply take_drop.
      - apply (f_equal (drop (length before))) in Heq.
        rewrite drop_app_length in Heq.
        rewrite drop_app_le in Heq by lia. exact Heq. }
    destruct Hsplit as [Hdropped Hkept_eq].
    destruct (drop (length before) dropped) as [|m after] eqn:Hdrop.
    - apply (f_equal (@length _)) in Hdropped. rewrite length_app in Hdropped.
      cbn [length] in Hdropped. lia.
    - specialize (Hleast _ _ _ Hdropped).
      rewrite Hkept_eq in Hkept. cbn [app] in Hkept. lia. }
  exists dropped. split; [exact Heq|]. split; [|exact Hlongest].
  intros Hfits.
  specialize (Hlongest [] all eq_refl Hfits).
  apply (f_equal (@length _)) in Heq. rewrite length_app in Heq.
  destruct dropped; [reflexivity|cbn [length] in Heq; lia].
Qed.

(** X23: a batch that ends with a message of more than 8000 code units
    empties the buffer, that message included: no serial text is left. *)
Theorem serial_buffer_long_message buffer messages m :
  SERIAL_BUFFER_MAX_CHARS < Z.of_nat (length m) ->
  onMessagesReceived buffer (messages ++ [m]) = [] /\
  serialText (onMessagesReceived buffer (messages ++ [m])) = None.
Proof.
  intros Hlong.
  assert (Hempty : onMessagesReceived buffer (messages ++ [m]) = []).
  { unfold onMessagesReceived.
    destruct (truncateSerialBuffer_spec (buffer ++ messages ++ [m]))
      as (dropped & Heq & Hbound & _).
    destruct (truncateSerialBuffer (buffer ++ messages ++ [m])) as [|k kept _] eqn:Hkept
      using rev_ind; [reflexivity|exfalso].
    rewrite !app_assoc in Heq. apply app_inj_tail in Heq as [_ <-].
    rewrite total_length_app, total_length_cons in Hbound.
    pose proof (total_length_nonneg kept) as Hkept_nonneg.
    pose proof (total_length_nonneg []) as Hnil. lia. }
  split; [exact Hempty|]. rewrite Hempty. reflexivity.
Qed.

(** A run of X23: a message of 8001 code units after two short ones. *)
Lemma serial_buffer_long_message_witness :
  onMessagesReceived [lit "boot"] [lit "ready"; repeat 46%N (Z.to_nat 8001)] = [] /\
  serialText (onMessagesReceived [lit "boot"] [lit "ready"; repeat 46%N (Z.to_nat 8001)]) = None.
Proof.
  apply (serial_buffer_long_message [lit "boot"] [lit "ready"] (repeat 46%N (Z.to_nat 8001))).
  rewrite repeat_length. reflexivity.
Defined.

End SerialBuffer.

Section RunFacts.
Context `{Host}.

Lemma run_intro {A} (m : M A) (w : World) (a : A) :
  fst (m w) = inl a -> m w = (inl a, snd (m w)).
Proof. destruct (m w) as [r w']. cbn [fst snd]. now intros ->. Qed.

Lemma throws_intro {A} (m : M A) (w : World) (e : error) :
  fst (m w) = inr e -> throws m e w (snd (m w)).
Proof. unfold throws. destruct (m w) as [r w']. cbn [fst snd]. now intros ->. Qed.

End RunFacts.

(** ** Runs on the sample host *)

Section Runs.
Import Scenario SampleHost.

Lemma returns_intro {A} (m : M (H := host) A) (w : World (H := host)) :
  match fst (m w) with inl _ => true | inr _ => false end = true ->
  returns m w (snd (m w)).
Proof.
  unfold returns. destruct (m w) as [[a|e] w']; simpl; [now exists a|discriminate].
Qed.



(** Runs of C2: a project without chat history lists no thread, and
    neither does, in the base64 revision, a project whose index is not
    JSON. *)
Lemma listThreads_damaged_index_witness :
  let damaged := world [(encoded_chat, Directory);
                        (encoded_index, File (lit "not json") true true)] in
  Store.resolveProjectRoot (H := host) (Some root) fresh = (inl root, fresh) /\
  Encoded.listThreads (H := host) (Some root) fresh = (inl [], fresh) /\
  Encrypted.listThreads (H := host) (H0 := crypto) (Some root) fresh = (inl [], fresh) /\
  exists w', Encoded.listThreads (H := host) (Some root) damaged = (inl [], w').
Proof.
  intros damaged.
  split; [reflexivity|].
  pose proof (listThreads_damaged_index (H := host) (H0 := crypto)
                (Some root) root fresh eq_refl) as (Hb & Ha & _).
  pose proof (listThreads_damaged_index (H := host) (H0 := crypto)
                (Some root) root damaged eq_refl) as (_ & _ & Hparse & _).
  split; [|split].
  - apply (Hb (ENOENT (lit "open") encoded_index)); reflexivity.
  - apply (Ha (ENOENT (lit "open") encrypted_index)); reflexivity.
  - destruct (Hparse (lit "not json") syntax_error
                ltac:(vm_compute; reflexivity) ltac:(vm_compute; reflexivity))
      as (w' & Hrun & _).
    now exists w'.
Defined.

(** C2 fails in the ciphertext revision: an index file that holds text
    which is not JSON makes [listThreads] throw [ReadFailed]. *)
Lemma listThreads_throws_on_damaged_index :
  fst (Encrypted.listThreads (H := host) (H0 := crypto) (Some root)
         (world [(encrypted_chat, Directory);
                 (encrypted_index, File (lit "not json") true true)]))
  = inr (ReadFailed (lit "Failed to read threads index: Unexpected token in JSON")
           encrypted_index).
Proof. vm_compute. reflexivity. Qed.

(** C3 fails in the base64 revision: a base64 file (generation 2) is read
    and returned, and nothing is written. *)
Lemma base64_index_is_not_written_back :
  let content := ChatEncoding.encodeChatData index_text in
  let w := world [(encoded_chat, Directory); (encoded_index, File content true true)] in
  ChatEncoding.isEncoded content = true /\
  fst (Encoded.readThreadsIndex (H := host) root w) = inl (mkThreadsIndex []) /\
  w_trace (snd (Encoded.readThreadsIndex (H := host) root w)) = [] /\
  w_disk (snd (Encoded.readThreadsIndex (H := host) root w)) !! encoded_index
  = Some (File content true true).
Proof. repeat split; vm_compute; reflexivity. Qed.

(** A run of C3: a plain index that is read-only is returned although the
    write-back fails, which is logged. *)
Lemma write_back_of_older_generations_witness :
  let w := world [(encoded_chat, Directory); (encoded_index, File index_text true false)] in
  exists w',
    Encoded.readThreadsIndex (H := host) root w = (inl (mkThreadsIndex []), w') /\
    w_disk w' !! encoded_index = Some (File index_text true false) /\
    w_trace w'
    = [EvWriteFile encoded_index (ChatEncoding.encodeChatData index_text) false;
       EvLog Warn (lit "Failed to migrate threads index to base64 format: " ++ encoded_index)].
Proof.
  intros w.
  destruct (write_back_of_older_generations (H := host) (H0 := crypto) root [] w)
    as (Hplain & _).
  destruct (Hplain index_text (mkThreadsIndex [])
              ltac:(vm_compute; reflexivity) ltac:(vm_compute; reflexivity)
              ltac:(vm_compute; reflexivity)) as (w' & Hrun & Hdisk & Htrace).
  exists w'. split; [exact Hrun|]. split.
  - rewrite Hdisk. vm_compute. reflexivity.
  - rewrite Htrace. vm_compute. reflexivity.
Defined.


(** C7 fails in the ciphertext revision: a file that decrypts to text
    which is not JSON makes the read of the index throw, and the file stays
    as it is.  In the base64 revision a file that cannot be unlinked stays
    too, and the read returns the empty index. *)
Lemma unparsable_file_is_kept :
  let sealed_text :=
    ChatEncryption.encryptChatData (H := crypto) (randomBytes 7 16) (lit "not json") root in
  let w := world [(encrypted_chat, Directory);
                  (encrypted_index, File sealed_text true true)] in
  let pinned := world [(encoded_chat, Directory);
                       (encoded_index, File (lit "not json") true false)] in
  ChatEncryption.decryptChatData (H := crypto) sealed_text root = inl (lit "not json") /\
  fst (Encrypted.readThreadsIndex (H := host) (H0 := crypto) root w)
  = inr (ReadFailed (lit "Failed to read threads index: Unexpected token in JSON")
           encrypted_index) /\
  w_trace (snd (Encrypted.readThreadsIndex (H := host) (H0 := crypto) root w))
  = [EvLog Error (lit "Failed to read threads index: " ++ encrypted_index)] /\
  w_disk (snd (Encrypted.readThreadsIndex (H := host) (H0 := crypto) root w))
    !! encrypted_index
  = Some (File sealed_text true true) /\
  fst (Encoded.readThreadsIndex (H := host) root pinned) = inl (mkThreadsIndex []) /\
  w_disk (snd (Encoded.readThreadsIndex (H := host) root pinned)) !! encoded_index
  = Some (File (lit "not json") true false).
Proof. repeat split; vm_compute; reflexivity. Qed.

(** A run of C7 in the base64 revision: an index that is not JSON is
    unlinked and the empty index is returned. *)
Lemma files_that_do_not_parse_witness :
  let w := world [(encoded_chat, Directory);
                  (encoded_index, File (lit "not json") true true)] in
  exists w',
    Encoded.readThreadsIndex (H := host) root w = (inl (mkThreadsIndex []), w') /\
    w_disk w' !! encoded_index = None /\
    In (EvUnlink encoded_index true) (w_trace w').
Proof.
  intros w.
  destruct (files_that_do_not_parse (H := host) (H0 := crypto) root [] w)
    as (Hindex & _).
  destruct (Hindex (lit "not json") syntax_error
              ltac:(vm_compute; reflexivity) ltac:(vm_compute; reflexivity))
    as (w' & Hrun & Hdisk & Htrace).
  exists w'. split; [exact Hrun|]. split.
  - rewrite Hdisk. vm_compute. reflexivity.
  - rewrite Htrace. vm_compute. auto 10.
Defined.

(** *** Runs of the further properties *)

(** A run of X5: the project with two threads lists both; every summary
    of its index has a date, and the list has the most recent first. *)
Lemma listThreads_most_recent_first_witness :
  Store.resolveProjectRoot (H := host) (Some root) two_threads = (inl root, two_threads) /\
  exists index w' l,
    Encoded.readThreadsIndex (H := host) root two_threads = (inl index, w') /\
    Encoded.listThreads (H := host) (Some root) two_threads = (inl l, w') /\
    listing (H := host) l (threads index) /\
    dated (H := host) (threads index) /\
    most_recent_first (H := host) l.
Proof.
  split; [reflexivity|].
  pose proof (run_intro (H := host) (Encoded.readThreadsIndex (H := host) root) two_threads
                (mkThreadsIndex [summary_at 0 question; summary_at 2 long_question])
                ltac:(vm_compute; reflexivity)) as Hread.
  destruct (proj1 (listThreads_most_recent_first (H := host) (H0 := crypto)
                     (Some root) root two_threads eq_refl) _ _ Hread)
    as (l & Hlist & Hlisting).
  assert (Hdated : dated (H := host)
                     (threads (mkThreadsIndex [summary_at 0 question;
                                               summary_at 2 long_question]))).
  { repeat constructor; vm_compute; eexists; reflexivity. }
  eexists _, _, l. split; [exact Hread|]. split; [exact Hlist|].
  split; [exact Hlisting|]. split; [exact Hdated|].
  exact (proj1 (proj2 Hlisting Hdated)).
Defined.

(** A run of X6: [answer] is appended to the thread of [started_encoded]. *)
Lemma appendMessage_appends_witness :
  Store.resolveProjectRoot (H := host) (Some root) started_encoded
  = (inl root, started_encoded) /\
  exists thread w',
    Encoded.appendMessage (H := host) root (lit "uuid-00") answer started_encoded
    = (inl thread, w') /\
    rewritten (H := host) Encoded.readThreadFile Encoded.readThreadsIndex holds_encoded
      Encoded.CHAT_DIR_NAME root (lit "uuid-00")
      (appended answer thread) (appended_summary answer) started_encoded w'.
Proof.
  split; [reflexivity|].
  destruct (returns_intro (Encoded.appendMessage (H := host) root (lit "uuid-00") answer)
              started_encoded) as [thread Hrun]; [vm_compute; reflexivity|].
  eexists thread, _. split; [exact Hrun|].
  exact (proj1 (appendMessage_appends (H := host) (H0 := crypto)
                  root root (lit "uuid-00") answer thread started_encoded _ eq_refl) Hrun).
Defined.

(** Runs of X7: the thread of [started_encoded] is renamed, and archived. *)
Lemma rename_archive_clear_witness :
  Store.resolveProjectRoot (H := host) (Some root) started_encoded
  = (inl root, started_encoded) /\
  (exists w',
      Encoded.renameThread (H := host) root (lit "uuid-00") (lit "Blink") started_encoded
      = (inl tt, w') /\
      rewritten (H := host) Encoded.readThreadFile Encoded.readThreadsIndex holds_encoded
        Encoded.CHAT_DIR_NAME root (lit "uuid-00")
        (renamed (lit "Blink")) (renamed_summary (lit "Blink")) started_encoded w') /\
  (exists w',
      Encoded.archiveThread (H := host) root (lit "uuid-00") started_encoded
      = (inl tt, w') /\
      rewritten (H := host) Encoded.readThreadFile Encoded.readThreadsIndex holds_encoded
        Encoded.CHAT_DIR_NAME root (lit "uuid-00") put_away put_away_summary
        started_encoded w').
Proof.
  split; [reflexivity|]. split.
  - destruct (returns_intro
                (Encoded.renameThread (H := host) root (lit "uuid-00") (lit "Blink"))
                started_encoded) as [[] Hrun]; [vm_compute; reflexivity|].
    eexists. split; [exact Hrun|].
    exact (proj1 (rename_archive_clear (H := host) (H0 := crypto)
                    root root (lit "uuid-00") (lit "Blink") started_encoded _ eq_refl)
             Hrun).
  - destruct (returns_intro (Encoded.archiveThread (H := host) root (lit "uuid-00"))
                started_encoded) as [[] Hrun]; [vm_compute; reflexivity|].
    eexists. split; [exact Hrun|].
    exact (proj1 (proj2 (proj2 (rename_archive_clear (H := host) (H0 := crypto)
                                  root root (lit "uuid-00") [] started_encoded _ eq_refl)))
             Hrun).
Defined.

(** A run of X8: the sample host has no sketch directory. *)
Lemma operations_need_a_project_root_witness :
  currentSketchDir (Host := host) = None /\
  throws (H := host) (Encoded.listThreads (H := host) None) no_project_root fresh fresh /\
  throws (H := host) (Encoded.createThread (H := host) [] (Some question))
    no_project_root fresh fresh.
Proof.
  split; [reflexivity|].
  pose proof (operations_need_a_project_root (H := host) (H0 := crypto)
                (lit "uuid-00") (lit "Blink") answer (Some question) fresh eq_refl)
    as (_ & Hlist & _ & Hcreate & _).
  split; [exact Hlist|exact Hcreate].
Defined.

(** A run of X9: a thread that [started_encoded] does not have. *)
Lemma operations_on_a_missing_thread_witness :
  let path := Encoded.getThreadFilePath (H := host) root (lit "uuid-09") in
  let missing := NotFound (lit "Thread not found: " ++ lit "uuid-09") (lit "uuid-09") in
  Store.resolveProjectRoot (H := host) (Some root) started_encoded
  = (inl root, started_encoded) /\
  readFile (Host := host) (w_disk started_encoded) path = inr (ENOENT (lit "open") path) /\
  throws (H := host) (Encoded.getThread (H := host) root (lit "uuid-09")) missing
    started_encoded started_encoded /\
  throws (H := host) (Encoded.appendMessage (H := host) root (lit "uuid-09") answer) missing
    started_encoded started_encoded.
Proof.
  cbv zeta. split; [reflexivity|].
  assert (Hread : readFile (Host := host) (w_disk started_encoded)
                    (Encoded.getThreadFilePath (H := host) root (lit "uuid-09"))
                  = inr (ENOENT (lit "open")
                           (Encoded.getThreadFilePath (H := host) root (lit "uuid-09"))))
    by (vm_compute; reflexivity).
  split; [exact Hread|].
  pose proof (proj1 (operations_on_a_missing_thread (H := host) (H0 := crypto)
                       root root (lit "uuid-09") (lit "Blink") answer started_encoded
                       eq_refl) _ Hread eq_refl) as (Hget & Happend & _).
  split; [exact Hget|exact Happend].
Defined.

(** A run of X10: deleting the thread of [started_encoded] writes the
    empty index and then removes the file of the thread. *)
Lemma deleteThread_removes_witness :
  let threadPath := Encoded.getThreadFilePath (H := host) root (lit "uuid-00") in
  Store.resolveProjectRoot (H := host) (Some root) started_encoded
  = (inl root, started_encoded) /\
  exists w',
    Encoded.deleteThread (H := host) root (lit "uuid-00") started_encoded = (inl tt, w') /\
    w_disk started_encoded !! threadPath <> None /\
    w_disk w' !! threadPath = None /\
    w_trace w'
    = w_trace started_encoded
      ++ [EvWriteFile encoded_index
            (ChatEncoding.encodeChatData (print_index (mkThreadsIndex []))) true;
          EvUnlink threadPath true].
Proof.
  cbv zeta. split; [reflexivity|].
  pose proof (run_intro (H := host) (Encoded.readThreadsIndex (H := host) root)
                started_encoded (mkThreadsIndex [summary_at 0 question])
                ltac:(vm_compute; reflexivity)) as Hread.
  destruct (proj1 (deleteThread_removes (H := host) (H0 := crypto)
                     root root (lit "uuid-00") (mkThreadsIndex [summary_at 0 question])
                     started_encoded _ eq_refl) Hread ltac:(vm_compute; reflexivity))
    as (w' & Hrun & Hdisk & Htrace).
  exists w'. split; [exact Hrun|]. split; [vm_compute; discriminate|].
  split.
  - rewrite Hdisk. vm_compute. reflexivity.
  - rewrite Htrace. vm_compute. reflexivity.
Defined.

(** A run of X11: the first thread of a project without chat history. *)
Lemma createThread_creates_witness :
  Store.resolveProjectRoot (H := host) (Some root) fresh = (inl root, fresh) /\
  exists thread w',
    Encoded.createThread (H := host) root (Some question) fresh = (inl thread, w') /\
    created (H := host) Encoded.readThreadsIndex holds_encoded Encoded.CHAT_DIR_NAME root
      (Some question) thread fresh w'.
Proof.
  split; [reflexivity|].
  destruct (returns_intro (Encoded.createThread (H := host) root (Some question)) fresh)
    as [thread Hrun]; [vm_compute; reflexivity|].
  eexists thread, _. split; [exact Hrun|].
  exact (proj1 (createThread_creates (H := host) (H0 := crypto)
                  root root (Some question) thread fresh _ eq_refl) Hrun).
Defined.

(** A run of X12: the index of [locked_index] cannot be written, and
    [appendMessage] throws after it has written the thread. *)
Lemma write_failures_witness :
  let failure :=
    lit "Failed to write threads index: "
    ++ err_message (EACCES (lit "open") encoded_index) in
  Store.resolveProjectRoot (H := host) (Some root) locked_index
  = (inl root, locked_index) /\
  exists w',
    throws (H := host) (Encoded.appendMessage (H := host) root (lit "uuid-00") answer)
      (WriteFailed failure encoded_index) locked_index w' /\
    write_failed (H := host) Encoded.CHAT_DIR_NAME root encoded_index locked_index w'.
Proof.
  cbv zeta. split; [reflexivity|].
  pose proof (throws_intro (H := host)
                (Encoded.appendMessage (H := host) root (lit "uuid-00") answer)
                locked_index
                (WriteFailed
                   (lit "Failed to write threads index: "
                    ++ err_message (EACCES (lit "open") encoded_index))
                   encoded_index)
                ltac:(vm_compute; reflexivity)) as Hrun.
  eexists. split; [exact Hrun|].
  exact (proj1 (write_failures (H := host) (H0 := crypto)
                  root root (lit "uuid-00") [] answer _ encoded_index locked_index _
                  eq_refl) Hrun).
Defined.

(** A run of X13: a file is in the place of the chat directory. *)
Lemma createThread_failures_witness :
  let failure :=
    lit "Failed to create chat history directory: "
    ++ err_message (EEXIST (lit "mkdir") encoded_chat) in
  Store.resolveProjectRoot (H := host) (Some root) blocked = (inl root, blocked) /\
  exists w',
    throws (H := host) (Encoded.createThread (H := host) root (Some question))
      (WriteFailed failure encoded_chat) blocked w' /\
    create_failed (H := host) Encoded.CHAT_DIR_NAME root encoded_chat blocked w'.
Proof.
  cbv zeta. split; [reflexivity|].
  pose proof (throws_intro (H := host)
                (Encoded.createThread (H := host) root (Some question)) blocked
                (WriteFailed
                   (lit "Failed to create chat history directory: "
                    ++ err_message (EEXIST (lit "mkdir") encoded_chat))
                   encoded_chat)
                ltac:(vm_compute; reflexivity)) as Hrun.
  eexists. split; [exact Hrun|].
  exact (proj1 (createThread_failures (H := host) (H0 := crypto)
                  root root (Some question) _ encoded_chat blocked _ eq_refl) Hrun).
Defined.

(** A run of X14: the thread of [started_encoded], written again and read. *)
Lemma encoded_files_read_back_witness :
  let thread := thread_at 0 question in
  exists w1,
    Encoded.writeThreadFile (H := host) root thread started_encoded = (inl tt, w1) /\
    Encoded.readThreadFile (H := host) root (id thread) w1 = (inl thread, w1).
Proof.
  cbv zeta.
  pose proof (run_intro (H := host)
                (Encoded.writeThreadFile (H := host) root (thread_at 0 question))
                started_encoded tt ltac:(vm_compute; reflexivity)) as Hwrite.
  eexists. split; [exact Hwrite|].
  exact (proj1 (encoded_files_read_back (H := host)
                  root (thread_at 0 question) (mkThreadsIndex []) started_encoded _)
           ltac:(vm_compute; reflexivity) ltac:(vm_compute; reflexivity)
           ltac:(vm_compute; reflexivity) Hwrite ltac:(vm_compute; reflexivity)).
Defined.

(** A run of X15: the thread of [started_encrypted], written again and
    read. *)
Lemma encrypted_files_read_back_witness :
  let thread := thread_at 0 question in
  nonce (randomBytes (Host := host) (w_tick started_encrypted) ChatEncryption.IV_LENGTH) /\
  exists w1,
    Encrypted.writeThreadFile (H := host) (H0 := crypto) root thread started_encrypted
    = (inl tt, w1) /\
    Encrypted.readThreadFile (H := host) (H0 := crypto) root (id thread) w1
    = (inl thread, w1).
Proof.
  cbv zeta.
  assert (Hnonce : nonce (randomBytes (Host := host) (w_tick started_encrypted)
                            ChatEncryption.IV_LENGTH)).
  { split; [vm_compute; reflexivity|]. vm_compute. repeat constructor. }
  split; [exact Hnonce|].
  pose proof (run_intro (H := host)
                (Encrypted.writeThreadFile (H := host) (H0 := crypto) root
                   (thread_at 0 question))
                started_encrypted tt ltac:(vm_compute; reflexivity)) as Hwrite.
  eexists. split; [exact Hwrite|].
  exact (proj1 (encrypted_files_read_back (H := host) (H0 := crypto)
                  root (thread_at 0 question) (mkThreadsIndex []) started_encrypted _
                  Hnonce)
           ltac:(vm_compute; reflexivity) ltac:(vm_compute; reflexivity)
           Hwrite ltac:(vm_compute; reflexivity)).
Defined.

End Runs.
